(** * CPU scheduling simulators of Project1/main.go

    A shallow embedding of the four schedulers of [main.go]
    ([FCFSSchedule], [SJFSchedule], [SJFPrioritySchedule], [RRSchedule]),
    of the loader ([loadProcesses], [mustStrToInt]), of the renderer of
    the chart ([outputGantt], [outputTitle]) and of [main] with
    [openProcessingFile], together with the properties of the Gantt
    charts, of the timing tables and of the program as a whole.

    Conventions of the embedding:
    - an [int64] is a [Z]; every [+], [-], [++] and [--] of the source goes
      through [Int64.add] / [Int64.sub], which wrap around modulo 2^64;
    - a [float64] that the source obtains by dividing two converted
      integers is a [float64]: not-a-number, an infinity, or the exact
      quotient (rounding to binary64 is not represented);
    - a slice of the caller is a [list]; a scheduler returns, next to what
      it hands to [outputGantt] and [outputSchedule], the contents of the
      caller's slice when it returns, since [sort.SliceStable] works in
      place on the caller's backing array;
    - [originalProcesses] of [RRSchedule] is a [gmap] from ids to records;
    - [completedProcesses], a Go [int] that counts up to [len(processes)],
      is a [nat];
    - the two [for cond { ... }] loops take a fuel argument and return
      [None] when it runs out; termination is proved separately;
    - a call that can fail has an [outcome]: a value, an error that is
      returned, [os.Exit] with a status, or a panic;
    - the table writer of [outputSchedule] is a library and is not
      embedded.

    The first part holds the definitions: the embedding of the source, the
    vocabulary of the statements, the contracts in the words of the
    specification and the invariants of the two loops. The second part
    holds the properties. *)

From Stdlib Require Import ZArith List Lia Bool QArith Qround Permutation Sorted.
From Stdlib Require Import Ascii.
From stdpp Require Import base option list strings gmap.
Import ListNotations.
Local Open Scope Z_scope.

(** ** Machine integers *)

Module Int64.

Definition min_int : Z := - 2 ^ 63.
Definition max_int : Z := 2 ^ 63 - 1.

(** Two's complement reduction of an unbounded integer. *)
Definition wrap (z : Z) : Z := (z + 2 ^ 63) mod 2 ^ 64 - 2 ^ 63.

Definition add (a b : Z) : Z := wrap (a + b).
Definition sub (a b : Z) : Z := wrap (a - b).

Definition in_range (z : Z) : Prop := min_int <= z <= max_int.

End Int64.

(** ** Floating point quotients *)

Inductive float64 : Type :=
| NaN : float64
| Inf (negative : bool) : float64
| Real (q : Q) : float64.

(** [fdiv a b] is [float64(a) / float64(b)] for integers [a] and [b]: Go
    does not panic on a floating point division by zero. *)
Definition fdiv (a b : Z) : float64 :=
  if b =? 0 then
    if a =? 0 then NaN else Inf (a <? 0)
  else Real (Qmake (a * Z.sgn b) (Z.to_pos (Z.abs b))).

(** The number of hundredths that the verb [%.2f] of [outputSchedule]
    prints for a quotient (round to nearest). *)
Definition round_2f (q : Q) : Z := Qfloor (q * (100 # 1) + (1 # 2))%Q.

(** ** Data model *)

Record Process : Type := mkProcess {
  ProcessID : Z;
  ArrivalTime : Z;
  BurstDuration : Z;
  Priority : Z;
  Exit : Z;
  Turnaround : Z;
  Wait : Z
}.

Record TimeSlice : Type := mkTimeSlice {
  PID : Z;
  Start : Z;
  Stop : Z
}.

(** A process as [loadProcesses] builds it: the three result fields are
    left at zero. *)
Definition proc (id arrival burst priority : Z) : Process :=
  mkProcess id arrival burst priority 0 0 0.

Definition zeroProcess : Process := mkProcess 0 0 0 0 0 0 0.

(** One line of the schedule table; the source renders each number with
    [fmt.Sprint] or [strconv.FormatInt]. *)
Record Row : Type := mkRow {
  rID : Z;
  rPriority : Z;
  rBurst : Z;
  rArrival : Z;
  rWait : Z;
  rTurnaround : Z;
  rExit : Z
}.

(** What a scheduler passes to [outputGantt] and [outputSchedule]. *)
Record Output : Type := mkOutput {
  out_gantt : list TimeSlice;
  out_rows : list Row;
  out_aveWait : float64;
  out_aveTurnaround : float64;
  out_aveThroughput : float64
}.

(** The result of a call: the caller's slice afterwards, and the output. *)
Definition Result : Type := (list Process * Output)%type.

(** ** [sort.SliceStable] *)

Section StableSort.
Context {A : Type} (less : A -> A -> bool).

(** [x] comes from the left of everything in [l]: it stays in front of
    every element that is not strictly smaller. *)
Fixpoint insertStable (x : A) (l : list A) : list A :=
  match l with
  | [] => [x]
  | y :: l' => if less y x then y :: insertStable x l' else x :: y :: l'
  end.

Fixpoint sortStable (l : list A) : list A :=
  match l with
  | [] => []
  | x :: l' => insertStable x (sortStable l')
  end.

(** The order does not place [y] before [x]. *)
Definition notAfter (x y : A) : Prop := less y x = false.

(** [y] ties with [x]: the order places neither before the other. *)
Definition tiedWith (x y : A) : bool := negb (less y x) && negb (less x y).
End StableSort.

(** ** [for cond { body }] *)

Section While.
Context {St : Type} (cond : St -> bool) (body : St -> St).

(** The loop, cut off after [fuel] iterations. *)
Fixpoint while (fuel : nat) (s : St) : option St :=
  if cond s then
    match fuel with
    | O => None
    | S fuel' => while fuel' (body s)
    end
  else Some s.
End While.

(** ** FCFSSchedule *)

Module FCFS.

Record Acc : Type := mkAcc {
  serviceTime : Z;
  totalWait : Z;
  totalTurnaround : Z;
  lastCompletion : Z;
  waitingTime : Z;
  schedule : list Row;
  gantt : list TimeSlice
}.

Definition init : Acc := mkAcc 0 0 0 0 0 [] [].

(** The body of [for i := range processes]. *)
Definition step (a : Acc) (p : Process) : Acc :=
  let waitingTime :=
    if 0 <? ArrivalTime p
    then Int64.sub (serviceTime a) (ArrivalTime p)
    else waitingTime a in
  let totalWait := totalWait a + waitingTime in
  let start := Int64.add waitingTime (ArrivalTime p) in
  let turnaround := Int64.add (BurstDuration p) waitingTime in
  let totalTurnaround := totalTurnaround a + turnaround in
  let completion :=
    Int64.add (Int64.add (BurstDuration p) (ArrivalTime p)) waitingTime in
  let row :=
    mkRow (ProcessID p) (Priority p) (BurstDuration p) (ArrivalTime p)
          waitingTime turnaround completion in
  let serviceTime := Int64.add (serviceTime a) (BurstDuration p) in
  mkAcc serviceTime totalWait totalTurnaround completion waitingTime
        (schedule a ++ [row])
        (gantt a ++ [mkTimeSlice (ProcessID p) start serviceTime]).

Definition loop (processes : list Process) (a : Acc) : Acc :=
  fold_left step processes a.

Definition finish (processes : list Process) (a : Acc) : Output :=
  let count := Z.of_nat (length processes) in
  mkOutput (gantt a) (schedule a)
           (fdiv (totalWait a) count)
           (fdiv (totalTurnaround a) count)
           (fdiv count (lastCompletion a)).

End FCFS.

Definition FCFSSchedule (processes : list Process) : Result :=
  (processes, FCFS.finish processes (FCFS.loop processes FCFS.init)).

(** ** SJFSchedule *)

Module SJF.

(** The [less] of the call to [sort.SliceStable]. *)
Definition less (p q : Process) : bool :=
  BurstDuration p <? BurstDuration q.

Record Acc : Type := mkAcc {
  currentTime : Z;
  totalWait : Z;
  totalTurnaround : Z;
  gantt : list TimeSlice;
  schedule : list Row
}.

Definition init : Acc := mkAcc 0 0 0 [] [].

(** The body of [for i := range processes], on the sorted slice. *)
Definition step (a : Acc) (p : Process) : Acc :=
  let waitingTime0 := Int64.sub (currentTime a) (ArrivalTime p) in
  let '(waitingTime, currentTime) :=
    if waitingTime0 <? 0 then (0, ArrivalTime p)
    else (waitingTime0, currentTime a) in
  let totalWait := totalWait a + waitingTime in
  let start := currentTime in
  let turnaround := Int64.add (BurstDuration p) waitingTime in
  let totalTurnaround := totalTurnaround a + turnaround in
  let completion := Int64.add currentTime (BurstDuration p) in
  let row :=
    mkRow (ProcessID p) (Priority p) (BurstDuration p) (ArrivalTime p)
          waitingTime turnaround completion in
  mkAcc completion totalWait totalTurnaround
        (gantt a ++ [mkTimeSlice (ProcessID p) start completion])
        (schedule a ++ [row]).

Definition loop (processes : list Process) (a : Acc) : Acc :=
  fold_left step processes a.

Definition finish (processes : list Process) (a : Acc) : Output :=
  let count := Z.of_nat (length processes) in
  mkOutput (gantt a) (schedule a)
           (fdiv (totalWait a) count)
           (fdiv (totalTurnaround a) count)
           (fdiv count (currentTime a)).

End SJF.

(** The sort is done on the caller's slice, which is left sorted. *)
Definition SJFSchedule (processes : list Process) : Result :=
  let processes := sortStable SJF.less processes in
  (processes, SJF.finish processes (SJF.loop processes SJF.init)).

(** ** SJFPrioritySchedule *)

Module Prio.

Record State : Type := mkState {
  currentTime : Z;
  completedProcesses : nat;
  isRunning : bool;
  currentProcess : Process;
  remainingTime : Z;
  queue : list Process;
  gantt : list TimeSlice;
  originalProcesses : list Process
}.

Definition init (processes : list Process) : State :=
  mkState 0 0 false zeroProcess 0 [] [] processes.

(** The [less] of the call to [sort.SliceStable] on the queue. *)
Definition less (p q : Process) : bool :=
  if BurstDuration p =? BurstDuration q
  then Priority p <? Priority q
  else BurstDuration p <? BurstDuration q.

Definition withExit (p : Process) (t : Z) : Process :=
  mkProcess (ProcessID p) (ArrivalTime p) (BurstDuration p) (Priority p)
            t (Turnaround p) (Wait p).

(** The inner loop over [originalProcesses], left at the first match. *)
Fixpoint setExit (id t : Z) (l : list Process) : list Process :=
  match l with
  | [] => []
  | op :: l' =>
      if ProcessID op =? id then withExit op t :: l'
      else op :: setExit id t l'
  end.

Definition arrivals (processes : list Process) (t : Z) : list Process :=
  List.filter (fun p => ArrivalTime p =? t) processes.

(** One iteration of the main loop. *)
Definition tick (processes : list Process) (s : State) : State :=
  let queue1 := queue s ++ arrivals processes (currentTime s) in
  let done := isRunning s && (remainingTime s =? 0) in
  let isRunning1 := if done then false else isRunning s in
  let completed1 :=
    if done then S (completedProcesses s) else completedProcesses s in
  let originals1 :=
    if done
    then setExit (ProcessID (currentProcess s)) (currentTime s)
                 (originalProcesses s)
    else originalProcesses s in
  let gantt1 :=
    if done
    then gantt s ++
         [mkTimeSlice (ProcessID (currentProcess s))
            (Int64.sub (currentTime s) (BurstDuration (currentProcess s)))
            (currentTime s)]
    else gantt s in
  if negb isRunning1 && negb (length queue1 =? 0)%nat then
    let sorted := sortStable less queue1 in
    let currentProcess := hd zeroProcess sorted in
    mkState (Int64.add (currentTime s) 1) completed1 true currentProcess
            (BurstDuration currentProcess) (tl sorted) gantt1 originals1
  else if isRunning1 then
    mkState (Int64.add (currentTime s) 1) completed1 isRunning1
            (currentProcess s) (Int64.sub (remainingTime s) 1)
            queue1 gantt1 originals1
  else
    mkState (Int64.add (currentTime s) 1) completed1 isRunning1
            (currentProcess s) (remainingTime s)
            queue1 gantt1 originals1.

(** [for completedProcesses < len(processes) { ... }] *)
Definition unfinished (processes : list Process) (s : State) : bool :=
  (completedProcesses s <? length processes)%nat.

Definition loop (fuel : nat) (processes : list Process) (s : State)
  : option State :=
  while (unfinished processes) (tick processes) fuel s.

Definition turnaroundOf (p : Process) : Z :=
  Int64.sub (Exit p) (ArrivalTime p).

Definition waitingOf (p : Process) : Z :=
  Int64.sub (turnaroundOf p) (BurstDuration p).

Definition row (p : Process) : Row :=
  mkRow (ProcessID p) (Priority p) (BurstDuration p) (ArrivalTime p)
        (Int64.sub (Int64.sub (Exit p) (ArrivalTime p)) (BurstDuration p))
        (Int64.sub (Exit p) (ArrivalTime p))
        (Exit p).

Definition finish (processes : list Process) (s : State) : Output :=
  let totalWaitingTime :=
    fold_left (fun acc p => Int64.add acc (waitingOf p))
              (originalProcesses s) 0 in
  let totalTurnaroundTime :=
    fold_left (fun acc p => Int64.add acc (turnaroundOf p))
              (originalProcesses s) 0 in
  let n := Z.of_nat (length processes) in
  mkOutput (gantt s) (map row (originalProcesses s))
           (fdiv totalWaitingTime n)
           (fdiv totalTurnaroundTime n)
           (fdiv n (currentTime s)).

End Prio.

Definition SJFPrioritySchedule (fuel : nat) (processes : list Process)
  : option Result :=
  match Prio.loop fuel processes (Prio.init processes) with
  | Some s => Some (processes, Prio.finish processes s)
  | None => None
  end.

(** ** RRSchedule *)

Module RR.

Definition quantum : Z := 4.

(** The [less] of the call to [sort.SliceStable]. *)
Definition less (p q : Process) : bool :=
  ArrivalTime p <? ArrivalTime q.

(** [originalProcesses[p.ProcessID] = p] for each process in turn. *)
Definition originals (processes : list Process) : gmap Z Process :=
  fold_left (fun m p => <[ProcessID p := p]> m) processes ∅.

(** Reading a Go map at a missing key gives the zero value. *)
Definition original (m : gmap Z Process) (id : Z) : Process :=
  default zeroProcess (m !! id).

Record State : Type := mkState {
  clock : Z;
  completed : Z;
  processes : list Process;
  queue : list Process;
  gantt : list TimeSlice;
  schedule : list Process
}.

Definition init (processes : list Process) : State :=
  mkState 0 0 processes [] [] [].

(** The inner loop that moves the arrived processes to the queue. *)
Fixpoint moveArrived (clock : Z) (processes queue : list Process)
  : list Process * list Process :=
  match processes with
  | p :: rest =>
      if ArrivalTime p <=? clock then moveArrived clock rest (queue ++ [p])
      else (processes, queue)
  | [] => (processes, queue)
  end.

Definition withBurst (p : Process) (b : Z) : Process :=
  mkProcess (ProcessID p) (ArrivalTime p) b (Priority p)
            (Exit p) (Turnaround p) (Wait p).

Definition withResult (p : Process) (e t w : Z) : Process :=
  mkProcess (ProcessID p) (ArrivalTime p) (BurstDuration p) (Priority p)
            e t w.

(** One iteration of the main loop. *)
Definition iter (m : gmap Z Process) (s : State) : State :=
  let '(processes, queue) := moveArrived (clock s) (processes s) (queue s) in
  match queue with
  | [] =>
      mkState (Int64.add (clock s) 1) (completed s) processes queue
              (gantt s) (schedule s)
  | currentProcess :: queue =>
      if quantum <? BurstDuration currentProcess then
        let stop := Int64.add (clock s) quantum in
        let clock' := Int64.add (clock s) quantum in
        let currentProcess :=
          withBurst currentProcess
            (Int64.sub (BurstDuration currentProcess) quantum) in
        mkState clock' (completed s) processes (queue ++ [currentProcess])
                (gantt s ++
                 [mkTimeSlice (ProcessID currentProcess) (clock s) stop])
                (schedule s)
      else
        let stop := Int64.add (clock s) (BurstDuration currentProcess) in
        let clock' := Int64.add (clock s) (BurstDuration currentProcess) in
        let original := original m (ProcessID currentProcess) in
        let turnaround := Int64.sub clock' (ArrivalTime original) in
        let wait := Int64.sub turnaround (BurstDuration original) in
        let currentProcess :=
          withResult currentProcess clock' turnaround wait in
        mkState clock' (Int64.add (completed s) 1) processes queue
                (gantt s ++
                 [mkTimeSlice (ProcessID currentProcess) (clock s) stop])
                (schedule s ++ [currentProcess])
  end.

(** [for len(processes) > 0 || len(queue) > 0 { ... }] *)
Definition unfinished (s : State) : bool :=
  (0 <? length (processes s))%nat || (0 <? length (queue s))%nat.

Definition loop (fuel : nat) (m : gmap Z Process) (s : State)
  : option State :=
  while unfinished (iter m) fuel s.

Definition row (m : gmap Z Process) (p : Process) : Row :=
  mkRow (ProcessID p) (Priority p)
        (BurstDuration (original m (ProcessID p)))
        (ArrivalTime p) (Wait p) (Turnaround p) (Exit p).

Definition finish (m : gmap Z Process) (s : State) : Output :=
  let totalWait :=
    fold_left (fun acc p => Int64.add acc (Wait p)) (schedule s) 0 in
  let totalTurnaround :=
    fold_left (fun acc p => Int64.add acc (Turnaround p)) (schedule s) 0 in
  mkOutput (gantt s) (map (row m) (schedule s))
           (fdiv totalWait (completed s))
           (fdiv totalTurnaround (completed s))
           (fdiv (completed s) (clock s)).

End RR.

(** The sort is done on the caller's slice, which is left sorted; the
    later [processes = processes[1:]] only moves the local slice header. *)
Definition RRSchedule (fuel : nat) (processes : list Process)
  : option Result :=
  let processes := sortStable RR.less processes in
  let m := RR.originals processes in
  match RR.loop fuel m (RR.init processes) with
  | Some s => Some (processes, RR.finish m s)
  | None => None
  end.

(** ** Outcomes of the calls that can fail *)

Inductive error : Type :=
| ErrInvalidArgs
| ErrOpen
| ErrCSV.

(** A call returns a value, returns an error, ends the program with
    [os.Exit], or panics. *)
Inductive outcome (A : Type) : Type :=
| Ok (a : A)
| Failed (e : error)
| Exited (status : Z)
| Panicked.

Arguments Ok {A} a.
Arguments Failed {A} e.
Arguments Exited {A} status.
Arguments Panicked {A}.

Definition bind {A B : Type} (o : outcome A) (k : A -> outcome B)
  : outcome B :=
  match o with
  | Ok a => k a
  | Failed e => Failed e
  | Exited status => Exited status
  | Panicked => Panicked
  end.

Notation "'do' x <- o ; k" := (bind o (fun x => k))
  (at level 10, x name, o at level 100, k at level 200).

(** ** The library calls of the loader and of the renderer *)

Module Strconv.

(** The value of a decimal digit, if the byte is one. *)
Definition digitValue (c : ascii) : option Z :=
  let n := Z.of_N (N_of_ascii c) in
  if (48 <=? n) && (n <=? 57) then Some (n - 48) else None.

Fixpoint parseDigits (acc : Z) (s : string) : option Z :=
  match s with
  | EmptyString => Some acc
  | String c s' =>
      match digitValue c with
      | Some d => parseDigits (10 * acc + d) s'
      | None => None
      end
  end.

(** [strconv.ParseUint(s, 10, 64)], [None] for any error: the string is
    empty, holds a byte that is no digit, or is above [2^64 - 1]. *)
Definition ParseUint (s : string) : option Z :=
  match s with
  | EmptyString => None
  | _ =>
      match parseDigits 0 s with
      | Some un => if un <=? 2 ^ 64 - 1 then Some un else None
      | None => None
      end
  end.

(** [strconv.ParseInt(s, 10, 64)], [None] for any error: one optional
    sign, then the digits of a number of the [int64] range. *)
Definition ParseInt (s : string) : option Z :=
  match s with
  | EmptyString => None
  | String c s' =>
      let neg := Ascii.eqb c "-" in
      let digits :=
        if Ascii.eqb c "+" then s' else if neg then s' else s in
      match ParseUint digits with
      | None => None
      | Some un =>
          if negb neg && (2 ^ 63 <=? un) then None
          else if neg && (2 ^ 63 <? un) then None
          else Some (if neg then - un else un)
      end
  end.

End Strconv.

Module Fmt.

Definition digitChar (d : Z) : ascii := ascii_of_N (Z.to_N (48 + d)).

(** The decimal digits of [n], most significant first, in front of [acc];
    [fuel + 1] digits at most. *)
Fixpoint formatDigits (fuel : nat) (n : Z) (acc : string) : string :=
  let acc := String (digitChar (n mod 10)) acc in
  match fuel with
  | O => acc
  | S fuel' => if n <? 10 then acc else formatDigits fuel' (n / 10) acc
  end.

(** [fmt.Sprint] of an [int64]: a minus sign for a negative number, then
    the decimal digits, of which an [int64] has 19 at most. *)
Definition Sprint (z : Z) : string :=
  if z <? 0 then String "-" (formatDigits 18 (- z) EmptyString)
  else formatDigits 18 z EmptyString.

End Fmt.

Module Strings.

Fixpoint repeat (s : string) (count : nat) : string :=
  match count with
  | O => EmptyString
  | S count' => s +:+ repeat s count'
  end.

(** [strings.Repeat]: it panics on a negative count. *)
Definition Repeat (s : string) (count : Z) : outcome string :=
  if count <? 0 then Panicked else Ok (repeat s (Z.to_nat count)).

End Strings.

(** ** Loading processes *)

(** [mustStrToInt]: the error of [ParseInt] is printed and the program
    exits with status 1. *)
Definition mustStrToInt (s : string) : outcome Z :=
  match Strconv.ParseInt s with
  | Some i => Ok i
  | None => Exited 1
  end.

(** [rows[i][j]]: indexing past the end of a row panics. *)
Definition field (row : list string) (j : nat) : outcome string :=
  match nth_error row j with
  | Some s => Ok s
  | None => Panicked
  end.

(** The body of the loop of [loadProcesses] for one row. *)
Definition loadRow (row : list string) : outcome Process :=
  do id <- (do s <- field row 0; mustStrToInt s);
  do burst <- (do s <- field row 1; mustStrToInt s);
  do arrival <- (do s <- field row 2; mustStrToInt s);
  do priority <-
    (if (length row =? 4)%nat then do s <- field row 3; mustStrToInt s
     else Ok 0);
  Ok (mkProcess id arrival burst priority 0 0 0).

Fixpoint loadRows (rows : list (list string)) : outcome (list Process) :=
  match rows with
  | [] => Ok []
  | row :: rows' =>
      do p <- loadRow row;
      do ps <- loadRows rows';
      Ok (p :: ps)
  end.

(** [loadProcesses]; [records] is what [csv.NewReader(r).ReadAll()]
    returns, [None] for an error. *)
Definition loadProcesses (records : option (list (list string)))
  : outcome (list Process) :=
  match records with
  | None => Failed ErrCSV
  | Some rows => loadRows rows
  end.

(** Field [j] of the row is there and is the decimal text of [z]. *)
Definition parsed (row : list string) (j : nat) (z : Z) : Prop :=
  exists s, nth_error row j = Some s /\ Strconv.ParseInt s = Some z.

(** The process that a row stands for: id, burst and arrival in this
    order, a priority if the row has four fields, zero if it has not. *)
Definition loadsAs (row : list string) (p : Process) : Prop :=
  parsed row 0 (ProcessID p)
  /\ parsed row 1 (BurstDuration p)
  /\ parsed row 2 (ArrivalTime p)
  /\ (if (length row =? 4)%nat then parsed row 3 (Priority p)
      else Priority p = 0)
  /\ Exit p = 0 /\ Turnaround p = 0 /\ Wait p = 0.

(** ** Output helpers *)

(** [outputTitle]: what it writes. [Fprintln] puts a space between its
    operands. *)
Definition outputTitle (title : string) : string :=
  let n := String.length title in
  Strings.repeat "-" (n * 2) +:+ String "010" EmptyString
  +:+ Strings.repeat " " (n / 2) +:+ " " +:+ title
  +:+ String "010" EmptyString
  +:+ Strings.repeat "-" (n * 2) +:+ String "010" EmptyString.

Module Gantt.

(** The first loop of [outputGantt]: one cell per interval. What is
    written comes with the way the loop ends. *)
Fixpoint cells (gantt : list TimeSlice) : string * outcome unit :=
  match gantt with
  | [] => (EmptyString, Ok tt)
  | sl :: gantt' =>
      let pid := Fmt.Sprint (PID sl) in
      match Strings.Repeat " " (Z.quot (8 - Z.of_nat (String.length pid)) 2)
      with
      | Ok padding =>
          let '(text, ending) := cells gantt' in
          (padding +:+ pid +:+ padding +:+ "|" +:+ text, ending)
      | _ => (EmptyString, Panicked)
      end
  end.

(** The second loop: every start, and the stop of the last interval. *)
Fixpoint times (gantt : list TimeSlice) : string :=
  match gantt with
  | [] => EmptyString
  | sl :: gantt' =>
      Fmt.Sprint (Start sl) +:+ String "009" EmptyString
      +:+ match gantt' with
          | [] => Fmt.Sprint (Stop sl)
          | _ => times gantt'
          end
  end.

End Gantt.

(** [outputGantt]: what it writes, and whether it returns or panics. *)
Definition outputGantt (gantt : list TimeSlice) : string * outcome unit :=
  let header := "Gantt schedule" +:+ String "010" EmptyString +:+ "|" in
  match Gantt.cells gantt with
  | (text, Ok _) =>
      (header +:+ text +:+ String "010" EmptyString
       +:+ Gantt.times gantt
       +:+ String "010" (String "010" EmptyString),
       Ok tt)
  | (text, ending) => (header +:+ text, ending)
  end.

(** ** The program *)

Module Main.

(** What becomes of a report: [outputGantt] may panic; [outputTitle]
    does not, and the table writer of [outputSchedule] is taken not to. *)
Definition render (o : Output) : outcome unit :=
  snd (outputGantt (out_gantt o)).

(** The four calls of [main], one after the other on the same slice: what
    the slice holds in the end, the reports that were handed to the
    renderer, and how the last of them ended. *)
Definition schedule (fuel : nat) (processes : list Process)
  : option (list Process * list Output * outcome unit) :=
  let '(processes, fcfs) := FCFSSchedule processes in
  match render fcfs with
  | Ok _ =>
      let '(processes, sjf) := SJFSchedule processes in
      match render sjf with
      | Ok _ =>
          match SJFPrioritySchedule fuel processes with
          | None => None
          | Some (processes, prio) =>
              match render prio with
              | Ok _ =>
                  match RRSchedule fuel processes with
                  | None => None
                  | Some (processes, rr) =>
                      Some (processes, [fcfs; sjf; prio; rr], render rr)
                  end
              | ending => Some (processes, [fcfs; sjf; prio], ending)
              end
          end
      | ending => Some (processes, [fcfs; sjf], ending)
      end
  | ending => Some (processes, [fcfs], ending)
  end.

Section Program.
Context {File : Type}.
Variable osOpen : string -> option File.
Variable readAll : File -> option (list (list string)).
Variable close : File -> bool.

(** [openProcessingFile]; the function that closes the file is [close]. *)
Definition openProcessingFile (args : list string) : outcome File :=
  if negb (length args =? 2)%nat then Failed ErrInvalidArgs
  else
    match osOpen (nth 1 args EmptyString) with
    | None => Failed ErrOpen
    | Some f => Ok f
    end.

(** The deferred [closeFile] runs when [main] returns and when it
    panics, not after [os.Exit]; a file that does not close makes it exit
    with status 1. *)
Definition deferred (f : File) (ending : outcome unit) : outcome unit :=
  match ending with
  | Ok _ | Panicked => if close f then ending else Exited 1
  | _ => ending
  end.

(** [main]: the reports that are handed to the renderer, and how the
    program ends. An error that is returned goes to [log.Fatal], which
    exits with status 1. *)
Definition main (fuel : nat) (args : list string)
  : option (list Output * outcome unit) :=
  match openProcessingFile args with
  | Ok f =>
      match loadProcesses (readAll f) with
      | Ok processes =>
          match schedule fuel processes with
          | Some (_, reports, ending) => Some (reports, deferred f ending)
          | None => None
          end
      | Failed _ => Some ([], Exited 1)
      | Exited status => Some ([], Exited status)
      | Panicked => Some ([], deferred f Panicked)
      end
  | _ => Some ([], Exited 1)
  end.

End Program.

End Main.

(** ** Vocabulary of the statements *)

(** An input the loader is meant to hand over: a positive burst and an
    arrival that is not negative. *)
Definition validProcess (p : Process) : Prop :=
  0 < BurstDuration p /\ 0 <= ArrivalTime p.

Definition valid (processes : list Process) : Prop :=
  Forall validProcess processes.

Definition uniqueIDs (processes : list Process) : Prop :=
  NoDup (map ProcessID processes).

Definition sumBurst (processes : list Process) : Z :=
  fold_right (fun p acc => BurstDuration p + acc) 0 processes.

Definition maxArrival (processes : list Process) : Z :=
  fold_right (fun p acc => Z.max (ArrivalTime p) acc) 0 processes.

(** A time that no scheduler passes on a valid input: the last arrival,
    all the bursts, and two ticks per process of the tick-driven loop. *)
Definition horizon (processes : list Process) : Z :=
  maxArrival processes + sumBurst processes
  + 2 * Z.of_nat (length processes) + 1.

(** The input is far from the end of the [int64] range. *)
Definition small (processes : list Process) : Prop :=
  horizon processes <= Int64.max_int.

(** Total length of the Gantt intervals of one process id. *)
Definition busy (pid : Z) (gantt : list TimeSlice) : Z :=
  fold_right
    (fun s acc => if PID s =? pid then (Stop s - Start s) + acc else acc)
    0 gantt.

Definition duration (s : TimeSlice) : Z := Stop s - Start s.

(** The calls with a loop that needs fuel: what they return, if they do. *)
Definition Prio_returns (processes : list Process) (r : Result) : Prop :=
  exists fuel, SJFPrioritySchedule fuel processes = Some r.

Definition RR_returns (processes : list Process) (r : Result) : Prop :=
  exists fuel, RRSchedule fuel processes = Some r.

(** The running example of the specification. *)
Definition P1 : Process := proc 1 0 5 0.
Definition P2 : Process := proc 2 1 3 0.
Definition P3 : Process := proc 3 2 8 0.
Definition scenario : list Process := [P1; P2; P3].

(** *** The contracts in the words of the specification *)

Module Contract.

(** FCFS: [wait = max(0, serviceTime - arrival)]. *)
Definition fcfs_wait (serviceTime arrival : Z) : Z :=
  Z.max 0 (serviceTime - arrival).

(** FCFS: [start = arrival + wait]. *)
Definition fcfs_start (serviceTime arrival : Z) : Z :=
  arrival + fcfs_wait serviceTime arrival.

(** SJF: idle up to the arrival, then run to completion. *)
Fixpoint sjf_gantt (currentTime : Z) (sorted : list Process)
  : list TimeSlice :=
  match sorted with
  | [] => []
  | p :: rest =>
      let start := Z.max currentTime (ArrivalTime p) in
      let completion := start + BurstDuration p in
      mkTimeSlice (ProcessID p) start completion
        :: sjf_gantt completion rest
  end.

Fixpoint sjf_rows (currentTime : Z) (sorted : list Process) : list Row :=
  match sorted with
  | [] => []
  | p :: rest =>
      let start := Z.max currentTime (ArrivalTime p) in
      let wait := start - ArrivalTime p in
      let completion := start + BurstDuration p in
      mkRow (ProcessID p) (Priority p) (BurstDuration p) (ArrivalTime p)
            wait (BurstDuration p + wait) completion
        :: sjf_rows completion rest
  end.

(** Priority-SJF: a process dequeued at tick [t] leaves at [t + burst]
    and occupies [[t, t + burst)]. *)
Definition prio_exit (t burst : Z) : Z := t + burst.
Definition prio_slice (pid t burst : Z) : TimeSlice :=
  mkTimeSlice pid t (t + burst).

(** Priority-SJF: the five steps of a tick, on unbounded integers.
    1. the arrivals of the tick join the queue; 2. a running process with
    no time left is completed; 3. if nothing runs, the head of the sorted
    queue is started; 4. a process that runs, and was not just completed,
    loses one unit; 5. the time advances. *)
Definition prio_tick (processes : list Process) (s : Prio.State)
  : Prio.State :=
  let queue1 := Prio.queue s ++ Prio.arrivals processes (Prio.currentTime s) in
  let done := Prio.isRunning s && (Prio.remainingTime s =? 0) in
  let isRunning2 := if done then false else Prio.isRunning s in
  let completed2 :=
    if done then S (Prio.completedProcesses s)
    else Prio.completedProcesses s in
  let originals2 :=
    if done
    then Prio.setExit (ProcessID (Prio.currentProcess s))
           (Prio.currentTime s) (Prio.originalProcesses s)
    else Prio.originalProcesses s in
  let gantt2 :=
    if done
    then Prio.gantt s ++
         [mkTimeSlice (ProcessID (Prio.currentProcess s))
            (Prio.currentTime s - BurstDuration (Prio.currentProcess s))
            (Prio.currentTime s)]
    else Prio.gantt s in
  let start := negb isRunning2 && negb (length queue1 =? 0)%nat in
  let sorted := sortStable Prio.less queue1 in
  let isRunning3 := if start then true else isRunning2 in
  let current3 :=
    if start then hd zeroProcess sorted else Prio.currentProcess s in
  let remaining3 :=
    if start then BurstDuration (hd zeroProcess sorted)
    else Prio.remainingTime s in
  let queue3 := if start then tl sorted else queue1 in
  let remaining4 := if isRunning3 then remaining3 - 1 else remaining3 in
  Prio.mkState (Prio.currentTime s + 1) completed2 isRunning3 current3
               remaining4 queue3 gantt2 originals2.

End Contract.

(** *** Invariants of the round-robin loop *)

(** Bursts that a list of processes still asks for under one id. *)
Definition demand (pid : Z) (l : list Process) : Z :=
  fold_right
    (fun p acc => if ProcessID p =? pid then BurstDuration p + acc else acc)
    0 l.

Module RRInv.

(** Everything that is still to be served: the ready queue, then the
    processes that have not arrived. *)
Definition waiting (s : RR.State) : list Process :=
  RR.queue s ++ RR.processes s.

(** The number of iterations that are left at most: the bursts to be
    served, and the idle ticks up to the last arrival. *)
Definition measure (s : RR.State) : nat :=
  Z.to_nat (sumBurst (waiting s)
            + Z.max 0 (maxArrival (RR.processes s) - RR.clock s)).

Record Inv (input : list Process) (s : RR.State) : Prop := mkInv {
  inv_clock : 0 <= RR.clock s;
  inv_valid : valid (waiting s);
  inv_bound :
    Z.max (RR.clock s) (maxArrival (RR.processes s)) + sumBurst (waiting s)
    <= maxArrival input + sumBurst input;
  inv_completed : RR.completed s = Z.of_nat (length (RR.schedule s));
  inv_count :
    (length (RR.schedule s) + length (waiting s) = length input)%nat;
  inv_slices :
    Forall (fun sl => 0 < duration sl <= RR.quantum) (RR.gantt s);
  inv_work :
    forall pid,
      busy pid (RR.gantt s) + demand pid (waiting s) = demand pid input
}.

(** [q] waits in the queue at time [clock]: it is a process [p0] of the
    input, and what it has been served was served after its arrival. *)
Definition served (input : list Process) (clock : Z) (q : Process) : Prop :=
  exists p0,
    In p0 input
    /\ ProcessID q = ProcessID p0
    /\ BurstDuration q <= BurstDuration p0
    /\ ArrivalTime p0 + (BurstDuration p0 - BurstDuration q) <= clock.

(** [c] was completed by time [clock]: it is a process [p0] of the input,
    it left after its arrival and its burst, and its turnaround and wait
    are counted from the arrival and the burst of [p0]. *)
Definition finished (input : list Process) (clock : Z) (c : Process)
  : Prop :=
  exists p0,
    In p0 input
    /\ ProcessID c = ProcessID p0
    /\ ArrivalTime p0 + BurstDuration p0 <= Exit c <= clock
    /\ Turnaround c = Exit c - ArrivalTime p0
    /\ Wait c = Turnaround c - BurstDuration p0.

Record Timing (input : list Process) (s : RR.State) : Prop := mkTiming {
  tim_queue : Forall (served input (RR.clock s)) (RR.queue s);
  tim_pending : Forall (fun p => In p input) (RR.processes s);
  tim_schedule : Forall (finished input (RR.clock s)) (RR.schedule s)
}.

End RRInv.

(** *** Invariants of the tick-driven loop *)

(** Sum of a weight over a list of processes, and of a weight of the id
    and the length over a Gantt sequence. *)
Definition total (w : Process -> Z) (l : list Process) : Z :=
  fold_right (fun p acc => w p + acc) 0 l.

Definition totalSlices (f : Z -> Z -> Z) (g : list TimeSlice) : Z :=
  fold_right (fun sl acc => f (PID sl) (Stop sl - Start sl) + acc) 0 g.

Module PrioInv.

(** The five ways through one iteration of the loop. *)
Inductive Step (ps : list Process) (s : Prio.State) : Prio.State -> Prop :=
| step_idle :
    Prio.isRunning s = false ->
    Prio.queue s ++ Prio.arrivals ps (Prio.currentTime s) = [] ->
    Step ps s
      (Prio.mkState (Int64.add (Prio.currentTime s) 1)
         (Prio.completedProcesses s) false (Prio.currentProcess s)
         (Prio.remainingTime s) [] (Prio.gantt s) (Prio.originalProcesses s))
| step_start (p : Process) (rest : list Process) :
    Prio.isRunning s = false ->
    sortStable Prio.less
      (Prio.queue s ++ Prio.arrivals ps (Prio.currentTime s)) = p :: rest ->
    Step ps s
      (Prio.mkState (Int64.add (Prio.currentTime s) 1)
         (Prio.completedProcesses s) true p (BurstDuration p) rest
         (Prio.gantt s) (Prio.originalProcesses s))
| step_run :
    Prio.isRunning s = true ->
    Prio.remainingTime s <> 0 ->
    Step ps s
      (Prio.mkState (Int64.add (Prio.currentTime s) 1)
         (Prio.completedProcesses s) true (Prio.currentProcess s)
         (Int64.sub (Prio.remainingTime s) 1)
         (Prio.queue s ++ Prio.arrivals ps (Prio.currentTime s))
         (Prio.gantt s) (Prio.originalProcesses s))
| step_finish :
    Prio.isRunning s = true ->
    Prio.remainingTime s = 0 ->
    Prio.queue s ++ Prio.arrivals ps (Prio.currentTime s) = [] ->
    Step ps s
      (Prio.mkState (Int64.add (Prio.currentTime s) 1)
         (S (Prio.completedProcesses s)) false (Prio.currentProcess s)
         (Prio.remainingTime s) []
         (Prio.gantt s ++
          [mkTimeSlice (ProcessID (Prio.currentProcess s))
             (Int64.sub (Prio.currentTime s)
                (BurstDuration (Prio.currentProcess s)))
             (Prio.currentTime s)])
         (Prio.setExit (ProcessID (Prio.currentProcess s))
            (Prio.currentTime s) (Prio.originalProcesses s)))
| step_finish_start (p : Process) (rest : list Process) :
    Prio.isRunning s = true ->
    Prio.remainingTime s = 0 ->
    sortStable Prio.less
      (Prio.queue s ++ Prio.arrivals ps (Prio.currentTime s)) = p :: rest ->
    Step ps s
      (Prio.mkState (Int64.add (Prio.currentTime s) 1)
         (S (Prio.completedProcesses s)) true p (BurstDuration p) rest
         (Prio.gantt s ++
          [mkTimeSlice (ProcessID (Prio.currentProcess s))
             (Int64.sub (Prio.currentTime s)
                (BurstDuration (Prio.currentProcess s)))
             (Prio.currentTime s)])
         (Prio.setExit (ProcessID (Prio.currentProcess s))
            (Prio.currentTime s) (Prio.originalProcesses s))).

(** The processes that have not been moved to the queue at time [t]. *)
Definition pending (ps : list Process) (t : Z) : list Process :=
  List.filter (fun p => t <=? ArrivalTime p) ps.

Definition running (s : Prio.State) : list Process :=
  if Prio.isRunning s then [Prio.currentProcess s] else [].

(** Every process that is not completed. *)
Definition unserved (ps : list Process) (s : Prio.State) : list Process :=
  running s ++ Prio.queue s ++ pending ps (Prio.currentTime s).

(** Ticks that a process costs from the queue: its burst, the tick of its
    start and the tick of its completion. *)
Definition cost (p : Process) : Z := BurstDuration p + 2.

(** A bound on the number of iterations that are left. *)
Definition potential (ps : list Process) (s : Prio.State) : Z :=
  total cost (Prio.queue s)
  + total cost (pending ps (Prio.currentTime s))
  + (if Prio.isRunning s then Prio.remainingTime s + 1 else 0)
  + Z.max 0 (maxArrival ps + 1 - Prio.currentTime s).

Definition measure (ps : list Process) (s : Prio.State) : nat :=
  Z.to_nat (potential ps s).

(** The id and the burst of a process, weighed by [f]. *)
Definition weigh (f : Z -> Z -> Z) (p : Process) : Z :=
  f (ProcessID p) (BurstDuration p).

Record Inv (ps : list Process) (s : Prio.State) : Prop := mkInv {
  inv_time : 0 <= Prio.currentTime s;
  inv_members : Forall (fun p => In p ps) (running s ++ Prio.queue s);
  inv_remaining :
    Prio.isRunning s = true ->
    0 <= Prio.remainingTime s <= BurstDuration (Prio.currentProcess s);
  inv_started :
    Prio.isRunning s = true ->
    ArrivalTime (Prio.currentProcess s)
    + BurstDuration (Prio.currentProcess s) + 1
    <= Prio.currentTime s + Prio.remainingTime s;
  inv_queued :
    Forall (fun q => ArrivalTime q < Prio.currentTime s) (Prio.queue s);
  inv_potential : Prio.currentTime s + potential ps s <= horizon ps;
  inv_completed : Prio.completedProcesses s = length (Prio.gantt s);
  inv_ledger :
    forall f,
      total (weigh f) ps
      = totalSlices f (Prio.gantt s) + total (weigh f) (unserved ps s);
  inv_slices :
    Forall
      (fun sl =>
         exists p,
           In p ps /\ PID sl = ProcessID p
           /\ Start sl = Stop sl - BurstDuration p
           /\ ArrivalTime p + BurstDuration p < Stop sl)
      (Prio.gantt s);
  inv_past : Forall (fun sl => Stop sl <= Prio.currentTime s) (Prio.gantt s)
}.

(** The entry [op] of [originalProcesses] for the input process [p]: only
    the exit may differ. *)
Definition sameInput (op p : Process) : Prop :=
  op = Prio.withExit p (Exit op).

(** The exit of the entry is the one of the input, or the end of an
    interval that the chart has for the id. *)
Definition traced (g : list TimeSlice) (op p : Process) : Prop :=
  sameInput op p
  /\ (Exit op = Exit p
      \/ exists sl, In sl g /\ PID sl = ProcessID p /\ Stop sl = Exit op).

(** Once the id is on the chart, the exit of the entry is the end of an
    interval of the length of the burst. *)
Definition recorded (g : list TimeSlice) (op p : Process) : Prop :=
  sameInput op p
  /\ (In (ProcessID p) (map PID g) ->
      In (mkTimeSlice (ProcessID p) (Exit op - BurstDuration p) (Exit op)) g).


End PrioInv.

(** *** Vocabulary of the further properties *)

(** The order of [less], and [R] between what [less] ties. *)
Definition thenBy {A : Type} (less : A -> A -> bool) (R : A -> A -> Prop)
           (x y : A) : Prop :=
  less x y = true \/ (less y x = false /\ R x y).

(** By arrival, and by burst at equal arrivals. *)
Definition byArrivalThenBurst (p q : Process) : Prop :=
  ArrivalTime p < ArrivalTime q
  \/ (ArrivalTime p = ArrivalTime q /\ BurstDuration p <= BurstDuration q).

(** An id that [fmt.Sprint] renders with ten bytes or more. *)
Definition longID (id : Z) : Prop := 1000000000 <= id \/ id <= -100000000.

(** The chart names processes of the input only. *)
Definition knownIDs (processes : list Process) (gantt : list TimeSlice)
  : Prop :=
  Forall (fun sl => In (PID sl) (map ProcessID processes)) gantt.

Definition known (processes : list Process) (p : Process) : Prop :=
  In (ProcessID p) (map ProcessID processes).

Module ChartInv.

Record Prio (ps : list Process) (s : Prio.State) : Prop := mkPrio {
  prio_chart : knownIDs ps (Prio.gantt s);
  prio_queue : Forall (known ps) (Prio.queue s);
  prio_current : Prio.isRunning s = true -> known ps (Prio.currentProcess s)
}.

Record RR (ps : list Process) (s : RR.State) : Prop := mkRR {
  rr_chart : knownIDs ps (RR.gantt s);
  rr_queue : Forall (known ps) (RR.queue s);
  rr_pending : Forall (known ps) (RR.processes s)
}.

End ChartInv.

(** No id of the processes is too long for a cell of the chart. *)
Definition shortIDs (processes : list Process) : Prop :=
  Forall (fun p => ~ longID (ProcessID p)) processes.

(** A run without a pause from time [t], in the order of the list and
    whatever the arrivals: the wait is counted from the arrival to the
    start, and is negative for a process that has not arrived. *)
Module BackToBack.

Fixpoint gantt (t : Z) (processes : list Process) : list TimeSlice :=
  match processes with
  | [] => []
  | p :: rest =>
      mkTimeSlice (ProcessID p) t (t + BurstDuration p)
        :: gantt (t + BurstDuration p) rest
  end.

Fixpoint rows (t : Z) (processes : list Process) : list Row :=
  match processes with
  | [] => []
  | p :: rest =>
      mkRow (ProcessID p) (Priority p) (BurstDuration p) (ArrivalTime p)
            (t - ArrivalTime p) (BurstDuration p + (t - ArrivalTime p))
            (t + BurstDuration p)
        :: rows (t + BurstDuration p) rest
  end.

End BackToBack.

(** The chart is a timeline: every interval ends before the later ones
    start. *)
Definition timeline (gantt : list TimeSlice) : Prop :=
  StronglySorted (fun a b => Stop a <= Start b) gantt.

(** No interval starts before a process of its id has arrived. *)
Definition afterArrival (processes : list Process) (gantt : list TimeSlice)
  : Prop :=
  Forall
    (fun sl =>
       exists p,
         In p processes /\ ProcessID p = PID sl /\ ArrivalTime p <= Start sl)
    gantt.

Module Timeline.

(** [q] is in the queue at time [clock] for a process that has arrived. *)
Definition arrived (input : list Process) (clock : Z) (q : Process) : Prop :=
  exists p, In p input /\ ProcessID p = ProcessID q /\ ArrivalTime p <= clock.

Record RR (input : list Process) (s : RR.State) : Prop := mkRR {
  rr_sorted : timeline (RR.gantt s);
  rr_past : Forall (fun sl => Stop sl <= RR.clock s) (RR.gantt s);
  rr_arrival : afterArrival input (RR.gantt s);
  rr_queue : Forall (arrived input (RR.clock s)) (RR.queue s);
  rr_pending : Forall (fun p => In p input) (RR.processes s)
}.

(** The running process is drawn from [currentTime + remainingTime - burst]
    when it completes: after every interval of the chart. *)
Record Prio (s : Prio.State) : Prop := mkPrio {
  prio_sorted :
    StronglySorted (fun a b => Stop a < Start b) (Prio.gantt s);
  prio_next :
    Prio.isRunning s = true ->
    Forall
      (fun sl =>
         Stop sl < Prio.currentTime s + Prio.remainingTime s
                   - BurstDuration (Prio.currentProcess s))
      (Prio.gantt s)
}.

End Timeline.

(** The processes that arrive at the ticks from 0 to [t - 1]: those that
    the tick-driven loop has moved to its queue when its clock shows [t]. *)
Definition arrivedBefore (processes : list Process) (t : Z) : list Process :=
  List.filter (fun p => (0 <=? ArrivalTime p) && (ArrivalTime p <? t))
              processes.

Module Census.

(** Every process that has arrived is completed, running or queued. *)
Record Prio (ps : list Process) (s : Prio.State) : Prop := mkPrio {
  prio_time : 0 <= Prio.currentTime s;
  prio_count :
    (Prio.completedProcesses s + length (PrioInv.running s)
     + length (Prio.queue s)
     = length (arrivedBefore ps (Prio.currentTime s)))%nat
}.

End Census.

Module Table.

(** The completed processes of the round-robin loop, in the order in
    which they were completed. *)
Record RR (input : list Process) (s : RR.State) : Prop := mkRR {
  rr_ids :
    Permutation
      (map ProcessID (RR.schedule s ++ RR.queue s ++ RR.processes s))
      (map ProcessID input);
  rr_order : StronglySorted (fun a b => Exit a < Exit b) (RR.schedule s);
  rr_past : Forall (fun c => Exit c <= RR.clock s) (RR.schedule s);
  rr_drawn :
    Forall
      (fun c =>
         exists sl,
           In sl (RR.gantt s) /\ PID sl = ProcessID c /\ Stop sl = Exit c)
      (RR.schedule s)
}.

End Table.

(** The chart as runs, an id with a length; the input as jobs, an id with
    a burst. *)
Definition runs (gantt : list TimeSlice) : list (Z * Z) :=
  map (fun sl => (PID sl, Stop sl - Start sl)) gantt.

Definition jobs (processes : list Process) : list (Z * Z) :=
  map (fun p => (ProcessID p, BurstDuration p)) processes.

Definition job_eq_dec (x y : Z * Z) : {x = y} + {x <> y} :=
  match Z.eq_dec (fst x) (fst y), Z.eq_dec (snd x) (snd y) with
  | left Hid, left Hlen =>
      left (eq_trans (surjective_pairing x)
              (eq_trans (f_equal2 pair Hid Hlen)
                 (eq_sym (surjective_pairing y))))
  | right Hid, _ => right (fun H => Hid (f_equal fst H))
  | _, right Hlen => right (fun H => Hlen (f_equal snd H))
  end.

(** The weight 1 for the job [(id, len)], 0 for any other. *)
Definition isJob (job : Z * Z) (id len : Z) : Z :=
  if (id =? fst job) && (len =? snd job) then 1 else 0.

(** The number of slices that a burst is cut into by the quantum. *)
Definition slicesOf (burst : Z) : Z :=
  (burst + (RR.quantum - 1)) / RR.quantum.

(** The slices that [p] asks for under the id [pid]; the weight 1 for an
    interval of the id [pid]. *)
Definition slicesFor (pid : Z) (p : Process) : Z :=
  if ProcessID p =? pid then slicesOf (BurstDuration p) else 0.

Definition sliceOn (pid : Z) (id len : Z) : Z :=
  if id =? pid then 1 else 0.

Module Slices.

(** The slices on the chart and those that are still to come. *)
Definition RR (input : list Process) (s : RR.State) : Prop :=
  forall pid,
    totalSlices (sliceOn pid) (RR.gantt s)
    + total (slicesFor pid) (RR.queue s ++ RR.processes s)
    = total (slicesFor pid) input.

End Slices.

(** * Properties *)

(** ** Machine integers *)

Lemma wrap_in_range (z : Z) : Int64.in_range z -> Int64.wrap z = z.
Proof.
  unfold Int64.in_range, Int64.min_int, Int64.max_int, Int64.wrap.
  intros H. rewrite Z.mod_small; lia.
Qed.

Lemma add_in_range (a b : Z) :
  Int64.in_range (a + b) -> Int64.add a b = a + b.
Proof. apply wrap_in_range. Qed.

Lemma sub_in_range (a b : Z) :
  Int64.in_range (a - b) -> Int64.sub a b = a - b.
Proof. apply wrap_in_range. Qed.

Lemma in_range_between (lo hi z : Z) :
  Int64.in_range lo -> Int64.in_range hi -> lo <= z <= hi ->
  Int64.in_range z.
Proof. unfold Int64.in_range. lia. Qed.

Lemma in_range_0 : Int64.in_range 0.
Proof. unfold Int64.in_range, Int64.min_int, Int64.max_int. lia. Qed.

(** Linear arithmetic that knows the bounds of the [int64] range. *)
Ltac int64_lia :=
  unfold small, horizon, Int64.in_range, Int64.min_int, Int64.max_int in *;
  lia.

(** Removes the wrap-around of the additions and subtractions whose result
    is seen to be in range. *)
Ltac unwrap :=
  repeat first
    [ rewrite add_in_range by int64_lia
    | rewrite sub_in_range by int64_lia ].

(** ** The stable sort *)

Section StableSortFacts.
Context {A : Type} (less : A -> A -> bool).

Lemma insertStable_Permutation (x : A) (l : list A) :
  Permutation (x :: l) (insertStable less x l).
Proof.
  induction l as [|y l IH]; simpl; [reflexivity|].
  destruct (less y x); [|reflexivity].
  rewrite perm_swap. now apply perm_skip.
Qed.

Lemma sortStable_Permutation (l : list A) :
  Permutation l (sortStable less l).
Proof.
  induction l as [|x l IH]; simpl; [reflexivity|].
  rewrite <- insertStable_Permutation. now apply perm_skip.
Qed.

Lemma sortStable_length (l : list A) :
  length (sortStable less l) = length l.
Proof. symmetry. apply Permutation_length, sortStable_Permutation. Qed.

Lemma sortStable_nil_inv (l : list A) : sortStable less l = [] -> l = [].
Proof.
  intros H. apply Permutation_nil. rewrite <- H.
  symmetry. apply sortStable_Permutation.
Qed.

(** A family of elements none of which is smaller than another keeps
    its order: this is stability. *)
Section Ties.
Variable tied : A -> bool.
Hypothesis tied_not_less :
  forall a b, tied a = true -> tied b = true -> less a b = false.

Lemma insertStable_filter (x : A) (l : list A) :
  List.filter tied (insertStable less x l) = List.filter tied (x :: l).
Proof.
  induction l as [|y l IH]; [reflexivity|].
  simpl insertStable. destruct (less y x) eqn:Hyx; [|reflexivity].
  simpl in *. rewrite IH.
  destruct (tied y) eqn:Hy, (tied x) eqn:Hx; try reflexivity.
  rewrite (tied_not_less y x Hy Hx) in Hyx. discriminate.
Qed.

Lemma sortStable_filter (l : list A) :
  List.filter tied (sortStable less l) = List.filter tied l.
Proof.
  induction l as [|x l IH]; [reflexivity|].
  simpl sortStable. rewrite insertStable_filter. simpl. now rewrite IH.
Qed.
End Ties.

Lemma insertStable_sorted_head (x : A) (l : list A) :
  Forall (notAfter less x) l -> insertStable less x l = x :: l.
Proof.
  destruct l as [|y l]; [reflexivity|].
  intros H. apply Forall_inv in H. simpl. now rewrite H.
Qed.

(** Sorting a slice that is in order already changes nothing. *)
Lemma sortStable_sorted_id (l : list A) :
  StronglySorted (notAfter less) l -> sortStable less l = l.
Proof.
  induction 1 as [|x l Hs IH Hx]; [reflexivity|].
  simpl. rewrite IH. now apply insertStable_sorted_head.
Qed.

Section Ordered.
Hypothesis less_asym : forall x y, less x y = true -> less y x = false.
Hypothesis notAfter_trans :
  forall x y z, notAfter less x y -> notAfter less y z -> notAfter less x z.

Lemma insertStable_sorted (x : A) (l : list A) :
  StronglySorted (notAfter less) l ->
  StronglySorted (notAfter less) (insertStable less x l).
Proof.
  induction 1 as [|y l Hs IH Hy]; simpl.
  - repeat constructor.
  - destruct (less y x) eqn:Hyx.
    + constructor; [exact IH|].
      rewrite <- insertStable_Permutation.
      constructor; [now apply less_asym | exact Hy].
    + constructor; [now constructor|].
      constructor; [exact Hyx|].
      eapply Forall_impl; [exact Hy|].
      intros z Hz. now apply (notAfter_trans x y z).
Qed.

Lemma sortStable_sorted (l : list A) :
  StronglySorted (notAfter less) (sortStable less l).
Proof.
  induction l as [|x l IH]; simpl; [constructor|].
  now apply insertStable_sorted.
Qed.
(** A sorted permutation of a list that keeps every family of tied
    elements in its order is the list itself, if that is sorted too:
    the outcome of a stable sort does not depend on the algorithm. *)
Lemma sorted_stable_unique (l1 l2 : list A) :
  (forall x, less x x = false) ->
  StronglySorted (notAfter less) l1 ->
  StronglySorted (notAfter less) l2 ->
  Permutation l1 l2 ->
  (forall x,
      List.filter (tiedWith less x) l1 = List.filter (tiedWith less x) l2) ->
  l1 = l2.
Proof.
  intros Hirr Hs1. revert l2.
  induction Hs1 as [|x t1 Hs1 IH Hx]; intros l2 Hs2 Hperm Htied.
  - symmetry. now apply Permutation_nil.
  - destruct Hs2 as [|y t2 Hs2 Hy].
    + symmetry in Hperm. now apply Permutation_nil in Hperm.
    + assert (Hxy : notAfter less x y).
      { assert (In y (x :: t1)) as [->|Hin]
          by (rewrite <- list_elem_of_In, Hperm; left).
        - apply Hirr.
        - exact (proj1 (List.Forall_forall _ _) Hx y Hin). }
      assert (Hyx : notAfter less y x).
      { assert (In x (y :: t2)) as [->|Hin]
          by (rewrite <- list_elem_of_In, <- Hperm; left).
        - apply Hirr.
        - exact (proj1 (List.Forall_forall _ _) Hy x Hin). }
      unfold notAfter in Hxy, Hyx.
      assert (x = y) as <-.
      { assert (Hxx : tiedWith less x x = true)
          by (unfold tiedWith; now rewrite Hirr).
        assert (Hty : tiedWith less x y = true)
          by (unfold tiedWith; now rewrite Hxy, Hyx).
        specialize (Htied x). simpl in Htied.
        rewrite Hxx, Hty in Htied. congruence. }
      f_equal. apply IH; [exact Hs2 | now apply Permutation_cons_inv in Hperm|].
      intros z. specialize (Htied z). simpl in Htied.
      destruct (tiedWith less z x); congruence.
Qed.

End Ordered.

(** [sortStable] is the one stable sort. *)
Lemma sortStable_unique (l l' : list A) :
  (forall x, less x x = false) ->
  (forall x y, less x y = true -> less y x = false) ->
  (forall x y z, notAfter less x y -> notAfter less y z -> notAfter less x z) ->
  Permutation l l' ->
  StronglySorted (notAfter less) l' ->
  (forall x,
      List.filter (tiedWith less x) l' = List.filter (tiedWith less x) l) ->
  l' = sortStable less l.
Proof.
  intros Hirr Hasym Htrans Hperm Hsorted Htied.
  apply sorted_stable_unique; auto.
  - now apply sortStable_sorted.
  - now rewrite <- Hperm, <- sortStable_Permutation.
  - intros x. rewrite Htied. symmetry. apply sortStable_filter.
    unfold tiedWith. intros a b Ha Hb.
    apply andb_prop in Ha as [Ha1 Ha2]. apply andb_prop in Hb as [Hb1 Hb2].
    apply negb_true_iff in Ha1, Ha2, Hb1, Hb2.
    exact (Htrans b x a Hb2 Ha1).
Qed.

End StableSortFacts.

(** ** Loops *)

Section WhileFacts.
Context {St : Type} (cond : St -> bool) (body : St -> St).

Lemma while_more_fuel (f f' : nat) (s s' : St) :
  while cond body f s = Some s' -> (f <= f')%nat ->
  while cond body f' s = Some s'.
Proof.
  revert f' s. induction f as [|f IH]; intros f' s H Hle.
  - destruct f'; simpl in *; destruct (cond s); congruence.
  - destruct f' as [|f']; [lia|]. simpl in *.
    destruct (cond s); [|exact H]. apply IH; [exact H | lia].
Qed.

Lemma while_deterministic (f f' : nat) (s s1 s2 : St) :
  while cond body f s = Some s1 -> while cond body f' s = Some s2 ->
  s1 = s2.
Proof.
  intros H1 H2.
  apply (while_more_fuel f (Nat.max f f')) in H1; [|lia].
  apply (while_more_fuel f' (Nat.max f f')) in H2; [|lia].
  congruence.
Qed.

Section Invariant.
Variable Inv : St -> Prop.
Hypothesis Inv_body : forall s, Inv s -> cond s = true -> Inv (body s).

(** Partial correctness: what the loop returns satisfies the invariant
    and the negation of the condition. *)
Lemma while_invariant (f : nat) (s s' : St) :
  Inv s -> while cond body f s = Some s' -> Inv s' /\ cond s' = false.
Proof.
  revert s. induction f as [|f IH]; intros s Hs H; simpl in H;
    destruct (cond s) eqn:Hc; try discriminate.
  - injection H as <-. auto.
  - apply (IH (body s)); auto.
  - injection H as <-. auto.
Qed.

(** Total correctness: a measure that goes down in every iteration
    bounds the fuel that is needed. *)
Variable measure : St -> nat.
Hypothesis measure_body :
  forall s, Inv s -> cond s = true -> (measure (body s) < measure s)%nat.

Lemma while_terminates (s : St) :
  Inv s -> exists s', while cond body (measure s) s = Some s'.
Proof.
  remember (measure s) as n eqn:Hn.
  assert (Hle : (measure s <= n)%nat) by lia. clear Hn.
  revert s Hle. induction n as [|n IH]; intros s Hle Hs; simpl;
    destruct (cond s) eqn:Hc; eauto.
  - pose proof (measure_body s Hs Hc). lia.
  - apply IH; [|auto]. pose proof (measure_body s Hs Hc). lia.
Qed.
End Invariant.
End WhileFacts.

Lemma Prio_returns_unique (ps : list Process) (r r' : Result) :
  Prio_returns ps r -> Prio_returns ps r' -> r = r'.
Proof.
  intros [f Hf] [f' Hf']. unfold SJFPrioritySchedule, Prio.loop in *.
  destruct (while _ _ f _) as [s|] eqn:Hs; [|discriminate].
  destruct (while _ _ f' _) as [s'|] eqn:Hs'; [|discriminate].
  pose proof (while_deterministic _ _ _ _ _ _ _ Hs Hs'). congruence.
Qed.

Lemma RR_returns_unique (ps : list Process) (r r' : Result) :
  RR_returns ps r -> RR_returns ps r' -> r = r'.
Proof.
  intros [f Hf] [f' Hf']. unfold RRSchedule, RR.loop in *.
  destruct (while _ _ f _) as [s|] eqn:Hs; [|discriminate].
  destruct (while _ _ f' _) as [s'|] eqn:Hs'; [|discriminate].
  pose proof (while_deterministic _ _ _ _ _ _ _ Hs Hs'). congruence.
Qed.

(** ** FCFSSchedule *)

(** The waiting time is only assigned under [ArrivalTime > 0]. *)
Lemma FCFS_step_wait_late (a : FCFS.Acc) (p : Process) :
  0 < ArrivalTime p ->
  FCFS.waitingTime (FCFS.step a p)
  = Int64.sub (FCFS.serviceTime a) (ArrivalTime p).
Proof.
  intros H. unfold FCFS.step. simpl.
  destruct (0 <? ArrivalTime p) eqn:E; [reflexivity|].
  apply Z.ltb_ge in E. lia.
Qed.

Lemma FCFS_step_wait_kept (a : FCFS.Acc) (p : Process) :
  ArrivalTime p <= 0 ->
  FCFS.waitingTime (FCFS.step a p) = FCFS.waitingTime a.
Proof.
  intros H. unfold FCFS.step. simpl.
  destruct (0 <? ArrivalTime p) eqn:E; [|reflexivity].
  apply Z.ltb_lt in E. lia.
Qed.

(** The service time is the sum of the bursts: the processor never idles
    in this scheduler. *)
Lemma FCFS_step_serviceTime (a : FCFS.Acc) (p : Process) :
  FCFS.serviceTime (FCFS.step a p)
  = Int64.add (FCFS.serviceTime a) (BurstDuration p).
Proof. reflexivity. Qed.

(** C1 (defect of the code). Two processes arrive at time 0 with bursts 5
    and 3. When the second one is served the service time is 5, so its
    wait is to be [max(0, 5 - 0) = 5] and its start 5; [FCFSSchedule]
    keeps the wait 0 of the first process, starts the second at 0 and
    draws it as [[0, 8)] over the first one. *)
Theorem FCFS_wait_stale_at_arrival_zero :
  let ps := [proc 1 0 5 0; proc 2 0 3 0] in
  let a1 := FCFS.step FCFS.init (proc 1 0 5 0) in
  let a2 := FCFS.step a1 (proc 2 0 3 0) in
  FCFS.serviceTime a1 = 5
  /\ Contract.fcfs_wait (FCFS.serviceTime a1) 0 = 5
  /\ Contract.fcfs_start (FCFS.serviceTime a1) 0 = 5
  /\ FCFS.waitingTime a2 = 0
  /\ FCFS.serviceTime a2 = 8
  /\ out_gantt (snd (FCFSSchedule ps))
     = [mkTimeSlice 1 0 5; mkTimeSlice 2 0 8]
  /\ out_rows (snd (FCFSSchedule ps))
     = [mkRow 1 0 5 0 0 5 5; mkRow 2 0 3 0 0 3 3].
Proof. vm_compute. repeat split; reflexivity. Qed.

(** C3 (defect of the code). A single process arriving at 3 with burst 2:
    [FCFSSchedule] reports the wait [0 - 3 = -3] and the turnaround
    [2 - 3 = -1], below zero and below the burst. *)
Theorem FCFS_negative_wait :
  let out := snd (FCFSSchedule [proc 1 3 2 0]) in
  validProcess (proc 1 3 2 0)
  /\ out_rows out = [mkRow 1 0 2 3 (-3) (-1) 2]
  /\ Forall (fun r => rWait r < 0 /\ rTurnaround r < rBurst r) (out_rows out).
Proof.
  split; [unfold validProcess; simpl; lia|].
  split; [reflexivity|].
  repeat constructor.
Qed.

(** C4 (defect of the code). Three processes arrive at 0 with bursts 2, 4
    and 1: [FCFSSchedule] draws the second over [[0, 6)] and the third over
    [[0, 7)], so their ids are busy for 6 and 7 units, not 4 and 1. *)
Theorem FCFS_busy_exceeds_burst :
  let ps := [proc 1 0 2 0; proc 2 0 4 0; proc 3 0 1 0] in
  let g := out_gantt (snd (FCFSSchedule ps)) in
  valid ps
  /\ g = [mkTimeSlice 1 0 2; mkTimeSlice 2 0 6; mkTimeSlice 3 0 7]
  /\ busy 1 g = 2 /\ busy 2 g = 6 /\ busy 3 g = 7
  /\ busy 2 g <> BurstDuration (proc 2 0 4 0).
Proof.
  split; [repeat constructor; simpl; lia|].
  vm_compute. repeat split; try reflexivity. discriminate.
Qed.

(** ** Inputs *)

Lemma StronglySorted_weaken {A : Type} (R R' : A -> A -> Prop) (l : list A) :
  (forall x y, R x y -> R' x y) ->
  StronglySorted R l -> StronglySorted R' l.
Proof.
  intros HR. induction 1 as [|x l Hs IH Hx]; constructor; [exact IH|].
  eapply Forall_impl; [exact Hx|]. intros y. apply HR.
Qed.

Lemma sumBurst_Permutation (l l' : list Process) :
  Permutation l l' -> sumBurst l = sumBurst l'.
Proof. induction 1; simpl; lia. Qed.

Lemma maxArrival_Permutation (l l' : list Process) :
  Permutation l l' -> maxArrival l = maxArrival l'.
Proof. induction 1; simpl; lia. Qed.

Lemma horizon_Permutation (l l' : list Process) :
  Permutation l l' -> horizon l = horizon l'.
Proof.
  intros H. unfold horizon.
  now rewrite (sumBurst_Permutation _ _ H), (maxArrival_Permutation _ _ H),
    (Permutation_length H).
Qed.

Lemma valid_Permutation (l l' : list Process) :
  Permutation l l' -> valid l -> valid l'.
Proof. unfold valid. intros H. now rewrite H. Qed.

Lemma maxArrival_nonneg (l : list Process) : 0 <= maxArrival l.
Proof. induction l; simpl; lia. Qed.

Lemma sumBurst_nonneg (l : list Process) : valid l -> 0 <= sumBurst l.
Proof.
  induction 1 as [|p l [Hb Ha] Hl IH]; simpl; lia.
Qed.

Lemma maxArrival_ge (l : list Process) (p : Process) :
  In p l -> ArrivalTime p <= maxArrival l.
Proof.
  induction l as [|q l IH]; simpl; [tauto|].
  intros [->|H]; [lia|]. specialize (IH H). lia.
Qed.

(** ** SJFSchedule *)

Lemma SJF_less_asym (p q : Process) :
  SJF.less p q = true -> SJF.less q p = false.
Proof. unfold SJF.less. lia. Qed.

Lemma SJF_notAfter_trans (p q r : Process) :
  notAfter SJF.less p q -> notAfter SJF.less q r -> notAfter SJF.less p r.
Proof. unfold notAfter, SJF.less. lia. Qed.

Lemma SJF_notAfter_le (p q : Process) :
  notAfter SJF.less p q <-> BurstDuration p <= BurstDuration q.
Proof. unfold notAfter, SJF.less. apply Z.ltb_ge. Qed.

(** One iteration, when no addition overflows: the processor idles up
    to the arrival and the process runs to completion. *)
Lemma SJF_step_small (a : SJF.Acc) (p : Process) :
  validProcess p ->
  0 <= SJF.currentTime a ->
  Z.max (SJF.currentTime a) (ArrivalTime p) + BurstDuration p
    <= Int64.max_int ->
  let start := Z.max (SJF.currentTime a) (ArrivalTime p) in
  let wait := start - ArrivalTime p in
  let completion := start + BurstDuration p in
  SJF.step a p
  = SJF.mkAcc completion (SJF.totalWait a + wait)
      (SJF.totalTurnaround a + (BurstDuration p + wait))
      (SJF.gantt a ++ [mkTimeSlice (ProcessID p) start completion])
      (SJF.schedule a ++
       [mkRow (ProcessID p) (Priority p) (BurstDuration p) (ArrivalTime p)
              wait (BurstDuration p + wait) completion]).
Proof.
  intros [Hb Ha] Hc Hmax. unfold SJF.step.
  rewrite sub_in_range by int64_lia.
  destruct (SJF.currentTime a - ArrivalTime p <? 0) eqn:E;
    [apply Z.ltb_lt in E | apply Z.ltb_ge in E]; cbv zeta.
  - rewrite Z.max_r in * by lia. unwrap.
    replace (ArrivalTime p - ArrivalTime p) with 0 by lia. reflexivity.
  - rewrite Z.max_l in * by lia. unwrap. reflexivity.
Qed.

Lemma SJF_loop_small (l : list Process) (a : SJF.Acc) :
  valid l ->
  0 <= SJF.currentTime a ->
  Z.max (SJF.currentTime a) (maxArrival l) + sumBurst l <= Int64.max_int ->
  SJF.gantt (SJF.loop l a)
  = SJF.gantt a ++ Contract.sjf_gantt (SJF.currentTime a) l
  /\ SJF.schedule (SJF.loop l a)
     = SJF.schedule a ++ Contract.sjf_rows (SJF.currentTime a) l.
Proof.
  revert a. induction l as [|p l IH]; intros a Hv Hc Hmax.
  - simpl. now rewrite !app_nil_r.
  - apply Forall_cons_1 in Hv as [Hp Hv].
    pose proof Hp as [Hb Ha].
    pose proof (sumBurst_nonneg l Hv) as Hs.
    pose proof (maxArrival_nonneg l) as Hm.
    simpl in Hmax. unfold SJF.loop in *. simpl fold_left.
    assert (Hstep := SJF_step_small a p Hp Hc ltac:(int64_lia)).
    cbv zeta in Hstep.
    destruct (IH (SJF.step a p)) as [Hg Hr].
    + exact Hv.
    + rewrite Hstep. simpl. lia.
    + rewrite Hstep. simpl. int64_lia.
    + rewrite Hg, Hr, Hstep. simpl. now rewrite <- !app_assoc.
Qed.

(** C5. [SJFSchedule] leaves the slice in the order of a stable sort by
    ascending burst: a permutation of the input, bursts ascending, and the
    processes of any given burst in their input order. On a valid input
    away from the end of the integer range, the chart and the table are
    those of a sequential run over that order, idling up to an arrival and
    running each process to completion. On P1(0,5), P2(1,3), P3(2,8) the
    intervals are [1,4)P2 [4,9)P1 [9,17)P3, the waits 0, 4, 7, the
    turnarounds 3, 9, 15 and the throughput 3/17. *)
Theorem SJF_static_stable_order :
  (forall ps,
      let sorted := fst (SJFSchedule ps) in
      Permutation ps sorted
      /\ StronglySorted
           (fun p q => BurstDuration p <= BurstDuration q) sorted
      /\ forall b,
          List.filter (fun p => BurstDuration p =? b) sorted
          = List.filter (fun p => BurstDuration p =? b) ps)
  /\ (forall ps,
         valid ps -> small ps ->
         let sorted := fst (SJFSchedule ps) in
         let out := snd (SJFSchedule ps) in
         out_gantt out = Contract.sjf_gantt 0 sorted
         /\ out_rows out = Contract.sjf_rows 0 sorted)
  /\ SJFSchedule scenario
     = ([P2; P1; P3],
        mkOutput
          [mkTimeSlice 2 1 4; mkTimeSlice 1 4 9; mkTimeSlice 3 9 17]
          [mkRow 2 0 3 1 0 3 4; mkRow 1 0 5 0 4 9 9; mkRow 3 0 8 2 7 15 17]
          (Real (11 # 3)) (Real (27 # 3)) (Real (3 # 17))).
Proof.
  split; [|split].
  - intros ps. simpl. split; [|split].
    + apply sortStable_Permutation.
    + eapply StronglySorted_weaken; [apply SJF_notAfter_le|].
      apply sortStable_sorted.
      * apply SJF_less_asym.
      * apply SJF_notAfter_trans.
    + intros b. apply sortStable_filter.
      intros p q Hp Hq. unfold SJF.less. lia.
  - intros ps Hv Hs. simpl.
    pose proof (sortStable_Permutation SJF.less ps) as Hperm.
    pose proof (maxArrival_nonneg ps) as Hm.
    unfold small, horizon in Hs.
    rewrite (sumBurst_Permutation _ _ Hperm),
      (maxArrival_Permutation _ _ Hperm) in *.
    destruct (SJF_loop_small (sortStable SJF.less ps) SJF.init) as [Hg Hr].
    + eapply valid_Permutation; eauto.
    + simpl. lia.
    + simpl. int64_lia.
    + split; [exact Hg | exact Hr].
  - reflexivity.
Qed.

Lemma SJF_static_stable_order_witness :
  valid scenario /\ small scenario
  /\ out_gantt (snd (SJFSchedule scenario))
     = Contract.sjf_gantt 0 (fst (SJFSchedule scenario))
  /\ out_rows (snd (SJFSchedule scenario))
     = Contract.sjf_rows 0 (fst (SJFSchedule scenario)).
Proof.
  assert (Hv : valid scenario) by (repeat constructor; simpl; lia).
  assert (Hs : small scenario) by (vm_compute; discriminate).
  split; [exact Hv|]. split; [exact Hs|].
  exact (proj1 (proj2 SJF_static_stable_order) scenario Hv Hs).
Defined.

(** ** Empty input *)

(** C9, as the claim has it, fails: on the empty input the three
    aggregates of [FCFSSchedule] are the outcome of dividing zero by zero,
    which is handed to [outputSchedule] as it is. *)
Lemma FCFS_empty_divides_by_zero :
  let out := snd (FCFSSchedule []) in
  out_gantt out = []
  /\ out_aveWait out = fdiv 0 0
  /\ out_aveTurnaround out = fdiv 0 0
  /\ out_aveThroughput out = fdiv 0 0
  /\ fdiv 0 0 = NaN.
Proof. repeat split. Qed.

(** C9, amended. On the empty input every scheduler returns, with an empty
    Gantt sequence and an empty table, and computes each aggregate as the
    floating point quotient 0/0, a NaN: there is no special case, and no
    failure either. *)
Theorem empty_input_aggregates_NaN :
  let nodata := mkOutput [] [] (fdiv 0 0) (fdiv 0 0) (fdiv 0 0) in
  fdiv 0 0 = NaN
  /\ FCFSSchedule [] = ([], nodata)
  /\ SJFSchedule [] = ([], nodata)
  /\ (forall fuel, SJFPrioritySchedule fuel [] = Some ([], nodata))
  /\ (forall fuel, RRSchedule fuel [] = Some ([], nodata)).
Proof.
  repeat split; intros fuel; destruct fuel; reflexivity.
Qed.

(** ** The scenario of the specification under round-robin *)

(** C6. With the quantum 4, [RRSchedule] on P1(0,5), P2(1,3), P3(2,8)
    returns the intervals [0,4)P1 [4,5)P1 [5,8)P2 [8,12)P3 [12,16)P3, the
    waits 0, 4, 6, the turnarounds 5, 7, 14, the averages 10/3 and 26/3,
    printed as 3.33 and 8.67, and the throughput 3/16. *)
Theorem RR_scenario_quantum_4 :
  RR.quantum = 4
  /\ RR_returns scenario
       (scenario,
        mkOutput
          [mkTimeSlice 1 0 4; mkTimeSlice 1 4 5; mkTimeSlice 2 5 8;
           mkTimeSlice 3 8 12; mkTimeSlice 3 12 16]
          [mkRow 1 0 5 0 0 5 5; mkRow 2 0 3 1 4 7 8; mkRow 3 0 8 2 6 14 16]
          (Real (10 # 3)) (Real (26 # 3)) (Real (3 # 16)))
  /\ round_2f (10 # 3) = 333
  /\ round_2f (26 # 3) = 867.
Proof.
  split; [reflexivity|]. split; [|split; reflexivity].
  exists 5%nat. vm_compute. reflexivity.
Qed.

(** ** RRSchedule: the loop *)

Lemma sumBurst_app (l l' : list Process) :
  sumBurst (l ++ l') = sumBurst l + sumBurst l'.
Proof. induction l; simpl; lia. Qed.

Lemma maxArrival_app (l l' : list Process) :
  maxArrival (l ++ l') = Z.max (maxArrival l) (maxArrival l').
Proof.
  induction l; simpl; [pose proof (maxArrival_nonneg l'); lia | lia].
Qed.

Lemma demand_app (pid : Z) (l l' : list Process) :
  demand pid (l ++ l') = demand pid l + demand pid l'.
Proof.
  induction l as [|p l IH]; simpl; [lia|].
  destruct (ProcessID p =? pid); lia.
Qed.

Lemma busy_app (pid : Z) (g g' : list TimeSlice) :
  busy pid (g ++ g') = busy pid g + busy pid g'.
Proof.
  induction g as [|sl g IH]; simpl; [lia|].
  destruct (PID sl =? pid); lia.
Qed.

Lemma valid_app (l l' : list Process) :
  valid (l ++ l') <-> valid l /\ valid l'.
Proof. apply Forall_app. Qed.

(** What the admission loop does: a prefix of the pending processes, all
    arrived, goes to the back of the queue, and the next pending process,
    if any, has not arrived. *)
Lemma RR_moveArrived_spec (clock : Z) (pending queue : list Process) :
  exists moved,
    pending = moved ++ fst (RR.moveArrived clock pending queue)
    /\ snd (RR.moveArrived clock pending queue) = queue ++ moved
    /\ Forall (fun p => ArrivalTime p <= clock) moved
    /\ match fst (RR.moveArrived clock pending queue) with
       | [] => True
       | p :: _ => clock < ArrivalTime p
       end.
Proof.
  revert queue. induction pending as [|p pending IH]; intros queue.
  - exists []. simpl. now rewrite app_nil_r.
  - simpl. destruct (ArrivalTime p <=? clock) eqn:E.
    + destruct (IH (queue ++ [p])) as (moved & H1 & H2 & H3 & H4).
      exists (p :: moved). repeat split.
      * simpl. now f_equal.
      * now rewrite H2, <- app_assoc.
      * constructor; [lia | exact H3].
      * exact H4.
    + exists []. simpl. rewrite app_nil_r. repeat split; [constructor | lia].
Qed.

Lemma RR_iter_inv (input : list Process) (m : gmap Z Process) (s : RR.State) :
  small input ->
  RRInv.Inv input s -> RR.unfinished s = true ->
  RRInv.Inv input (RR.iter m s)
  /\ (RRInv.measure (RR.iter m s) < RRInv.measure s)%nat.
Proof.
  intros Hsmall [Hc Hv Hb Hcomp Hcnt Hsl Hw] Hun.
  unfold small, horizon in Hsmall.
  unfold RR.iter, RRInv.measure.
  destruct (RR_moveArrived_spec (RR.clock s) (RR.processes s) (RR.queue s))
    as (moved & Hp & Hq & Hm & Hnext).
  destruct (RR.moveArrived _ _ _) as [pending queue]. simpl in Hp, Hq, Hnext.
  unfold RRInv.waiting in *.
  assert (Hsame : RR.queue s ++ RR.processes s = queue ++ pending).
  { rewrite Hp at 1. rewrite Hq. now rewrite app_assoc. }
  rewrite Hsame in *.
  assert (HM : maxArrival pending <= maxArrival (RR.processes s)).
  { rewrite Hp, maxArrival_app. lia. }
  pose proof (maxArrival_nonneg pending) as HM0.
  pose proof (sumBurst_nonneg _ Hv) as HW0.
  destruct queue as [|c queue].
  - destruct pending as [|p pending].
    + exfalso. unfold RR.unfinished in Hun.
      destruct moved; [|destruct (RR.queue s); discriminate].
      simpl in Hp. rewrite Hp in Hun. rewrite app_nil_r in Hq.
      rewrite <- Hq in Hun. discriminate.
    + simpl in *. split; [split|]; simpl; unwrap; try int64_lia; auto.
  - apply Forall_cons_1 in Hv as [[Hcb Hca] Hv].
    pose proof (sumBurst_nonneg _ Hv) as HW1.
    apply valid_app in Hv as [Hvq Hvp].
    simpl in Hb, Hcnt, HW0.
    rewrite sumBurst_app in *. rewrite length_app in Hcnt.
    unfold RR.quantum in *.
    destruct (4 <? BurstDuration c) eqn:E;
      [apply Z.ltb_lt in E | apply Z.ltb_ge in E].
    + split; [split|]; unfold RRInv.waiting; simpl;
        rewrite ?sumBurst_app, ?length_app; simpl; unwrap;
        try int64_lia; auto.
      * apply valid_app. split; [|exact Hvp].
        apply valid_app. split; [exact Hvq|].
        repeat constructor; simpl; lia.
      * apply Forall_app. split; [exact Hsl|].
        constructor; [|constructor].
        unfold duration, RR.quantum. simpl. lia.
      * intros pid. specialize (Hw pid). simpl in Hw.
        rewrite busy_app, !demand_app in *. simpl.
        destruct (ProcessID c =? pid); lia.
    + split; [split|]; unfold RRInv.waiting; simpl;
        rewrite ?sumBurst_app, ?length_app; simpl; unwrap;
        try int64_lia; auto.
      * apply valid_app. now split.
      * apply Forall_app. split; [exact Hsl|].
        constructor; [|constructor].
        unfold duration, RR.quantum. simpl. lia.
      * intros pid. specialize (Hw pid). simpl in Hw.
        rewrite busy_app, !demand_app in *. simpl.
        destruct (ProcessID c =? pid); lia.
Qed.

Lemma RR_init_inv (input : list Process) :
  valid input -> RRInv.Inv input (RR.init input).
Proof.
  intros Hv. pose proof (maxArrival_nonneg input).
  split; unfold RRInv.waiting; simpl; auto; try lia.
Qed.

(** The loop returns on a valid input that is small enough; the state it
    returns satisfies the invariant and has nothing left to serve. *)
Lemma RR_loop_total (input : list Process) (m : gmap Z Process) :
  valid input -> small input ->
  exists s,
    RR.loop (RRInv.measure (RR.init input)) m (RR.init input) = Some s
    /\ RRInv.Inv input s
    /\ RR.processes s = [] /\ RR.queue s = [].
Proof.
  intros Hv Hs.
  destruct (while_terminates RR.unfinished (RR.iter m) (RRInv.Inv input)
              (fun s H Hc => proj1 (RR_iter_inv input m s Hs H Hc))
              RRInv.measure
              (fun s H Hc => proj2 (RR_iter_inv input m s Hs H Hc))
              (RR.init input) (RR_init_inv input Hv)) as [s Hloop].
  exists s. split; [exact Hloop|].
  destruct (while_invariant RR.unfinished (RR.iter m) (RRInv.Inv input)
              (fun s H Hc => proj1 (RR_iter_inv input m s Hs H Hc))
              _ _ _ (RR_init_inv input Hv) Hloop) as [Hinv Hdone].
  split; [exact Hinv|].
  unfold RR.unfinished in Hdone.
  destruct (RR.processes s), (RR.queue s); try discriminate. auto.
Qed.

Lemma RR_sorted_valid (ps : list Process) :
  valid ps -> valid (sortStable RR.less ps).
Proof. apply valid_Permutation, sortStable_Permutation. Qed.

Lemma RR_sorted_small (ps : list Process) :
  small ps -> small (sortStable RR.less ps).
Proof.
  unfold small.
  now rewrite <- (horizon_Permutation _ _ (sortStable_Permutation RR.less ps)).
Qed.

(** [RRSchedule] returns on a valid input that is small enough, and its
    last state satisfies the invariant with respect to the sorted input. *)
Lemma RR_total (ps : list Process) :
  valid ps -> small ps ->
  let sorted := sortStable RR.less ps in
  let m := RR.originals sorted in
  exists s,
    RR_returns ps (sorted, RR.finish m s)
    /\ RRInv.Inv sorted s
    /\ RR.processes s = [] /\ RR.queue s = [].
Proof.
  intros Hv Hs sorted m.
  destruct (RR_loop_total sorted m (RR_sorted_valid ps Hv)
              (RR_sorted_small ps Hs)) as (s & Hloop & Hinv & Hp & Hq).
  exists s. split; [|auto].
  exists (RRInv.measure (RR.init sorted)). unfold RRSchedule.
  fold sorted. fold m. now rewrite Hloop.
Qed.

(** C7. On a valid input that is small enough [RRSchedule] returns, and
    no interval of its Gantt sequence is longer than the quantum of 4 time
    units; every interval has a positive length, which is below 4 only for
    a slice that completes its process. *)
Theorem RR_slices_within_quantum (ps : list Process) :
  valid ps -> small ps ->
  RR.quantum = 4
  /\ (exists r, RR_returns ps r)
  /\ forall r, RR_returns ps r ->
       Forall (fun sl => 0 < Stop sl - Start sl <= RR.quantum)
              (out_gantt (snd r)).
Proof.
  intros Hv Hs.
  destruct (RR_total ps Hv Hs) as (s & Hret & Hinv & _).
  split; [reflexivity|]. split; [eauto|].
  intros r Hr. rewrite (RR_returns_unique _ _ _ Hr Hret). simpl.
  apply (RRInv.inv_slices _ _ Hinv).
Qed.

Lemma RR_slices_within_quantum_witness :
  valid scenario /\ small scenario
  /\ forall r, RR_returns scenario r ->
       Forall (fun sl => 0 < Stop sl - Start sl <= RR.quantum)
              (out_gantt (snd r)).
Proof.
  assert (Hv : valid scenario) by (repeat constructor; simpl; lia).
  assert (Hs : small scenario) by (vm_compute; discriminate).
  split; [exact Hv|]. split; [exact Hs|].
  exact (proj2 (proj2 (RR_slices_within_quantum scenario Hv Hs))).
Defined.

(** ** SJFPrioritySchedule: the loop *)

(** Every iteration goes one of the five ways. *)
Lemma Prio_tick_step (ps : list Process) (s : Prio.State) :
  PrioInv.Step ps s (Prio.tick ps s).
Proof.
  unfold Prio.tick.
  set (q1 := Prio.queue s ++ Prio.arrivals ps (Prio.currentTime s)).
  destruct (sortStable Prio.less q1) as [|p rest] eqn:Hsort.
  - apply sortStable_nil_inv in Hsort as Hq1. rewrite Hq1. simpl.
    destruct (Prio.isRunning s) eqn:Hr; simpl.
    + destruct (Prio.remainingTime s =? 0) eqn:Hz; simpl.
      * apply Z.eqb_eq in Hz. now apply PrioInv.step_finish.
      * apply Z.eqb_neq in Hz. rewrite <- Hq1.
        now apply PrioInv.step_run.
    + now apply PrioInv.step_idle.
  - assert (Hlen : (length q1 =? 0)%nat = false).
    { destruct q1; [discriminate | reflexivity]. }
    rewrite Hlen. simpl.
    destruct (Prio.isRunning s) eqn:Hr; simpl.
    + destruct (Prio.remainingTime s =? 0) eqn:Hz; simpl.
      * apply Z.eqb_eq in Hz. now apply PrioInv.step_finish_start.
      * apply Z.eqb_neq in Hz. now apply PrioInv.step_run.
    + now apply PrioInv.step_start.
Qed.

Lemma total_app (w : Process -> Z) (l l' : list Process) :
  total w (l ++ l') = total w l + total w l'.
Proof. induction l; simpl; lia. Qed.

Lemma total_Permutation (w : Process -> Z) (l l' : list Process) :
  Permutation l l' -> total w l = total w l'.
Proof. induction 1; simpl; lia. Qed.

Lemma totalSlices_app (f : Z -> Z -> Z) (g g' : list TimeSlice) :
  totalSlices f (g ++ g') = totalSlices f g + totalSlices f g'.
Proof. induction g; simpl; lia. Qed.

Lemma total_one (l : list Process) :
  total (fun _ => 1) l = Z.of_nat (length l).
Proof. induction l; simpl length; simpl total; lia. Qed.

Lemma totalSlices_one (g : list TimeSlice) :
  totalSlices (fun _ _ => 1) g = Z.of_nat (length g).
Proof. induction g; simpl length; simpl totalSlices; lia. Qed.

Lemma total_cost_nonneg (l : list Process) :
  valid l -> 0 <= total PrioInv.cost l.
Proof.
  induction 1 as [|p l [Hb Ha] Hl IH]; simpl; unfold PrioInv.cost in *; lia.
Qed.

Lemma total_cost_pos (l : list Process) :
  valid l -> l <> [] -> 1 <= total PrioInv.cost l.
Proof.
  intros Hv Hne. destruct l as [|p l]; [congruence|].
  apply Forall_cons_1 in Hv as [[Hb Ha] Hv].
  pose proof (total_cost_nonneg l Hv).
  simpl. unfold PrioInv.cost at 1. lia.
Qed.

Lemma valid_members (ps l : list Process) :
  valid ps -> Forall (fun p => In p ps) l -> valid l.
Proof.
  intros Hv. unfold valid in *.
  induction 1 as [|p l Hp Hl IH]; constructor; [|exact IH].
  apply (proj1 (List.Forall_forall _ _) Hv p Hp).
Qed.

(** The pending processes at [t] are the arrivals of [t] and the pending
    processes at [t + 1]. *)
Lemma total_pending_split (w : Process -> Z) (ps : list Process) (t : Z) :
  total w (PrioInv.pending ps t)
  = total w (Prio.arrivals ps t) + total w (PrioInv.pending ps (t + 1)).
Proof.
  unfold PrioInv.pending, Prio.arrivals.
  induction ps as [|p ps IH]; simpl; [lia|].
  destruct (ArrivalTime p =? t) eqn:E1, (t <=? ArrivalTime p) eqn:E2,
    (t + 1 <=? ArrivalTime p) eqn:E3; simpl; lia.
Qed.

Lemma arrivals_spec (ps : list Process) (t : Z) (p : Process) :
  In p (Prio.arrivals ps t) <-> In p ps /\ ArrivalTime p = t.
Proof. unfold Prio.arrivals. rewrite filter_In. now rewrite Z.eqb_eq. Qed.

Lemma pending_spec (ps : list Process) (t : Z) (p : Process) :
  In p (PrioInv.pending ps t) <-> In p ps /\ t <= ArrivalTime p.
Proof. unfold PrioInv.pending. rewrite filter_In. now rewrite Z.leb_le. Qed.

Lemma pending_all (ps : list Process) :
  valid ps -> PrioInv.pending ps 0 = ps.
Proof.
  unfold PrioInv.pending.
  induction 1 as [|p l [Hb Ha] Hl IH]; simpl; [reflexivity|].
  destruct (0 <=? ArrivalTime p) eqn:E; [now rewrite IH | lia].
Qed.

Lemma total_cost_input (ps : list Process) :
  total PrioInv.cost ps = sumBurst ps + 2 * Z.of_nat (length ps).
Proof.
  induction ps; simpl length; simpl total; simpl sumBurst;
    unfold PrioInv.cost in *; lia.
Qed.

Lemma Prio_init_inv (ps : list Process) :
  valid ps -> PrioInv.Inv ps (Prio.init ps).
Proof.
  intros Hv. pose proof (maxArrival_nonneg ps).
  split; simpl; try (intros; discriminate); try constructor; try lia.
  - unfold PrioInv.potential. simpl.
    rewrite pending_all, total_cost_input by assumption.
    unfold horizon. lia.
  - intros f. unfold PrioInv.unserved. simpl.
    rewrite pending_all by assumption. lia.
Qed.

Lemma Prio_unserved_length (ps : list Process) (s : Prio.State) :
  PrioInv.Inv ps s ->
  (length ps = Prio.completedProcesses s + length (PrioInv.unserved ps s))%nat.
Proof.
  intros Hinv.
  pose proof (PrioInv.inv_ledger _ _ Hinv (fun _ _ => 1)) as H.
  change (PrioInv.weigh (fun _ _ => 1)) with (fun _ : Process => 1) in H.
  rewrite !total_one, totalSlices_one in H.
  rewrite (PrioInv.inv_completed _ _ Hinv). lia.
Qed.

Lemma Prio_potential_nonneg (ps : list Process) (s : Prio.State) :
  valid ps -> PrioInv.Inv ps s -> 0 <= PrioInv.potential ps s.
Proof.
  intros Hv Hinv. unfold PrioInv.potential.
  pose proof (PrioInv.inv_members _ _ Hinv) as Hmem.
  apply Forall_app in Hmem as [_ Hq].
  pose proof (total_cost_nonneg _ (valid_members _ _ Hv Hq)).
  assert (valid (PrioInv.pending ps (Prio.currentTime s))) as Hp.
  { apply (valid_members ps); [exact Hv|].
    apply List.Forall_forall. intros p Hp. now apply pending_spec in Hp. }
  pose proof (total_cost_nonneg _ Hp).
  pose proof (PrioInv.inv_remaining _ _ Hinv).
  destruct (Prio.isRunning s); lia.
Qed.

Lemma Prio_potential_pos (ps : list Process) (s : Prio.State) :
  valid ps -> PrioInv.Inv ps s -> Prio.unfinished ps s = true ->
  1 <= PrioInv.potential ps s.
Proof.
  intros Hv Hinv Hun.
  pose proof (Prio_unserved_length ps s Hinv) as Hlen.
  unfold Prio.unfinished in Hun. apply Nat.ltb_lt in Hun.
  unfold PrioInv.potential.
  pose proof (PrioInv.inv_members _ _ Hinv) as Hmem.
  apply Forall_app in Hmem as [_ Hq].
  pose proof (valid_members _ _ Hv Hq) as Hvq.
  assert (valid (PrioInv.pending ps (Prio.currentTime s))) as Hp.
  { apply (valid_members ps); [exact Hv|].
    apply List.Forall_forall. intros p Hp. now apply pending_spec in Hp. }
  pose proof (total_cost_nonneg _ Hvq).
  pose proof (total_cost_nonneg _ Hp).
  pose proof (PrioInv.inv_remaining _ _ Hinv) as Hrem.
  unfold PrioInv.unserved, PrioInv.running in Hlen.
  destruct (Prio.isRunning s); [lia|].
  simpl in Hlen. rewrite length_app in Hlen.
  destruct (Prio.queue s) as [|q qs] eqn:Eq.
  - pose proof (total_cost_pos _ Hp) as Hpos.
    destruct (PrioInv.pending ps (Prio.currentTime s)); simpl in Hlen;
      [lia|]. specialize (Hpos ltac:(discriminate)). lia.
  - pose proof (total_cost_pos _ Hvq ltac:(discriminate)). lia.
Qed.

Lemma Prio_step_inv (ps : list Process) (s s' : Prio.State) :
  valid ps -> small ps ->
  PrioInv.Inv ps s -> Prio.unfinished ps s = true ->
  PrioInv.Step ps s s' ->
  PrioInv.Inv ps s' /\ PrioInv.potential ps s' + 1 <= PrioInv.potential ps s.
Proof.
  intros Hv Hsmall Hinv Hun Hstep.
  pose proof (Prio_potential_pos ps s Hv Hinv Hun) as Hpos.
  pose proof (Prio_unserved_length ps s Hinv) as Hlen.
  unfold Prio.unfinished in Hun. apply Nat.ltb_lt in Hun.
  destruct Hinv as [Ht Hmem Hrem Hsta Hque Hpot Hcomp Hled Hsl Hpast].
  unfold PrioInv.potential, PrioInv.unserved, PrioInv.running in *.
  destruct s as [t done isRunning cur rem queue gantt originals].
  simpl in *.
  assert (Hpast1 : Forall (fun sl => Stop sl <= t + 1) gantt).
  { eapply Forall_impl; [exact Hpast|]. simpl. intros; lia. }
  assert (Hadd : Int64.add t 1 = t + 1) by (apply add_in_range; int64_lia).
  apply Forall_app in Hmem as [Hrun Hq].
  assert (Hq1mem : Forall (fun p => In p ps) (queue ++ Prio.arrivals ps t)).
  { apply Forall_app. split; [exact Hq|].
    apply List.Forall_forall. intros p Hp. now apply arrivals_spec in Hp. }
  assert (Hq1arr : Forall (fun p => ArrivalTime p < t + 1)
                     (queue ++ Prio.arrivals ps t)).
  { apply Forall_app. split.
    - eapply Forall_impl; [exact Hque|]. simpl. intros; lia.
    - apply List.Forall_forall. intros p Hp. apply arrivals_spec in Hp. lia. }
  pose proof (fun w => total_app w queue (Prio.arrivals ps t)) as Hq1tot.
  pose proof (fun w => total_pending_split w ps t) as Hsplit.
  pose proof (maxArrival_nonneg ps) as HM.
  pose proof (total_cost_nonneg _ (valid_members _ _ Hv Hq)) as Hcq.
  assert (Hcur : isRunning = true -> validProcess cur).
  { intros ->. apply Forall_inv in Hrun.
    apply (proj1 (List.Forall_forall _ _) Hv cur Hrun). }
  assert (Hcp : forall u, 0 <= total PrioInv.cost (PrioInv.pending ps u)).
  { intros u. apply total_cost_nonneg, (valid_members ps); [exact Hv|].
    apply List.Forall_forall. intros p Hp. now apply pending_spec in Hp. }
  pose proof (Hcp t) as Hcp0. pose proof (Hcp (t + 1)) as Hcp1.
  destruct Hstep as [Hr Hq1 | p rest Hr Hsort | Hr Hnz | Hr Hz Hq1
                    | p rest Hr Hz Hsort];
    simpl in *; rewrite Hadd; rewrite Hr in *.
  - (* idle *)
    assert (Hlater : t + 1 <= maxArrival ps).
    { apply app_eq_nil in Hq1 as [Hq0 Ha0]. rewrite Hq0 in Hlen.
      simpl in Hlen.
      destruct (PrioInv.pending ps t) as [|p l] eqn:Hpend;
        [simpl in Hlen; lia|].
      assert (Hp : In p (PrioInv.pending ps t)) by (rewrite Hpend; now left).
      apply pending_spec in Hp as [Hin Hge].
      pose proof (maxArrival_ge ps p Hin).
      assert (ArrivalTime p <> t).
      { intros Heq. assert (In p (Prio.arrivals ps t))
          by (now apply arrivals_spec).
        rewrite Ha0 in *. contradiction. }
      lia. }
    rewrite Hq1 in Hq1tot. simpl in Hq1tot.
    pose proof (Hq1tot PrioInv.cost) as Hc.
    pose proof (Hsplit PrioInv.cost) as Hs.
    split; [split|];
      unfold PrioInv.potential, PrioInv.unserved, PrioInv.running; simpl;
      auto; try (intros; discriminate); try lia.
    intros f. rewrite (Hled f), !total_app. simpl.
    specialize (Hq1tot (PrioInv.weigh f)).
    specialize (Hsplit (PrioInv.weigh f)). lia.
  - (* start *)
    pose proof (sortStable_Permutation Prio.less
                  (queue ++ Prio.arrivals ps t)) as Hperm.
    rewrite Hsort in Hperm.
    pose proof (fun w => total_Permutation w _ _ Hperm) as Htp.
    simpl in Htp. rewrite Hperm in Hq1mem, Hq1arr.
    apply Forall_cons_1 in Hq1mem as [Hpin Hrestmem].
    apply Forall_cons_1 in Hq1arr as [Hparr Hrestarr].
    pose proof (proj1 (List.Forall_forall _ _) Hv p Hpin) as [Hpb Hpa].
    pose proof (Htp PrioInv.cost) as Hc1.
    pose proof (Hq1tot PrioInv.cost) as Hc.
    pose proof (Hsplit PrioInv.cost) as Hs.
    assert (Hcost : PrioInv.cost p = BurstDuration p + 2) by reflexivity.
    split; [split|];
      unfold PrioInv.potential, PrioInv.unserved, PrioInv.running; simpl;
      auto; try (intros; discriminate); try lia.
    intros f. rewrite (Hled f), !total_app. simpl.
    specialize (Hq1tot (PrioInv.weigh f)).
    specialize (Hsplit (PrioInv.weigh f)).
    specialize (Htp (PrioInv.weigh f)). lia.
  - (* run *)
    specialize (Hrem eq_refl). specialize (Hsta eq_refl).
    pose proof (Hq1tot PrioInv.cost) as Hc.
    pose proof (Hsplit PrioInv.cost) as Hs.
    rewrite sub_in_range by int64_lia.
    split; [split|];
      unfold PrioInv.potential, PrioInv.unserved, PrioInv.running; simpl;
      auto; try (intros; discriminate); try lia.
    + constructor; [now apply Forall_inv in Hrun | exact Hq1mem].
    + intros f. rewrite (Hled f), !total_app. simpl.
      specialize (Hq1tot (PrioInv.weigh f)).
      specialize (Hsplit (PrioInv.weigh f)). lia.
  - (* finish *)
    specialize (Hrem eq_refl). specialize (Hsta eq_refl).
    destruct (Hcur eq_refl) as [Hcb Hca].
    apply Forall_inv in Hrun.
    rewrite Hq1 in Hq1tot. simpl in Hq1tot.
    pose proof (Hq1tot PrioInv.cost) as Hc.
    pose proof (Hsplit PrioInv.cost) as Hs.
    rewrite sub_in_range by int64_lia.
    split; [split|];
      unfold PrioInv.potential, PrioInv.unserved, PrioInv.running; simpl;
      auto; try (intros; discriminate); try lia.
    + rewrite length_app. simpl. lia.
    + intros f. rewrite (Hled f), totalSlices_app, !total_app. simpl.
      replace (t - (t - BurstDuration cur)) with (BurstDuration cur) by lia.
      specialize (Hq1tot (PrioInv.weigh f)).
      specialize (Hsplit (PrioInv.weigh f)).
      change (PrioInv.weigh f cur)
        with (f (ProcessID cur) (BurstDuration cur)). lia.
    + apply Forall_app. split; [exact Hsl|].
      constructor; [|constructor]. exists cur. simpl.
      repeat split; auto; lia.
    + apply Forall_app. split; [exact Hpast1|].
      constructor; [|constructor]. simpl. lia.
  - (* finish and start *)
    specialize (Hrem eq_refl). specialize (Hsta eq_refl).
    destruct (Hcur eq_refl) as [Hcb Hca].
    apply Forall_inv in Hrun.
    pose proof (sortStable_Permutation Prio.less
                  (queue ++ Prio.arrivals ps t)) as Hperm.
    rewrite Hsort in Hperm.
    pose proof (fun w => total_Permutation w _ _ Hperm) as Htp.
    simpl in Htp. rewrite Hperm in Hq1mem, Hq1arr.
    apply Forall_cons_1 in Hq1mem as [Hpin Hrestmem].
    apply Forall_cons_1 in Hq1arr as [Hparr Hrestarr].
    pose proof (proj1 (List.Forall_forall _ _) Hv p Hpin) as [Hpb Hpa].
    pose proof (Htp PrioInv.cost) as Hc1.
    pose proof (Hq1tot PrioInv.cost) as Hc.
    pose proof (Hsplit PrioInv.cost) as Hs.
    assert (Hcost : PrioInv.cost p = BurstDuration p + 2) by reflexivity.
    rewrite sub_in_range by int64_lia.
    split; [split|];
      unfold PrioInv.potential, PrioInv.unserved, PrioInv.running; simpl;
      auto; try (intros; discriminate); try lia.
    + rewrite length_app. simpl. lia.
    + intros f. rewrite (Hled f), totalSlices_app, !total_app. simpl.
      replace (t - (t - BurstDuration cur)) with (BurstDuration cur) by lia.
      specialize (Hq1tot (PrioInv.weigh f)).
      specialize (Hsplit (PrioInv.weigh f)).
      specialize (Htp (PrioInv.weigh f)).
      change (PrioInv.weigh f cur)
        with (f (ProcessID cur) (BurstDuration cur)). lia.
    + apply Forall_app. split; [exact Hsl|].
      constructor; [|constructor]. exists cur. simpl.
      repeat split; auto; lia.
    + apply Forall_app. split; [exact Hpast1|].
      constructor; [|constructor]. simpl. lia.
Qed.

Lemma Prio_tick_inv (ps : list Process) (s : Prio.State) :
  valid ps -> small ps ->
  PrioInv.Inv ps s -> Prio.unfinished ps s = true ->
  PrioInv.Inv ps (Prio.tick ps s)
  /\ (PrioInv.measure ps (Prio.tick ps s) < PrioInv.measure ps s)%nat.
Proof.
  intros Hv Hs Hinv Hun.
  destruct (Prio_step_inv ps s _ Hv Hs Hinv Hun (Prio_tick_step ps s))
    as [Hinv' Hdec].
  split; [exact Hinv'|].
  pose proof (Prio_potential_nonneg ps _ Hv Hinv').
  unfold PrioInv.measure. lia.
Qed.

(** The loop returns on a valid input that is small enough, with every
    process completed and the invariant in force. *)
Lemma Prio_loop_total (ps : list Process) :
  valid ps -> small ps ->
  exists s,
    Prio.loop (PrioInv.measure ps (Prio.init ps)) ps (Prio.init ps) = Some s
    /\ PrioInv.Inv ps s
    /\ PrioInv.unserved ps s = [].
Proof.
  intros Hv Hs.
  destruct (while_terminates (Prio.unfinished ps) (Prio.tick ps)
              (PrioInv.Inv ps)
              (fun s H Hc => proj1 (Prio_tick_inv ps s Hv Hs H Hc))
              (PrioInv.measure ps)
              (fun s H Hc => proj2 (Prio_tick_inv ps s Hv Hs H Hc))
              (Prio.init ps) (Prio_init_inv ps Hv)) as [s Hloop].
  exists s. split; [exact Hloop|].
  destruct (while_invariant (Prio.unfinished ps) (Prio.tick ps)
              (PrioInv.Inv ps)
              (fun s H Hc => proj1 (Prio_tick_inv ps s Hv Hs H Hc))
              _ _ _ (Prio_init_inv ps Hv) Hloop) as [Hinv Hdone].
  split; [exact Hinv|].
  pose proof (Prio_unserved_length ps s Hinv) as Hlen.
  unfold Prio.unfinished in Hdone. apply Nat.ltb_ge in Hdone.
  destruct (PrioInv.unserved ps s); [reflexivity | simpl in Hlen; lia].
Qed.

Lemma Prio_total (ps : list Process) :
  valid ps -> small ps ->
  exists s,
    Prio_returns ps (ps, Prio.finish ps s)
    /\ PrioInv.Inv ps s
    /\ PrioInv.unserved ps s = [].
Proof.
  intros Hv Hs.
  destruct (Prio_loop_total ps Hv Hs) as (s & Hloop & Hinv & Hdone).
  exists s. split; [|auto].
  exists (PrioInv.measure ps (Prio.init ps)).
  unfold SJFPrioritySchedule. now rewrite Hloop.
Qed.

(** ** SJFPrioritySchedule: the table *)

Lemma sameInput_refl (p : Process) : PrioInv.sameInput p p.
Proof. now destruct p. Qed.

Lemma sameInput_withExit (op p : Process) (t : Z) :
  PrioInv.sameInput op p -> PrioInv.sameInput (Prio.withExit op t) p.
Proof. unfold PrioInv.sameInput. intros ->. reflexivity. Qed.

Lemma sameInput_id (op p : Process) :
  PrioInv.sameInput op p -> ProcessID op = ProcessID p.
Proof. unfold PrioInv.sameInput. now intros ->. Qed.

Lemma traced_more (g g' : list TimeSlice) (op p : Process) :
  PrioInv.traced g op p -> PrioInv.traced (g ++ g') op p.
Proof.
  intros [Hsame [He | (sl & Hin & Hid & Hstop)]]; split; auto.
  right. exists sl. rewrite in_app_iff. auto.
Qed.

(** Recording an exit keeps every entry tied to its input process. *)
Lemma setExit_traced (g : list TimeSlice) (ops ps : list Process)
      (id t a : Z) :
  Forall2 (PrioInv.traced g) ops ps ->
  Forall2 (PrioInv.traced (g ++ [mkTimeSlice id a t]))
          (Prio.setExit id t ops) ps.
Proof.
  induction 1 as [|op p ops ps Hop Hrest IH]; simpl; [constructor|].
  destruct (ProcessID op =? id) eqn:E.
  - apply Z.eqb_eq in E. constructor.
    + destruct Hop as [Hsame _]. split.
      * now apply sameInput_withExit.
      * right. exists (mkTimeSlice id a t). rewrite in_app_iff. simpl.
        rewrite <- (sameInput_id _ _ Hsame). auto.
    + eapply Forall2_impl; [exact Hrest|]. intros. now apply traced_more.
  - constructor; [now apply traced_more | exact IH].
Qed.

Lemma Prio_step_traced (ps : list Process) (s s' : Prio.State) :
  PrioInv.Step ps s s' ->
  Forall2 (PrioInv.traced (Prio.gantt s)) (Prio.originalProcesses s) ps ->
  Forall2 (PrioInv.traced (Prio.gantt s')) (Prio.originalProcesses s') ps.
Proof.
  intros Hstep H. destruct Hstep; simpl; auto using setExit_traced.
Qed.

Lemma traced_init (ps : list Process) : Forall2 (PrioInv.traced []) ps ps.
Proof.
  induction ps; constructor; auto.
  split; [apply sameInput_refl | now left].
Qed.

(** Whatever the input, the entries of [originalProcesses] that the loop
    returns are those of the input, in its order. *)
Lemma Prio_loop_traced (fuel : nat) (ps : list Process) (s : Prio.State) :
  Prio.loop fuel ps (Prio.init ps) = Some s ->
  Forall2 (PrioInv.traced (Prio.gantt s)) (Prio.originalProcesses s) ps.
Proof.
  intros Hloop. pose proof (traced_init ps) as Hinit.
  apply (while_invariant (Prio.unfinished ps) (Prio.tick ps)
           (fun s => Forall2 (PrioInv.traced (Prio.gantt s))
                             (Prio.originalProcesses s) ps)
           (fun s H _ => Prio_step_traced ps s _ (Prio_tick_step ps s) H)
           fuel (Prio.init ps) s Hinit Hloop).
Qed.




(** ** The three orders are strict weak orders *)

(** Each [less] that the source hands to [sort.SliceStable] is irreflexive
    and asymmetric, and what it does not place after is transitive: the
    stable sort of the slice is determined, whatever algorithm the library
    runs ([sortStable_unique]). *)
Lemma SJF_less_irrefl (p : Process) : SJF.less p p = false.
Proof. unfold SJF.less. lia. Qed.

Lemma RR_less_irrefl (p : Process) : RR.less p p = false.
Proof. unfold RR.less. lia. Qed.

Lemma RR_notAfter_trans (p q r : Process) :
  notAfter RR.less p q -> notAfter RR.less q r -> notAfter RR.less p r.
Proof. unfold notAfter, RR.less. lia. Qed.

Lemma Prio_less_spec (p q : Process) :
  Prio.less p q = true
  <-> BurstDuration p < BurstDuration q
      \/ (BurstDuration p = BurstDuration q /\ Priority p < Priority q).
Proof.
  unfold Prio.less.
  destruct (BurstDuration p =? BurstDuration q) eqn:E;
    [apply Z.eqb_eq in E | apply Z.eqb_neq in E];
    rewrite Z.ltb_lt; lia.
Qed.

Lemma Prio_notAfter_spec (p q : Process) :
  notAfter Prio.less p q
  <-> BurstDuration p < BurstDuration q
      \/ (BurstDuration p = BurstDuration q /\ Priority p <= Priority q).
Proof.
  unfold notAfter. rewrite <- not_true_iff_false, Prio_less_spec. lia.
Qed.

Lemma Prio_less_irrefl (p : Process) : Prio.less p p = false.
Proof. apply not_true_iff_false. rewrite Prio_less_spec. lia. Qed.

Lemma Prio_less_asym (p q : Process) :
  Prio.less p q = true -> Prio.less q p = false.
Proof.
  rewrite <- not_true_iff_false, !Prio_less_spec. lia.
Qed.

Lemma Prio_notAfter_trans (p q r : Process) :
  notAfter Prio.less p q -> notAfter Prio.less q r -> notAfter Prio.less p r.
Proof. rewrite !Prio_notAfter_spec. lia. Qed.

(** The process that is started is one that no queued process beats on
    burst, nor on priority at equal burst. *)
Lemma Prio_head_is_shortest (q : list Process) (p : Process)
      (rest : list Process) :
  sortStable Prio.less q = p :: rest ->
  forall r, In r q ->
    BurstDuration p < BurstDuration r
    \/ (BurstDuration p = BurstDuration r /\ Priority p <= Priority r).
Proof.
  intros Hsort r Hin.
  pose proof (sortStable_sorted Prio.less Prio_less_asym Prio_notAfter_trans q)
    as Hsorted.
  rewrite Hsort in Hsorted. apply StronglySorted_inv in Hsorted as [_ Hp].
  assert (In r (p :: rest)) as [<-|Hr].
  { rewrite <- Hsort, <- list_elem_of_In, <- sortStable_Permutation.
    now apply list_elem_of_In. }
  - lia.
  - apply Prio_notAfter_spec.
    exact (proj1 (List.Forall_forall _ _) Hp r Hr).
Qed.

(** ** The slice of the caller *)

Lemma RR_less_asym (p q : Process) :
  RR.less p q = true -> RR.less q p = false.
Proof. unfold RR.less. lia. Qed.

Lemma RR_notAfter_le (p q : Process) :
  notAfter RR.less p q <-> ArrivalTime p <= ArrivalTime q.
Proof. unfold notAfter, RR.less. apply Z.ltb_ge. Qed.

Lemma Prio_returns_input (ps : list Process) (r : Result) :
  Prio_returns ps r -> fst r = ps.
Proof.
  intros [fuel H]. unfold SJFPrioritySchedule in H.
  destruct (Prio.loop fuel ps (Prio.init ps)); [|discriminate].
  now injection H as <-.
Qed.

Lemma RR_returns_sorted (ps : list Process) (r : Result) :
  RR_returns ps r -> fst r = sortStable RR.less ps.
Proof.
  intros [fuel H]. unfold RRSchedule in H.
  destruct (RR.loop fuel _ _); [|discriminate].
  now injection H as <-.
Qed.

(** C8, as the claim has it, fails: [SJFSchedule] sorts the slice it is
    given, so the caller finds P2, P1, P3 where it had put P1, P2, P3. *)
Lemma SJF_reorders_caller_slice :
  fst (SJFSchedule scenario) = [P2; P1; P3]
  /\ fst (SJFSchedule scenario) <> scenario.
Proof. split; [reflexivity | discriminate]. Qed.

(** C8, amended. [FCFSSchedule] and [SJFPrioritySchedule] leave the
    caller's sequence as it was. [SJFSchedule] and [RRSchedule] sort it in
    place, stably, by ascending burst and by ascending arrival: afterwards
    it holds the same records, none of them modified, in the sorted order,
    which is the order of the input when the input was sorted already. On a
    valid input that is small enough the two calls with a loop return. *)
Theorem schedulers_effect_on_caller_slice (ps : list Process) :
  fst (FCFSSchedule ps) = ps
  /\ (forall r, Prio_returns ps r -> fst r = ps)
  /\ (fst (SJFSchedule ps) = sortStable SJF.less ps
      /\ Permutation ps (fst (SJFSchedule ps))
      /\ (StronglySorted (fun p q => BurstDuration p <= BurstDuration q) ps ->
          fst (SJFSchedule ps) = ps))
  /\ (forall r, RR_returns ps r ->
        fst r = sortStable RR.less ps
        /\ Permutation ps (fst r)
        /\ (StronglySorted (fun p q => ArrivalTime p <= ArrivalTime q) ps ->
            fst r = ps))
  /\ (valid ps -> small ps ->
      (exists r, Prio_returns ps r) /\ (exists r, RR_returns ps r)).
Proof.
  split; [reflexivity|]. split; [apply Prio_returns_input|].
  split; [|split].
  - split; [reflexivity|]. split; [apply sortStable_Permutation|].
    intros Hsorted. simpl. apply sortStable_sorted_id.
    eapply StronglySorted_weaken; [|exact Hsorted].
    intros p q. apply SJF_notAfter_le.
  - intros r Hr. rewrite (RR_returns_sorted ps r Hr).
    split; [reflexivity|]. split; [apply sortStable_Permutation|].
    intros Hsorted. apply sortStable_sorted_id.
    eapply StronglySorted_weaken; [|exact Hsorted].
    intros p q. apply RR_notAfter_le.
  - intros Hv Hs. split.
    + destruct (Prio_total ps Hv Hs) as (s & Hret & _). eauto.
    + destruct (RR_total ps Hv Hs) as (s & Hret & _). eauto.
Qed.

Lemma schedulers_effect_on_caller_slice_witness :
  valid scenario /\ small scenario
  /\ StronglySorted (fun p q => ArrivalTime p <= ArrivalTime q) scenario
  /\ exists r, RR_returns scenario r /\ fst r = scenario.
Proof.
  assert (Hv : valid scenario) by (repeat constructor; simpl; lia).
  assert (Hs : small scenario) by (vm_compute; discriminate).
  assert (Ho : StronglySorted (fun p q => ArrivalTime p <= ArrivalTime q)
                              scenario)
    by (repeat constructor; simpl; lia).
  split; [exact Hv|]. split; [exact Hs|]. split; [exact Ho|].
  destruct (schedulers_effect_on_caller_slice scenario)
    as (_ & _ & _ & Hrr & Hret).
  destruct (proj2 (Hret Hv Hs)) as [r Hr].
  exists r. split; [exact Hr|].
  exact (proj2 (proj2 (Hrr r Hr)) Ho).
Defined.

(** ** Work conservation and waiting times outside [FCFSSchedule] *)

Lemma demand_Permutation (pid : Z) (l l' : list Process) :
  Permutation l l' -> demand pid l = demand pid l'.
Proof.
  induction 1 as [|p l l' _ IH|p q l|l l' l'' _ IH1 _ IH2]; simpl;
    try lia.
  - destruct (ProcessID p =? pid); lia.
  - destruct (ProcessID p =? pid), (ProcessID q =? pid); lia.
Qed.

Lemma demand_absent (pid : Z) (l : list Process) :
  ~ In pid (map ProcessID l) -> demand pid l = 0.
Proof.
  induction l as [|p l IH]; simpl; [reflexivity|].
  intros Hnot. destruct (ProcessID p =? pid) eqn:E.
  - apply Z.eqb_eq in E. tauto.
  - apply IH. tauto.
Qed.

(** With unique ids, what an id asks for is the burst of its process. *)
Lemma demand_unique (ps : list Process) (p : Process) :
  uniqueIDs ps -> In p ps -> demand (ProcessID p) ps = BurstDuration p.
Proof.
  unfold uniqueIDs. induction ps as [|q ps IH]; simpl; [tauto|].
  intros Hnd Hin. apply NoDup_cons in Hnd as [Hq Hnd].
  rewrite list_elem_of_In in Hq.
  destruct Hin as [->|Hin].
  - rewrite Z.eqb_refl, demand_absent by exact Hq. lia.
  - destruct (ProcessID q =? ProcessID p) eqn:E.
    + apply Z.eqb_eq in E. exfalso. apply Hq. rewrite E.
      now apply in_map.
    + now apply IH.
Qed.

Lemma SJF_contract_busy (pid t : Z) (l : list Process) :
  busy pid (Contract.sjf_gantt t l) = demand pid l.
Proof.
  revert t. induction l as [|p l IH]; intros t; simpl; [reflexivity|].
  rewrite IH. destruct (ProcessID p =? pid); lia.
Qed.

Lemma SJF_contract_rows (t : Z) (l : list Process) :
  Forall (fun r => 0 <= rWait r /\ rBurst r <= rTurnaround r)
         (Contract.sjf_rows t l).
Proof.
  revert t. induction l as [|p l IH]; intros t; simpl; constructor;
    [simpl; lia | apply IH].
Qed.

(** [SJFSchedule] keeps both invariants of the specification. *)
Lemma SJF_wait_and_work (ps : list Process) :
  valid ps -> small ps ->
  Forall (fun r => 0 <= rWait r /\ rBurst r <= rTurnaround r)
         (out_rows (snd (SJFSchedule ps)))
  /\ forall pid, busy pid (out_gantt (snd (SJFSchedule ps))) = demand pid ps.
Proof.
  intros Hv Hs. simpl.
  pose proof (sortStable_Permutation SJF.less ps) as Hperm.
  pose proof (maxArrival_nonneg ps) as Hm.
  assert (Hsmall := Hs). unfold small, horizon in Hsmall.
  rewrite (sumBurst_Permutation _ _ Hperm),
    (maxArrival_Permutation _ _ Hperm) in *.
  destruct (SJF_loop_small (sortStable SJF.less ps) SJF.init) as [Hg Hr].
  - eapply valid_Permutation; eauto.
  - simpl. lia.
  - simpl. int64_lia.
  - simpl in Hg, Hr. rewrite Hg, Hr. split.
    + apply SJF_contract_rows.
    + intros pid. rewrite SJF_contract_busy.
      symmetry. now apply demand_Permutation.
Qed.

Lemma total_demand (pid : Z) (l : list Process) :
  total (PrioInv.weigh (fun id b => if id =? pid then b else 0)) l
  = demand pid l.
Proof.
  induction l as [|p l IH]; simpl; [reflexivity|].
  rewrite IH. unfold PrioInv.weigh.
  destruct (ProcessID p =? pid); lia.
Qed.

Lemma totalSlices_busy (pid : Z) (g : list TimeSlice) :
  totalSlices (fun id b => if id =? pid then b else 0) g = busy pid g.
Proof.
  induction g as [|sl g IH]; simpl; [reflexivity|].
  rewrite IH. destruct (PID sl =? pid); lia.
Qed.

(** [SJFPrioritySchedule] returns, and each id is busy for what it asked. *)
Lemma Prio_work_conserved (ps : list Process) :
  valid ps -> small ps ->
  exists r,
    Prio_returns ps r
    /\ forall pid, busy pid (out_gantt (snd r)) = demand pid ps.
Proof.
  intros Hv Hs.
  destruct (Prio_total ps Hv Hs) as (s & Hret & Hinv & Hdone).
  eexists. split; [exact Hret|]. intros pid. simpl.
  pose proof (PrioInv.inv_ledger _ _ Hinv
                (fun id b => if id =? pid then b else 0)) as H.
  rewrite Hdone, total_demand, totalSlices_busy in H. simpl in H. lia.
Qed.

(** [RRSchedule] returns, and each id is busy for what it asked. *)
Lemma RR_work_conserved (ps : list Process) :
  valid ps -> small ps ->
  exists r,
    RR_returns ps r
    /\ forall pid, busy pid (out_gantt (snd r)) = demand pid ps.
Proof.
  intros Hv Hs.
  destruct (RR_total ps Hv Hs) as (s & Hret & Hinv & Hp & Hq).
  eexists. split; [exact Hret|]. intros pid. simpl.
  pose proof (RRInv.inv_work _ _ Hinv pid) as H.
  unfold RRInv.waiting in H. rewrite Hp, Hq in H. simpl in H.
  rewrite (demand_Permutation pid _ _ (sortStable_Permutation RR.less ps)).
  lia.
Qed.

Lemma unique_same_id (ps : list Process) (p q : Process) :
  uniqueIDs ps -> In p ps -> In q ps -> ProcessID p = ProcessID q -> p = q.
Proof.
  unfold uniqueIDs. induction ps as [|a ps IH]; simpl; [tauto|].
  intros Hnd Hp Hq Hid. apply NoDup_cons in Hnd as [Ha Hnd].
  rewrite list_elem_of_In in Ha.
  destruct Hp as [->|Hp], Hq as [->|Hq]; auto.
  - exfalso. apply Ha. rewrite Hid. now apply in_map.
  - exfalso. apply Ha. rewrite <- Hid. now apply in_map.
Qed.

Lemma burst_le_sum (ps : list Process) (p : Process) :
  valid ps -> In p ps -> BurstDuration p <= sumBurst ps.
Proof.
  induction 1 as [|q l [Hb Ha] Hl IH]; simpl; [tauto|].
  pose proof (sumBurst_nonneg l Hl).
  intros [->|Hin]; [lia|]. specialize (IH Hin). lia.
Qed.

Lemma recorded_other (g : list TimeSlice) (op p : Process) (pid a b : Z) :
  ProcessID p <> pid ->
  PrioInv.recorded g op p ->
  PrioInv.recorded (g ++ [mkTimeSlice pid a b]) op p.
Proof.
  intros Hne [Hsame Hin]. split; [exact Hsame|].
  rewrite map_app, !in_app_iff. simpl. intros [H|[H|[]]]; [auto | congruence].
Qed.

Lemma recorded_others (g : list TimeSlice) (ops ps : list Process)
      (pid a b : Z) :
  ~ In pid (map ProcessID ps) ->
  Forall2 (PrioInv.recorded g) ops ps ->
  Forall2 (PrioInv.recorded (g ++ [mkTimeSlice pid a b])) ops ps.
Proof.
  intros Hnot H. induction H as [|op p ops ps Hop Hrest IH]; constructor.
  - apply recorded_other; [|exact Hop]. simpl in Hnot. intros E. auto.
  - apply IH. simpl in Hnot. tauto.
Qed.

(** With unique ids, recording the exit of [cur] writes the entry of [cur]
    and ties it to the interval that is drawn with it. *)
Lemma setExit_recorded (g : list TimeSlice) (ops ps : list Process)
      (cur : Process) (t : Z) :
  uniqueIDs ps -> In cur ps ->
  Forall2 (PrioInv.recorded g) ops ps ->
  Forall2
    (PrioInv.recorded
       (g ++ [mkTimeSlice (ProcessID cur) (t - BurstDuration cur) t]))
    (Prio.setExit (ProcessID cur) t ops) ps.
Proof.
  unfold uniqueIDs. intros Hnd Hcur H.
  induction H as [|op p ops ps Hop Hrest IH]; simpl; [constructor|].
  simpl in Hnd. apply NoDup_cons in Hnd as [Hp Hnd].
  rewrite list_elem_of_In in Hp.
  pose proof (sameInput_id _ _ (proj1 Hop)) as Hid.
  destruct (ProcessID op =? ProcessID cur) eqn:E.
  - apply Z.eqb_eq in E.
    assert (cur = p) as ->.
    { destruct Hcur as [|Hin]; [congruence|].
      exfalso. apply Hp. rewrite <- Hid, E. now apply in_map. }
    constructor.
    + split; [apply sameInput_withExit, Hop|].
      intros _. simpl. rewrite in_app_iff. right. now left.
    + now apply recorded_others.
  - apply Z.eqb_neq in E. constructor.
    + apply recorded_other; [congruence | exact Hop].
    + apply IH; [exact Hnd|].
      destruct Hcur as [|Hin]; [congruence | exact Hin].
Qed.

Lemma Prio_step_recorded (ps : list Process) (s s' : Prio.State) :
  valid ps -> small ps -> uniqueIDs ps ->
  PrioInv.Inv ps s ->
  PrioInv.Step ps s s' ->
  Forall2 (PrioInv.recorded (Prio.gantt s)) (Prio.originalProcesses s) ps ->
  Forall2 (PrioInv.recorded (Prio.gantt s')) (Prio.originalProcesses s') ps.
Proof.
  intros Hv Hs Hu Hinv Hstep H.
  pose proof (Prio_potential_nonneg ps s Hv Hinv) as Hpot.
  pose proof (PrioInv.inv_potential _ _ Hinv) as Hbound.
  pose proof (PrioInv.inv_time _ _ Hinv) as Ht.
  assert (Hcur : Prio.isRunning s = true ->
                 In (Prio.currentProcess s) ps
                 /\ Int64.sub (Prio.currentTime s)
                      (BurstDuration (Prio.currentProcess s))
                    = Prio.currentTime s
                      - BurstDuration (Prio.currentProcess s)).
  { intros Hr.
    pose proof (PrioInv.inv_members _ _ Hinv) as Hmem.
    pose proof (PrioInv.inv_remaining _ _ Hinv Hr) as Hrem.
    unfold PrioInv.running in Hmem. rewrite Hr in Hmem.
    apply Forall_inv in Hmem. split; [exact Hmem|].
    destruct (proj1 (List.Forall_forall _ _) Hv _ Hmem) as [Hb Ha].
    pose proof (burst_le_sum ps _ Hv Hmem).
    pose proof (maxArrival_nonneg ps).
    apply sub_in_range. int64_lia. }
  destruct Hstep as [| | |Hr Hz Hq1|p rest Hr Hz Hsort]; simpl; auto;
    destruct (Hcur Hr) as [Hin ->]; now apply setExit_recorded.
Qed.

Lemma recorded_init (ps : list Process) :
  Forall2 (PrioInv.recorded []) ps ps.
Proof.
  induction ps; constructor; auto.
  split; [apply sameInput_refl | simpl; tauto].
Qed.

(** The loop returns with every entry of [originalProcesses] recorded,
    when the ids are unique. *)
Lemma Prio_total_recorded (ps : list Process) :
  valid ps -> small ps -> uniqueIDs ps ->
  exists s,
    Prio_returns ps (ps, Prio.finish ps s)
    /\ PrioInv.Inv ps s
    /\ PrioInv.unserved ps s = []
    /\ Forall2 (PrioInv.recorded (Prio.gantt s)) (Prio.originalProcesses s) ps.
Proof.
  intros Hv Hs Hu.
  destruct (Prio_loop_total ps Hv Hs) as (s & Hloop & Hinv & Hdone).
  exists s. split; [|split; [exact Hinv | split; [exact Hdone|]]].
  - exists (PrioInv.measure ps (Prio.init ps)).
    unfold SJFPrioritySchedule. now rewrite Hloop.
  - apply (while_invariant (Prio.unfinished ps) (Prio.tick ps)
             (fun s =>
                PrioInv.Inv ps s
                /\ Forall2 (PrioInv.recorded (Prio.gantt s))
                           (Prio.originalProcesses s) ps)
             (fun s H Hc =>
                conj (proj1 (Prio_tick_inv ps s Hv Hs (proj1 H) Hc))
                     (Prio_step_recorded ps s _ Hv Hs Hu (proj1 H)
                        (Prio_tick_step ps s) (proj2 H)))
             _ (Prio.init ps) s
             (conj (Prio_init_inv ps Hv) (recorded_init ps)) Hloop).
Qed.

Lemma total_indicator_nonneg (pid : Z) (l : list Process) :
  0 <= total (PrioInv.weigh (fun id _ => if id =? pid then 1 else 0)) l.
Proof.
  induction l as [|q l IH]; simpl; [lia|].
  unfold PrioInv.weigh at 1. destruct (ProcessID q =? pid); lia.
Qed.

Lemma total_indicator_pos (p : Process) (l : list Process) :
  In p l ->
  1 <= total (PrioInv.weigh
                (fun id _ => if id =? ProcessID p then 1 else 0)) l.
Proof.
  induction l as [|q l IH]; simpl; [tauto|].
  pose proof (total_indicator_nonneg (ProcessID p) l).
  unfold PrioInv.weigh at 1.
  intros [->|Hin]; [rewrite Z.eqb_refl; lia|].
  specialize (IH Hin). destruct (ProcessID q =? ProcessID p); lia.
Qed.

Lemma totalSlices_indicator (pid : Z) (g : list TimeSlice) :
  1 <= totalSlices (fun id _ => if id =? pid then 1 else 0) g ->
  In pid (map PID g).
Proof.
  induction g as [|sl g IH]; simpl; [lia|].
  destruct (PID sl =? pid) eqn:E.
  - apply Z.eqb_eq in E. auto.
  - intros H. right. apply IH. lia.
Qed.

(** Every process of the input is on the chart when the loop returns. *)
Lemma Prio_coverage (ps : list Process) (s : Prio.State) (p : Process) :
  PrioInv.Inv ps s -> PrioInv.unserved ps s = [] -> In p ps ->
  In (ProcessID p) (map PID (Prio.gantt s)).
Proof.
  intros Hinv Hdone Hin. apply totalSlices_indicator.
  pose proof (PrioInv.inv_ledger _ _ Hinv
                (fun id _ => if id =? ProcessID p then 1 else 0)) as H.
  rewrite Hdone in H. simpl in H.
  pose proof (total_indicator_pos p ps Hin). lia.
Qed.

(** With unique ids, the exit in the line of a process is the end of its
    own interval, which has the length of its burst and begins after its
    arrival: the wait is positive. *)
Lemma Prio_wait_positive (ps : list Process) :
  valid ps -> small ps -> uniqueIDs ps ->
  exists r,
    Prio_returns ps r
    /\ Forall2
         (fun row p =>
            rID row = ProcessID p
            /\ In (mkTimeSlice (ProcessID p) (rExit row - BurstDuration p)
                     (rExit row))
                  (out_gantt (snd r))
            /\ rTurnaround row = rExit row - ArrivalTime p
            /\ rWait row = rExit row - ArrivalTime p - BurstDuration p
            /\ 0 < rWait row
            /\ rBurst row < rTurnaround row)
         (out_rows (snd r)) ps.
Proof.
  intros Hv Hs Hu.
  destruct (Prio_total_recorded ps Hv Hs Hu)
    as (s & Hret & Hinv & Hdone & Hrec).
  eexists. split; [exact Hret|]. simpl.
  pose proof (Prio_potential_nonneg ps s Hv Hinv) as Hpot.
  pose proof (PrioInv.inv_potential _ _ Hinv) as Hbound.
  pose proof (PrioInv.inv_slices _ _ Hinv) as Hsl.
  pose proof (PrioInv.inv_past _ _ Hinv) as Hpast.
  rewrite List.Forall_forall in Hsl, Hpast.
  enough (Haux : forall ops qs,
             (forall p, In p qs -> In p ps) ->
             Forall2 (PrioInv.recorded (Prio.gantt s)) ops qs ->
             Forall2
               (fun row p =>
                  rID row = ProcessID p
                  /\ In (mkTimeSlice (ProcessID p)
                           (rExit row - BurstDuration p) (rExit row))
                        (Prio.gantt s)
                  /\ rTurnaround row = rExit row - ArrivalTime p
                  /\ rWait row = rExit row - ArrivalTime p - BurstDuration p
                  /\ 0 < rWait row
                  /\ rBurst row < rTurnaround row)
               (map Prio.row ops) qs)
    by (apply Haux; auto).
  intros ops qs Hsub Hrec'.
  induction Hrec' as [|op p ops qs [Hsame Hexit] Hrest IH]; simpl;
    constructor.
  - assert (Hin : In p ps) by (apply Hsub; now left).
    specialize (Hexit (Prio_coverage ps s p Hinv Hdone Hin)).
    destruct (Hsl _ Hexit) as (p' & Hin' & Hid & Hstart & Hlate).
    simpl in Hid, Hstart, Hlate.
    assert (p' = p) as -> by (symmetry; now apply (unique_same_id ps)).
    specialize (Hpast _ Hexit). simpl in Hpast.
    destruct (proj1 (List.Forall_forall _ _) Hv p Hin) as [Hb Ha].
    rewrite Hsame. simpl. unwrap. repeat split; auto; lia.
  - apply IH. intros q Hq. apply Hsub. now right.
Qed.

(** ** RRSchedule: waiting times *)

Lemma originals_fold_absent (l : list Process) (m : gmap Z Process) (id : Z) :
  ~ In id (map ProcessID l) ->
  fold_left (fun m p => <[ProcessID p := p]> m) l m !! id = m !! id.
Proof.
  revert m. induction l as [|q l IH]; intros m Hnot; simpl; [reflexivity|].
  simpl in Hnot. rewrite IH by tauto.
  apply lookup_insert_ne. tauto.
Qed.

(** With unique ids the map gives every process back under its id. *)
Lemma originals_lookup (l : list Process) (p : Process) :
  uniqueIDs l -> In p l -> RR.original (RR.originals l) (ProcessID p) = p.
Proof.
  unfold RR.original, RR.originals, uniqueIDs.
  generalize (∅ : gmap Z Process) as m.
  induction l as [|q l IH]; intros m Hnd Hin; simpl in *; [tauto|].
  apply NoDup_cons in Hnd as [Hq Hnd]. rewrite list_elem_of_In in Hq.
  destruct Hin as [->|Hin].
  - rewrite originals_fold_absent by exact Hq.
    now rewrite lookup_insert_eq.
  - now apply IH.
Qed.

Lemma served_later (input : list Process) (clock clock' : Z) (q : Process) :
  clock <= clock' ->
  RRInv.served input clock q -> RRInv.served input clock' q.
Proof.
  intros Hle (p0 & Hin & Hid & Hb & Ht). exists p0. repeat split; auto; lia.
Qed.

Lemma finished_later (input : list Process) (clock clock' : Z) (c : Process) :
  clock <= clock' ->
  RRInv.finished input clock c -> RRInv.finished input clock' c.
Proof.
  intros Hle (p0 & Hin & Hid & Ht & Hta & Hw). exists p0.
  repeat split; auto; lia.
Qed.

Lemma RR_iter_timing (input : list Process) (s : RR.State) :
  valid input -> small input -> uniqueIDs input ->
  RRInv.Inv input s -> RRInv.Timing input s ->
  RRInv.Timing input (RR.iter (RR.originals input) s).
Proof.
  intros Hvin Hsmall Hu [Hc Hv Hb Hcomp Hcnt Hsl Hw] [Hq Hp Hs].
  unfold RR.iter.
  destruct (RR_moveArrived_spec (RR.clock s) (RR.processes s) (RR.queue s))
    as (moved & Hpm & Hqm & Hm & Hnext).
  destruct (RR.moveArrived _ _ _) as [pending queue]. simpl in Hpm, Hqm, Hnext.
  unfold RRInv.waiting in *.
  assert (Hsame : RR.queue s ++ RR.processes s = queue ++ pending).
  { rewrite Hpm at 1. rewrite Hqm. now rewrite app_assoc. }
  rewrite Hsame in *. rewrite Hpm in Hp.
  apply Forall_app in Hp as [Hmoved Hpending].
  assert (Hq' : Forall (RRInv.served input (RR.clock s)) queue).
  { rewrite Hqm. apply Forall_app. split; [exact Hq|].
    apply List.Forall_forall. intros p Hin.
    pose proof (proj1 (List.Forall_forall _ _) Hmoved p Hin).
    pose proof (proj1 (List.Forall_forall _ _) Hm p Hin) as Harr.
    simpl in Harr. exists p. repeat split; auto; lia. }
  pose proof (maxArrival_nonneg input) as HM.
  pose proof (sumBurst_nonneg _ Hv) as HW0.
  destruct queue as [|c queue].
  - split; simpl; auto.
    + unwrap.
      eapply Forall_impl; [exact Hs|]. intros c. apply finished_later. lia.
  - apply Forall_cons_1 in Hv as [[Hcb Hca] Hv].
    pose proof (sumBurst_nonneg _ Hv) as HW1.
    simpl in Hb, HW0, HW1.
    rewrite sumBurst_app in *.
    apply Forall_cons_1 in Hq' as [(p0 & Hin & Hid & Hle & Hserved) Hq'].
    destruct (proj1 (List.Forall_forall _ _) Hvin p0 Hin) as [Hb0 Ha0].
    unfold RR.quantum in *.
    destruct (4 <? BurstDuration c) eqn:E;
      [apply Z.ltb_lt in E | apply Z.ltb_ge in E].
    + split; simpl; unwrap; auto.
      * apply Forall_app. split.
        -- eapply Forall_impl; [exact Hq'|]. intros q. apply served_later. lia.
        -- constructor; [|constructor]. exists p0. simpl.
           repeat split; auto; lia.
      * eapply Forall_impl; [exact Hs|]. intros q. apply finished_later. lia.
    + rewrite Hid, (originals_lookup input p0 Hu Hin).
      split; simpl; unwrap; auto.
      * eapply Forall_impl; [exact Hq'|]. intros q. apply served_later. lia.
      * apply Forall_app. split.
        -- eapply Forall_impl; [exact Hs|]. intros q.
           apply finished_later. lia.
        -- constructor; [|constructor]. exists p0. simpl.
           repeat split; auto; lia.
Qed.

Lemma RR_init_timing (input : list Process) :
  RRInv.Timing input (RR.init input).
Proof.
  split; simpl; try constructor.
  apply List.Forall_forall. auto.
Qed.

Lemma RR_sorted_unique (ps : list Process) :
  uniqueIDs ps -> uniqueIDs (sortStable RR.less ps).
Proof.
  unfold uniqueIDs.
  now rewrite <- (sortStable_Permutation RR.less ps).
Qed.

(** With unique ids, [RRSchedule] returns and reports, for every process,
    a wait that is not negative and a turnaround of at least the burst. *)
Lemma RR_wait_nonneg (ps : list Process) :
  valid ps -> small ps -> uniqueIDs ps ->
  exists r,
    RR_returns ps r
    /\ Forall (fun row =>
                 0 <= rWait row
                 /\ rBurst row <= rTurnaround row
                 /\ rTurnaround row = rWait row + rBurst row)
              (out_rows (snd r)).
Proof.
  intros Hv Hs Hu.
  set (sorted := sortStable RR.less ps).
  set (m := RR.originals sorted).
  pose proof (RR_sorted_valid ps Hv) as Hv'.
  pose proof (RR_sorted_small ps Hs) as Hs'.
  pose proof (RR_sorted_unique ps Hu) as Hu'.
  fold sorted in Hv', Hs', Hu'.
  destruct (RR_loop_total sorted m Hv' Hs') as (s & Hloop & Hinv & _).
  assert (Htim : RRInv.Timing sorted s).
  { apply (while_invariant RR.unfinished (RR.iter m)
             (fun s => RRInv.Inv sorted s /\ RRInv.Timing sorted s)
             (fun s H Hc =>
                conj (proj1 (RR_iter_inv sorted m s Hs' (proj1 H) Hc))
                     (RR_iter_timing sorted s Hv' Hs' Hu' (proj1 H) (proj2 H)))
             _ (RR.init sorted) s
             (conj (RR_init_inv sorted Hv') (RR_init_timing sorted)) Hloop). }
  exists (sorted, RR.finish m s). split.
  - exists (RRInv.measure (RR.init sorted)). unfold RRSchedule.
    fold sorted. fold m. now rewrite Hloop.
  - simpl. apply Forall_map.
    eapply Forall_impl; [exact (RRInv.tim_schedule _ _ Htim)|].
    intros c (p0 & Hin & Hid & Ht & Hta & Hw). simpl.
    unfold m. rewrite Hid, (originals_lookup sorted p0 Hu' Hin). lia.
Qed.

(** ** SJFPrioritySchedule: from the start of a process to its exit *)

(** While the running process has time left, an iteration takes one unit
    of it and changes neither the chart nor the table. *)
Lemma Prio_tick_running (ps : list Process) (s : Prio.State) :
  Prio.isRunning s = true -> Prio.remainingTime s <> 0 ->
  Prio.tick ps s
  = Prio.mkState (Int64.add (Prio.currentTime s) 1)
      (Prio.completedProcesses s) true (Prio.currentProcess s)
      (Int64.sub (Prio.remainingTime s) 1)
      (Prio.queue s ++ Prio.arrivals ps (Prio.currentTime s))
      (Prio.gantt s) (Prio.originalProcesses s).
Proof.
  intros Hr Hnz. unfold Prio.tick. rewrite Hr.
  destruct (Prio.remainingTime s =? 0) eqn:E;
    [apply Z.eqb_eq in E; contradiction | reflexivity].
Qed.

(** When the running process has no time left, the iteration records its
    exit at the current time and draws its interval. *)
Lemma Prio_tick_completes (ps : list Process) (s : Prio.State) :
  Prio.isRunning s = true -> Prio.remainingTime s = 0 ->
  Prio.gantt (Prio.tick ps s)
  = Prio.gantt s ++
    [mkTimeSlice (ProcessID (Prio.currentProcess s))
       (Int64.sub (Prio.currentTime s)
          (BurstDuration (Prio.currentProcess s)))
       (Prio.currentTime s)]
  /\ Prio.originalProcesses (Prio.tick ps s)
     = Prio.setExit (ProcessID (Prio.currentProcess s)) (Prio.currentTime s)
         (Prio.originalProcesses s)
  /\ Prio.completedProcesses (Prio.tick ps s)
     = S (Prio.completedProcesses s).
Proof.
  intros Hr Hz. unfold Prio.tick. rewrite Hr, Hz. simpl.
  destruct (negb _); simpl; auto.
Qed.

Lemma Prio_run_down (ps : list Process) (k : nat) (s : Prio.State) :
  Prio.isRunning s = true ->
  Prio.remainingTime s = Z.of_nat k ->
  0 <= Prio.currentTime s ->
  Prio.currentTime s + Z.of_nat k <= Int64.max_int ->
  let s' := Nat.iter k (Prio.tick ps) s in
  Prio.isRunning s' = true
  /\ Prio.remainingTime s' = 0
  /\ Prio.currentTime s' = Prio.currentTime s + Z.of_nat k
  /\ Prio.currentProcess s' = Prio.currentProcess s
  /\ Prio.gantt s' = Prio.gantt s
  /\ Prio.originalProcesses s' = Prio.originalProcesses s
  /\ Prio.completedProcesses s' = Prio.completedProcesses s.
Proof.
  revert s. induction k as [|k IH]; intros s Hr Hrem Ht Hmax.
  - simpl. rewrite Hrem. repeat split; auto; lia.
  - rewrite Nat.iter_succ_r.
    pose proof (Prio_tick_running ps s Hr ltac:(lia)) as Htick.
    rewrite add_in_range, sub_in_range in Htick by int64_lia.
    destruct (IH (Prio.tick ps s)) as (H1 & H2 & H3 & H4 & H5 & H6 & H7);
      try (rewrite Htick; simpl; first [reflexivity | lia]).
    cbv zeta. rewrite H1, H2, H3, H4, H5, H6, H7, Htick. simpl.
    repeat split; auto; lia.
Qed.

(** A process that is started at tick [t], so that the next iteration
    finds it running at [t + 1] with its whole burst left, is completed
    [burst + 1] ticks after [t]: its exit is [t + 1 + burst] and its
    interval [[t + 1, t + 1 + burst)]. *)
Lemma Prio_exit_after_start (ps : list Process) (s : Prio.State) (t : Z) :
  Prio.isRunning s = true ->
  Prio.remainingTime s = BurstDuration (Prio.currentProcess s) ->
  Prio.currentTime s = t + 1 ->
  0 <= t -> 0 <= BurstDuration (Prio.currentProcess s) ->
  t + 1 + BurstDuration (Prio.currentProcess s) <= Int64.max_int ->
  let p := Prio.currentProcess s in
  let s' :=
    Prio.tick ps (Nat.iter (Z.to_nat (BurstDuration p)) (Prio.tick ps) s) in
  Prio.gantt s'
  = Prio.gantt s ++
    [mkTimeSlice (ProcessID p) (t + 1) (t + 1 + BurstDuration p)]
  /\ Prio.originalProcesses s'
     = Prio.setExit (ProcessID p) (t + 1 + BurstDuration p)
         (Prio.originalProcesses s)
  /\ Prio.completedProcesses s' = S (Prio.completedProcesses s).
Proof.
  intros Hr Hrem Ht Ht0 Hb Hmax p s'.
  assert (Hk : Z.of_nat (Z.to_nat (BurstDuration p)) = BurstDuration p)
    by (apply Z2Nat.id; exact Hb).
  destruct (Prio_run_down ps (Z.to_nat (BurstDuration p)) s)
    as (H1 & H2 & H3 & H4 & H5 & H6 & H7);
    [exact Hr | now rewrite Hk | lia | rewrite Hk; fold p in Hmax; lia |].
  destruct (Prio_tick_completes ps _ H1 H2) as (Hg & Ho & Hc).
  fold s' in Hg, Ho, Hc.
  rewrite Hg, Ho, Hc, H3, H4, H5, H6, H7, Ht, Hk. fold p.
  rewrite sub_in_range by int64_lia.
  replace (t + 1 + BurstDuration p - BurstDuration p) with (t + 1) by lia.
  auto.
Qed.

(** Whenever an iteration at tick [t] takes [p] from the queue, [p] is
    the running process from then on, and it is completed with the exit
    [t + 1 + burst] and the interval [[t + 1, t + 1 + burst)], one tick
    later than a run of [burst] ticks from [t]. *)
Lemma Prio_started_exits_late (ps : list Process) (s : Prio.State)
      (p : Process) (rest : list Process) :
  Prio.isRunning s = false \/ Prio.remainingTime s = 0 ->
  sortStable Prio.less
    (Prio.queue s ++ Prio.arrivals ps (Prio.currentTime s)) = p :: rest ->
  0 <= Prio.currentTime s -> 0 <= BurstDuration p ->
  Prio.currentTime s + 1 + BurstDuration p <= Int64.max_int ->
  let t := Prio.currentTime s in
  let s1 := Prio.tick ps s in
  let s' :=
    Prio.tick ps (Nat.iter (Z.to_nat (BurstDuration p)) (Prio.tick ps) s1) in
  Prio.isRunning s1 = true
  /\ Prio.currentProcess s1 = p
  /\ Prio.gantt s'
     = Prio.gantt s1 ++
       [mkTimeSlice (ProcessID p) (t + 1) (t + 1 + BurstDuration p)]
  /\ Prio.originalProcesses s'
     = Prio.setExit (ProcessID p) (t + 1 + BurstDuration p)
         (Prio.originalProcesses s1)
  /\ t + 1 + BurstDuration p <> Contract.prio_exit t (BurstDuration p).
Proof.
  intros Hfree Hsort Ht Hb Hmax t s1 s'.
  assert (Hs1 : Prio.isRunning s1 = true /\ Prio.currentProcess s1 = p
                /\ Prio.remainingTime s1 = BurstDuration p
                /\ Prio.currentTime s1 = t + 1).
  { subst s1. pose proof (Prio_tick_step ps s) as Hstep.
    assert (Hadd : Int64.add (Prio.currentTime s) 1 = t + 1)
      by (apply add_in_range; int64_lia).
    destruct Hstep as [Hr Hq1 | p' rest' Hr Hsort' | Hr Hnz | Hr Hz Hq1
                      | p' rest' Hr Hz Hsort']; simpl.
    - rewrite Hq1 in Hsort. discriminate.
    - rewrite Hsort in Hsort'. injection Hsort' as <- <-. auto.
    - destruct Hfree; congruence.
    - rewrite Hq1 in Hsort. discriminate.
    - rewrite Hsort in Hsort'. injection Hsort' as <- <-. auto. }
  destruct Hs1 as (Hr1 & Hp1 & Hrem1 & Ht1).
  destruct (Prio_exit_after_start ps s1 t) as (Hg & Ho & _);
    rewrite ?Hp1; auto.
  rewrite Hp1 in Hg, Ho. fold s' in Hg, Ho.
  repeat split; auto. unfold Contract.prio_exit. lia.
Qed.

(** The same under the five steps of the specification. *)

Lemma Contract_tick_running (ps : list Process) (s : Prio.State) :
  Prio.isRunning s = true -> Prio.remainingTime s <> 0 ->
  Contract.prio_tick ps s
  = Prio.mkState (Prio.currentTime s + 1)
      (Prio.completedProcesses s) true (Prio.currentProcess s)
      (Prio.remainingTime s - 1)
      (Prio.queue s ++ Prio.arrivals ps (Prio.currentTime s))
      (Prio.gantt s) (Prio.originalProcesses s).
Proof.
  intros Hr Hnz. unfold Contract.prio_tick. rewrite Hr.
  destruct (Prio.remainingTime s =? 0) eqn:E;
    [apply Z.eqb_eq in E; contradiction | reflexivity].
Qed.

Lemma Contract_tick_completes (ps : list Process) (s : Prio.State) :
  Prio.isRunning s = true -> Prio.remainingTime s = 0 ->
  Prio.gantt (Contract.prio_tick ps s)
  = Prio.gantt s ++
    [mkTimeSlice (ProcessID (Prio.currentProcess s))
       (Prio.currentTime s - BurstDuration (Prio.currentProcess s))
       (Prio.currentTime s)]
  /\ Prio.originalProcesses (Contract.prio_tick ps s)
     = Prio.setExit (ProcessID (Prio.currentProcess s)) (Prio.currentTime s)
         (Prio.originalProcesses s).
Proof.
  intros Hr Hz. unfold Contract.prio_tick. rewrite Hr, Hz. simpl. auto.
Qed.

Lemma Contract_run_down (ps : list Process) (k : nat) (s : Prio.State) :
  Prio.isRunning s = true ->
  Prio.remainingTime s = Z.of_nat k ->
  let s' := Nat.iter k (Contract.prio_tick ps) s in
  Prio.isRunning s' = true
  /\ Prio.remainingTime s' = 0
  /\ Prio.currentTime s' = Prio.currentTime s + Z.of_nat k
  /\ Prio.currentProcess s' = Prio.currentProcess s
  /\ Prio.gantt s' = Prio.gantt s
  /\ Prio.originalProcesses s' = Prio.originalProcesses s.
Proof.
  revert s. induction k as [|k IH]; intros s Hr Hrem.
  - simpl. rewrite Hrem. repeat split; auto; lia.
  - rewrite Nat.iter_succ_r.
    pose proof (Contract_tick_running ps s Hr ltac:(lia)) as Htick.
    destruct (IH (Contract.prio_tick ps s)) as (H1 & H2 & H3 & H4 & H5 & H6);
      try (rewrite Htick; simpl; first [reflexivity | lia]).
    cbv zeta. rewrite H1, H2, H3, H4, H5, H6, Htick. simpl.
    repeat split; auto; lia.
Qed.

(** Under the steps of the specification a process that is taken from the
    queue at tick [t] is completed with the exit [t + burst] and the
    interval [[t, t + burst)]. *)
Lemma Contract_started_exits_on_time (ps : list Process) (s : Prio.State)
      (p : Process) (rest : list Process) :
  Prio.isRunning s = false \/ Prio.remainingTime s = 0 ->
  sortStable Prio.less
    (Prio.queue s ++ Prio.arrivals ps (Prio.currentTime s)) = p :: rest ->
  0 < BurstDuration p ->
  let t := Prio.currentTime s in
  let s1 := Contract.prio_tick ps s in
  let s' :=
    Contract.prio_tick ps
      (Nat.iter (Z.to_nat (BurstDuration p - 1)) (Contract.prio_tick ps) s1) in
  Prio.isRunning s1 = true
  /\ Prio.currentProcess s1 = p
  /\ Prio.gantt s'
     = Prio.gantt s1 ++ [Contract.prio_slice (ProcessID p) t (BurstDuration p)]
  /\ Prio.originalProcesses s'
     = Prio.setExit (ProcessID p) (Contract.prio_exit t (BurstDuration p))
         (Prio.originalProcesses s1).
Proof.
  intros Hfree Hsort Hb t s1 s'.
  assert (Hs1 : Prio.isRunning s1 = true /\ Prio.currentProcess s1 = p
                /\ Prio.remainingTime s1 = BurstDuration p - 1
                /\ Prio.currentTime s1 = t + 1).
  { subst s1. unfold Contract.prio_tick. rewrite Hsort.
    assert (Hlen : (length (Prio.queue s
                            ++ Prio.arrivals ps (Prio.currentTime s)) =? 0)%nat
                   = false).
    { destruct (Prio.queue s ++ Prio.arrivals ps (Prio.currentTime s));
        [discriminate | reflexivity]. }
    rewrite Hlen.
    destruct Hfree as [Hr | Hz]; [rewrite Hr | rewrite Hz];
      simpl; [auto|]. destruct (Prio.isRunning s); simpl; auto. }
  destruct Hs1 as (Hr1 & Hp1 & Hrem1 & Ht1).
  assert (Hk : Z.of_nat (Z.to_nat (BurstDuration p - 1)) = BurstDuration p - 1)
    by (apply Z2Nat.id; lia).
  destruct (Contract_run_down ps (Z.to_nat (BurstDuration p - 1)) s1)
    as (H1 & H2 & H3 & H4 & H5 & H6); [exact Hr1 | now rewrite Hk |].
  destruct (Contract_tick_completes ps _ H1 H2) as (Hg & Ho).
  fold s' in Hg, Ho.
  rewrite Hg, Ho, H3, H4, H5, H6, Hp1, Ht1, Hk.
  unfold Contract.prio_slice, Contract.prio_exit.
  replace (t + 1 + (BurstDuration p - 1)) with (t + BurstDuration p) by lia.
  replace (t + BurstDuration p - BurstDuration p) with t by lia.
  auto.
Qed.

(** C2 (defect of the code). A single process arrives at 0 with burst 5.
    The first iteration, at tick 0, takes it from the queue and starts it,
    so that it is to leave at [0 + 5] with the interval [[0, 5)], as it
    does under the five steps of the specification. The loop of the code
    does not decrement on the tick of the start: the process is completed
    at tick 6 with the interval [[1, 6)], wait 1 and turnaround 6. *)
Theorem Prio_exit_one_tick_late :
  let ps := [proc 1 0 5 0] in
  let s1 := Prio.tick ps (Prio.init ps) in
  Prio.currentTime (Prio.init ps) = 0
  /\ Prio.isRunning s1 = true
  /\ Prio.currentProcess s1 = proc 1 0 5 0
  /\ Prio.remainingTime s1 = 5
  /\ Contract.prio_exit 0 5 = 5
  /\ Contract.prio_slice 1 0 5 = mkTimeSlice 1 0 5
  /\ Prio.gantt (Nat.iter 7 (Contract.prio_tick ps) (Prio.init ps))
     = [mkTimeSlice 1 0 5]
  /\ SJFPrioritySchedule 7 ps
     = Some (ps,
             mkOutput [mkTimeSlice 1 1 6] [mkRow 1 0 5 0 1 6 6]
                      (Real (1 # 1)) (Real (6 # 1)) (Real (1 # 7))).
Proof. vm_compute. repeat split; reflexivity. Qed.

(** ** The two invariants of the specification outside [FCFSSchedule] *)

Lemma Forall2_left {A B : Type} (R : A -> B -> Prop) (P : A -> Prop)
      (l : list A) (k : list B) :
  (forall x y, R x y -> P x) -> Forall2 R l k -> Forall P l.
Proof. intros HR. induction 1; constructor; eauto. Qed.

(** X11. On a valid input with unique ids, away from the end of the
    integer range, the three other schedulers return and report for every
    process a wait that is not negative and a turnaround of at least the
    burst, which [FCFSSchedule] does not. *)
Lemma wait_nonneg_outside_FCFS (ps : list Process) :
  valid ps -> small ps -> uniqueIDs ps ->
  let good := fun row => 0 <= rWait row /\ rBurst row <= rTurnaround row in
  Forall good (out_rows (snd (SJFSchedule ps)))
  /\ (exists r, Prio_returns ps r /\ Forall good (out_rows (snd r)))
  /\ (exists r, RR_returns ps r /\ Forall good (out_rows (snd r))).
Proof.
  intros Hv Hs Hu good. split; [|split].
  - apply (SJF_wait_and_work ps Hv Hs).
  - destruct (Prio_wait_positive ps Hv Hs Hu) as (r & Hr & Hrows).
    exists r. split; [exact Hr|].
    eapply Forall2_left; [|exact Hrows].
    unfold good. simpl. intros; lia.
  - destruct (RR_wait_nonneg ps Hv Hs Hu) as (r & Hr & Hrows).
    exists r. split; [exact Hr|].
    eapply Forall_impl; [exact Hrows|]. unfold good. simpl. intros; lia.
Qed.

Lemma scenario_valid : valid scenario.
Proof. repeat constructor; simpl; lia. Qed.

Lemma scenario_small : small scenario.
Proof. vm_compute. discriminate. Qed.

Lemma scenario_unique : uniqueIDs scenario.
Proof.
  unfold uniqueIDs. simpl.
  repeat (apply NoDup_cons; split; [rewrite list_elem_of_In; simpl; lia|]).
  apply NoDup_nil. exact I.
Qed.

Lemma wait_nonneg_outside_FCFS_witness :
  Forall (fun row => 0 <= rWait row /\ rBurst row <= rTurnaround row)
         (out_rows (snd (SJFSchedule scenario)))
  /\ (exists r, Prio_returns scenario r
                /\ Forall (fun row => 0 <= rWait row
                                      /\ rBurst row <= rTurnaround row)
                          (out_rows (snd r)))
  /\ (exists r, RR_returns scenario r
                /\ Forall (fun row => 0 <= rWait row
                                      /\ rBurst row <= rTurnaround row)
                          (out_rows (snd r))).
Proof.
  exact (wait_nonneg_outside_FCFS scenario scenario_valid scenario_small
           scenario_unique).
Defined.

(** X12. On a valid input with unique ids, away from the end of the
    integer range, the intervals that each of the three other schedulers
    draws for a process add up to the burst of the process: nothing is
    served twice and nothing is left out, whatever the number of slices. *)
Lemma work_conserved_outside_FCFS (ps : list Process) :
  valid ps -> small ps -> uniqueIDs ps ->
  let conserved := fun g =>
    forall p, In p ps -> busy (ProcessID p) g = BurstDuration p in
  conserved (out_gantt (snd (SJFSchedule ps)))
  /\ (exists r, Prio_returns ps r /\ conserved (out_gantt (snd r)))
  /\ (exists r, RR_returns ps r /\ conserved (out_gantt (snd r))).
Proof.
  intros Hv Hs Hu conserved. split; [|split].
  - intros p Hin.
    rewrite (proj2 (SJF_wait_and_work ps Hv Hs)). now apply demand_unique.
  - destruct (Prio_work_conserved ps Hv Hs) as (r & Hr & Hwork).
    exists r. split; [exact Hr|]. intros p Hin.
    rewrite Hwork. now apply demand_unique.
  - destruct (RR_work_conserved ps Hv Hs) as (r & Hr & Hwork).
    exists r. split; [exact Hr|]. intros p Hin.
    rewrite Hwork. now apply demand_unique.
Qed.

Lemma work_conserved_outside_FCFS_witness :
  (forall p, In p scenario ->
     busy (ProcessID p) (out_gantt (snd (SJFSchedule scenario)))
     = BurstDuration p)
  /\ (exists r, Prio_returns scenario r
                /\ forall p, In p scenario ->
                     busy (ProcessID p) (out_gantt (snd r)) = BurstDuration p)
  /\ (exists r, RR_returns scenario r
                /\ forall p, In p scenario ->
                     busy (ProcessID p) (out_gantt (snd r)) = BurstDuration p).
Proof.
  exact (work_conserved_outside_FCFS scenario scenario_valid scenario_small
           scenario_unique).
Defined.

(** * Loading, rendering and the program *)

(** ** The decimal rendering *)

Lemma formatDigits_length_acc (fuel : nat) (n : Z) (acc : string) :
  (String.length acc + 1 <= String.length (Fmt.formatDigits fuel n acc))%nat.
Proof.
  revert n acc. induction fuel as [|fuel IH]; intros n acc; simpl; [lia|].
  destruct (n <? 10); simpl; [lia|].
  specialize (IH (n / 10) (String (Fmt.digitChar (n mod 10)) acc)).
  simpl in IH. lia.
Qed.

(** A number below [10^k] has [k] digits at most. *)
Lemma formatDigits_length_le (fuel : nat) (n : Z) (acc : string) (k : nat) :
  (1 <= k)%nat -> 0 <= n < 10 ^ Z.of_nat k ->
  (String.length (Fmt.formatDigits fuel n acc) <= String.length acc + k)%nat.
Proof.
  revert n acc k. induction fuel as [|fuel IH]; intros n acc k Hk Hn; simpl;
    [lia|].
  destruct (n <? 10) eqn:E; simpl; [lia|]. apply Z.ltb_ge in E.
  destruct k as [|[|k]]; [lia | simpl in Hn; lia |].
  specialize (IH (n / 10) (String (Fmt.digitChar (n mod 10)) acc) (S k)).
  simpl String.length in IH.
  assert (0 <= n / 10 < 10 ^ Z.of_nat (S k)).
  { split; [apply Z.div_pos; lia|].
    apply Z.div_lt_upper_bound; [lia|].
    rewrite <- Z.pow_succ_r by lia. rewrite <- Nat2Z.inj_succ. lia. }
  specialize (IH ltac:(lia) ltac:(assumption)). lia.
Qed.

(** A number from [10^k] on has more than [k] digits. *)
Lemma formatDigits_length_ge (fuel : nat) (n : Z) (acc : string) (k : nat) :
  (k <= fuel)%nat -> 10 ^ Z.of_nat k <= n ->
  (String.length acc + k + 1
   <= String.length (Fmt.formatDigits fuel n acc))%nat.
Proof.
  revert n acc k. induction fuel as [|fuel IH]; intros n acc k Hk Hn; simpl.
  - lia.
  - destruct (n <? 10) eqn:E; simpl.
    + apply Z.ltb_lt in E. destruct k as [|k]; [lia|].
      assert (10 ^ 1 <= 10 ^ Z.of_nat (S k))
        by (apply Z.pow_le_mono_r; lia). lia.
    + destruct k as [|k].
      * pose proof (formatDigits_length_acc fuel (n / 10)
                      (String (Fmt.digitChar (n mod 10)) acc)) as H.
        simpl in H. lia.
      * specialize (IH (n / 10) (String (Fmt.digitChar (n mod 10)) acc) k).
        simpl String.length in IH.
        assert (10 ^ Z.of_nat k <= n / 10).
        { apply Z.div_le_lower_bound; [lia|].
          rewrite <- Z.pow_succ_r by lia. rewrite <- Nat2Z.inj_succ. lia. }
        specialize (IH ltac:(lia) ltac:(assumption)). lia.
Qed.

(** The ids that [fmt.Sprint] renders with ten bytes or more. *)
Lemma Sprint_ten_bytes (z : Z) :
  (10 <= String.length (Fmt.Sprint z))%nat
  <-> 1000000000 <= z \/ z <= -100000000.
Proof.
  unfold Fmt.Sprint. destruct (z <? 0) eqn:E;
    [apply Z.ltb_lt in E | apply Z.ltb_ge in E]; simpl String.length.
  - destruct (Z_le_gt_dec (10 ^ Z.of_nat 8) (- z)) as [H|H].
    + pose proof (formatDigits_length_ge 18 (- z) EmptyString 8
                    ltac:(lia) H) as L.
      simpl in L, H. split; [lia|]. intros _. simpl. lia.
    + pose proof (formatDigits_length_le 18 (- z) EmptyString 8
                    ltac:(lia) ltac:(lia)) as L.
      simpl in L, H. lia.
  - destruct (Z_le_gt_dec (10 ^ Z.of_nat 9) z) as [H|H].
    + pose proof (formatDigits_length_ge 18 z EmptyString 9
                    ltac:(lia) H) as L.
      simpl in L, H. lia.
    + pose proof (formatDigits_length_le 18 z EmptyString 9
                    ltac:(lia) ltac:(lia)) as L.
      simpl in L, H. lia.
Qed.

(** ** outputGantt *)

(** Go divides towards zero: [(8 - 9) / 2] is 0, and the padding count is
    negative from ten bytes on. *)
Lemma quot_2_negative (a : Z) : Z.quot a 2 < 0 <-> a <= -2.
Proof.
  pose proof (Z.quot_rem' a 2) as Hqr.
  pose proof (Z.rem_bound_abs a 2 ltac:(lia)) as Hb.
  pose proof (Z.rem_sign_nz a 2 ltac:(lia)) as Hs.
  destruct (Z.eq_dec (Z.rem a 2) 0) as [E|E]; [lia|].
  specialize (Hs E). lia.
Qed.

Lemma padding_panics (pid : string) :
  Strings.Repeat " " (Z.quot (8 - Z.of_nat (String.length pid)) 2) = Panicked
  <-> (10 <= String.length pid)%nat.
Proof.
  unfold Strings.Repeat.
  destruct (Z.quot (8 - Z.of_nat (String.length pid)) 2 <? 0) eqn:E;
    [apply Z.ltb_lt in E | apply Z.ltb_ge in E];
    rewrite ?quot_2_negative in E.
  - split; [lia | reflexivity].
  - split; [discriminate|]. intros H.
    assert (Z.quot (8 - Z.of_nat (String.length pid)) 2 < 0)
      by (apply quot_2_negative; lia). lia.
Qed.

Lemma cells_ending (gantt : list TimeSlice) :
  (Forall (fun sl => -100000000 < PID sl < 1000000000) gantt ->
   snd (Gantt.cells gantt) = Ok tt)
  /\ (Exists (fun sl => 1000000000 <= PID sl \/ PID sl <= -100000000) gantt ->
      snd (Gantt.cells gantt) = Panicked).
Proof.
  induction gantt as [|sl gantt [IHok IHbad]]; simpl.
  - split; [reflexivity|]. intros H. inversion H.
  - pose proof (padding_panics (Fmt.Sprint (PID sl))) as Hpad.
    rewrite Sprint_ten_bytes in Hpad.
    destruct (Strings.Repeat _ _) as [padding| | |] eqn:Hrep;
      try (unfold Strings.Repeat in Hrep;
           destruct (_ <? 0); discriminate).
    + destruct (Gantt.cells gantt) as [text ending]. simpl in *. split.
      * intros H. apply Forall_cons_1 in H as [_ H]. auto.
      * intros H. apply Exists_cons in H as [H|H]; [|auto].
        apply Hpad in H. discriminate.
    + simpl. split; [|reflexivity].
      intros H. apply Forall_cons_1 in H as [H _].
      assert (1000000000 <= PID sl \/ PID sl <= -100000000)
        by (now apply Hpad). lia.
Qed.

(** X4. [outputGantt] panics, in [strings.Repeat], exactly when the chart
    holds a process id of ten bytes or more, that is an id from
    1000000000 on or up to -100000000; otherwise it returns. *)
Theorem outputGantt_panics_on_long_id (gantt : list TimeSlice) :
  (snd (outputGantt gantt) = Panicked
   <-> Exists (fun sl => 1000000000 <= PID sl \/ PID sl <= -100000000) gantt)
  /\ (snd (outputGantt gantt) = Ok tt
      <-> Forall (fun sl => -100000000 < PID sl < 1000000000) gantt).
Proof.
  destruct (cells_ending gantt) as [Hok Hbad].
  assert (Hdec : Forall (fun sl => -100000000 < PID sl < 1000000000) gantt
                 \/ Exists (fun sl => 1000000000 <= PID sl
                                      \/ PID sl <= -100000000) gantt).
  { clear. induction gantt as [|sl gantt [IH|IH]]; [left; constructor| |].
    - destruct (Z_lt_dec (-100000000) (PID sl)),
        (Z_lt_dec (PID sl) 1000000000);
        [left; constructor; [lia | exact IH] | | |];
        right; apply Exists_cons; left; lia.
    - right. apply Exists_cons. now right. }
  assert (Hexcl : Forall (fun sl => -100000000 < PID sl < 1000000000) gantt ->
                  Exists (fun sl => 1000000000 <= PID sl
                                    \/ PID sl <= -100000000) gantt -> False).
  { clear. intros HF HE. rewrite List.Forall_forall in HF.
    rewrite List.Exists_exists in HE. destruct HE as (sl & Hin & H).
    specialize (HF sl Hin). lia. }
  unfold outputGantt.
  destruct (Gantt.cells gantt) as [text ending]. simpl in Hok, Hbad.
  destruct Hdec as [H|H].
  - rewrite (Hok H). simpl. split; split; auto; try discriminate.
    intros HE. exfalso. eauto.
  - rewrite (Hbad H). simpl. split; split; auto; try discriminate.
    intros HF. exfalso. eauto.
Qed.

Lemma outputGantt_panics_on_long_id_witness :
  Exists (fun sl => 1000000000 <= PID sl \/ PID sl <= -100000000)
         [mkTimeSlice 7 0 5; mkTimeSlice 1234567890 5 8]
  /\ snd (outputGantt [mkTimeSlice 7 0 5; mkTimeSlice 1234567890 5 8])
     = Panicked.
Proof.
  assert (H : Exists (fun sl => 1000000000 <= PID sl \/ PID sl <= -100000000)
                     [mkTimeSlice 7 0 5; mkTimeSlice 1234567890 5 8]).
  { apply Exists_cons. right. apply Exists_cons. left. simpl. lia. }
  split; [exact H|].
  exact (proj2 (proj1 (outputGantt_panics_on_long_id _)) H).
Defined.

Lemma cells_same_ids (g1 g2 : list TimeSlice) :
  map PID g1 = map PID g2 -> Gantt.cells g1 = Gantt.cells g2.
Proof.
  revert g2. induction g1 as [|a g1 IH]; intros [|b g2] H; try discriminate;
    [reflexivity|].
  simpl in H. injection H as Hpid Hrest. simpl.
  now rewrite Hpid, (IH g2 Hrest).
Qed.

Lemma times_same_starts (g1 g2 : list TimeSlice) :
  map Start g1 = map Start g2 ->
  List.last (map Stop g1) 0 = List.last (map Stop g2) 0 ->
  Gantt.times g1 = Gantt.times g2.
Proof.
  revert g2. induction g1 as [|a g1 IH]; intros [|b g2] H Hlast;
    try discriminate; [reflexivity|].
  simpl in H. injection H as Hstart Hrest.
  simpl Gantt.times. rewrite Hstart. do 2 f_equal.
  destruct g1 as [|a' g1], g2 as [|b' g2]; try discriminate.
  - simpl in Hlast. now rewrite Hlast.
  - apply IH; [exact Hrest | exact Hlast].
Qed.

(** X5. Of the stops, [outputGantt] prints the last one only: two charts
    with the same ids, the same starts and the same last stop are printed
    alike, so an idle gap or an overlap between two intervals does not
    show. *)
Theorem outputGantt_shows_last_stop_only (g1 g2 : list TimeSlice) :
  map PID g1 = map PID g2 ->
  map Start g1 = map Start g2 ->
  List.last (map Stop g1) 0 = List.last (map Stop g2) 0 ->
  outputGantt g1 = outputGantt g2.
Proof.
  intros Hpid Hstart Hlast. unfold outputGantt.
  now rewrite (cells_same_ids g1 g2 Hpid),
    (times_same_starts g1 g2 Hstart Hlast).
Qed.

Lemma outputGantt_shows_last_stop_only_witness :
  outputGantt [mkTimeSlice 1 1 6; mkTimeSlice 2 7 10]
  = outputGantt [mkTimeSlice 1 1 7; mkTimeSlice 2 7 10].
Proof.
  apply outputGantt_shows_last_stop_only; reflexivity.
Defined.

(** ** loadProcesses *)

Lemma bind_Ok {A B : Type} (o : outcome A) (k : A -> outcome B) (b : B) :
  bind o k = Ok b <-> exists a, o = Ok a /\ k a = Ok b.
Proof.
  destruct o; simpl; split; try (intros (a' & H & _); discriminate);
    try discriminate; eauto.
  intros (a' & H & Hk). now injection H as <-.
Qed.

Lemma parseDigits_nonneg (s : string) (acc z : Z) :
  0 <= acc -> Strconv.parseDigits acc s = Some z -> 0 <= z.
Proof.
  revert acc. induction s as [|c s IH]; intros acc Hacc; simpl.
  - now intros [= <-].
  - unfold Strconv.digitValue.
    destruct ((48 <=? Z.of_N (N_of_ascii c)) && (Z.of_N (N_of_ascii c) <=? 57))
      eqn:E; [|discriminate].
    apply andb_prop in E as [E1 E2].
    apply Z.leb_le in E1. apply IH. lia.
Qed.

(** What [mustStrToInt] returns is a number of the [int64] range. *)
Lemma ParseInt_in_range (s : string) (z : Z) :
  Strconv.ParseInt s = Some z -> Int64.in_range z.
Proof.
  unfold Strconv.ParseInt. destruct s as [|c s]; [discriminate|].
  destruct (Strconv.ParseUint _) as [un|] eqn:Hun; [|discriminate].
  assert (0 <= un).
  { unfold Strconv.ParseUint in Hun.
    destruct (if Ascii.eqb c "+" then s
              else if Ascii.eqb c "-" then s else String c s);
      [discriminate|].
    destruct (Strconv.parseDigits 0 _) as [n|] eqn:Hn; [|discriminate].
    apply parseDigits_nonneg in Hn; [|lia].
    destruct (n <=? 2 ^ 64 - 1); [|discriminate]. now injection Hun as <-. }
  destruct (Ascii.eqb c "-"); simpl;
    destruct (2 ^ 63 <=? un) eqn:E1, (2 ^ 63 <? un) eqn:E2;
    try discriminate; intros [= <-]; int64_lia.
Qed.

Lemma field_parsed (row : list string) (j : nat) (z : Z) :
  (do s <- field row j; mustStrToInt s) = Ok z <-> parsed row j z.
Proof.
  unfold parsed, field, mustStrToInt.
  destruct (nth_error row j) as [s|]; simpl.
  - destruct (Strconv.ParseInt s) as [i|] eqn:E.
    + split; [intros [= <-]; eauto | intros (s' & [= <-] & H); congruence].
    + split; [discriminate | intros (s' & [= <-] & H); congruence].
  - split; [discriminate | intros (s' & H & _); discriminate].
Qed.

Lemma loadRow_loadsAs (row : list string) (p : Process) :
  loadRow row = Ok p <-> loadsAs row p.
Proof.
  unfold loadRow, loadsAs. split.
  - intros H.
    apply bind_Ok in H as (id & Hid & H).
    apply bind_Ok in H as (burst & Hburst & H).
    apply bind_Ok in H as (arrival & Harrival & H).
    apply bind_Ok in H as (priority & Hpriority & H).
    injection H as <-. simpl.
    apply field_parsed in Hid, Hburst, Harrival.
    repeat split; auto.
    destruct (length row =? 4)%nat.
    + now apply field_parsed.
    + now injection Hpriority as <-.
  - intros (Hid & Hburst & Harrival & Hpriority & He & Ht & Hw).
    apply field_parsed in Hid, Hburst, Harrival.
    rewrite Hid, Hburst, Harrival. simpl.
    assert (Hp : (if (length row =? 4)%nat
                  then do s <- field row 3; mustStrToInt s
                  else Ok 0) = Ok (Priority p)).
    { destruct (length row =? 4)%nat;
        [now apply field_parsed | now rewrite Hpriority]. }
    rewrite Hp. simpl. destruct p; simpl in *. now subst.
Qed.

Lemma loadRows_loadsAs (rows : list (list string)) (ps : list Process) :
  loadRows rows = Ok ps <-> Forall2 loadsAs rows ps.
Proof.
  revert ps. induction rows as [|row rows IH]; intros ps; simpl.
  - split; [intros [= <-]; constructor | intros H; now inversion H].
  - rewrite bind_Ok. split.
    + intros (p & Hp & H). apply bind_Ok in H as (ps' & Hps & H).
      injection H as <-. constructor; [now apply loadRow_loadsAs|].
      now apply IH.
    + intros H. inversion H as [|? p ? ps' Hp Hps]; subst.
      exists p. split; [now apply loadRow_loadsAs|].
      apply IH in Hps. now rewrite Hps.
Qed.

(** X1. [loadProcesses] succeeds exactly when every row has its first
    three fields and they parse as [int64] numbers, and the fourth too
    when the row has exactly four fields. The processes follow the rows in
    order: field 1 is the id, field 2 the burst, field 3 the arrival; the
    priority is field 4 of a row of four fields and 0 for any other row;
    exit, turnaround and wait are 0. Nothing else is checked. *)
Theorem loadProcesses_loads_rows (rows : list (list string))
        (ps : list Process) :
  loadProcesses (Some rows) = Ok ps <-> Forall2 loadsAs rows ps.
Proof. exact (loadRows_loadsAs rows ps). Qed.

Lemma loadProcesses_loads_rows_witness :
  Forall2 loadsAs [["1"; "5"; "0"]; ["2"; "-3"; "1"; "4"; "x"]]
          [proc 1 0 5 0; proc 2 1 (-3) 0]
  /\ loadProcesses (Some [["1"; "5"; "0"]; ["2"; "-3"; "1"; "4"; "x"]])
     = Ok [proc 1 0 5 0; proc 2 1 (-3) 0].
Proof.
  assert (H : Forall2 loadsAs [["1"; "5"; "0"]; ["2"; "-3"; "1"; "4"; "x"]]
                      [proc 1 0 5 0; proc 2 1 (-3) 0]).
  { repeat constructor; simpl; unfold parsed; simpl; eauto. }
  split; [exact H|].
  exact (proj2 (loadProcesses_loads_rows _ _) H).
Defined.

Lemma loadRows_after (pre rest : list (list string)) (ps0 : list Process) :
  loadRows pre = Ok ps0 ->
  loadRows (pre ++ rest) = (do ps <- loadRows rest; Ok (ps0 ++ ps)).
Proof.
  revert ps0. induction pre as [|row pre IH]; intros ps0; simpl.
  - intros [= <-]. now destruct (loadRows rest).
  - destruct (loadRow row) as [p| | |]; simpl; try discriminate.
    destruct (loadRows pre) as [ps| | |]; simpl; try discriminate.
    intros [= <-]. rewrite (IH ps eq_refl).
    now destruct (loadRows rest).
Qed.

Lemma loadRows_stops (pre post : list (list string)) (row : list string)
      (ps0 : list Process) (ending : outcome Process) :
  loadRows pre = Ok ps0 ->
  loadRow row = ending ->
  (forall p, ending <> Ok p) ->
  loadProcesses (Some (pre ++ row :: post))
  = match ending with
    | Ok _ => Panicked
    | Failed e => Failed e
    | Exited status => Exited status
    | Panicked => Panicked
    end.
Proof.
  intros Hpre Hrow Hbad. simpl. rewrite (loadRows_after _ _ _ Hpre). simpl.
  rewrite Hrow. destruct ending; simpl; auto. now destruct (Hbad a).
Qed.



(** X3. A field that is no [int64] number makes [loadProcesses] end the
    program with status 1, when the rows before it load and the fields
    before it in its row are numbers: this holds for fields 1 to 3 of any
    row and for field 4 of a row of four fields, so for a header line. *)
Theorem loadProcesses_exits_on_bad_number
        (pre post : list (list string)) (row : list string)
        (ps0 : list Process) (j : nat) (s : string) :
  loadProcesses (Some pre) = Ok ps0 ->
  (forall i, (i < j)%nat -> exists z, parsed row i z) ->
  nth_error row j = Some s ->
  Strconv.ParseInt s = None ->
  (j < 3)%nat \/ (j = 3%nat /\ length row = 4%nat) ->
  loadProcesses (Some (pre ++ row :: post)) = Exited 1.
Proof.
  intros Hpre Hbefore Hj Hs Hwhere.
  apply (loadRows_stops pre post row ps0 (Exited 1) Hpre);
    [|discriminate].
  assert (Hbad : (do s <- field row j; mustStrToInt s) = Exited 1).
  { unfold field, mustStrToInt. rewrite Hj. simpl. now rewrite Hs. }
  assert (Hgood : forall i, (i < j)%nat ->
                   exists z, (do s <- field row i; mustStrToInt s) = Ok z).
  { intros i Hi. destruct (Hbefore i Hi) as [z Hz]. exists z.
    now apply field_parsed. }
  unfold loadRow.
  destruct j as [|[|[|[|j]]]]; try lia.
  - now rewrite Hbad.
  - destruct (Hgood 0%nat ltac:(lia)) as [z0 ->]. simpl. now rewrite Hbad.
  - destruct (Hgood 0%nat ltac:(lia)) as [z0 ->].
    destruct (Hgood 1%nat ltac:(lia)) as [z1 ->]. simpl. now rewrite Hbad.
  - destruct (Hgood 0%nat ltac:(lia)) as [z0 ->].
    destruct (Hgood 1%nat ltac:(lia)) as [z1 ->].
    destruct (Hgood 2%nat ltac:(lia)) as [z2 ->]. simpl.
    destruct Hwhere as [|[_ ->]]; [lia|]. simpl. now rewrite Hbad.
Qed.

Lemma loadProcesses_exits_on_bad_number_witness :
  loadProcesses (Some ([] ++ ["ID"; "Burst"; "Arrival"] :: [["1"; "5"; "0"]]))
  = Exited 1.
Proof.
  apply (loadProcesses_exits_on_bad_number [] _ _ [] 0 "ID");
    [reflexivity | intros i Hi; lia | reflexivity | reflexivity | left; lia].
Defined.

(** ** The four calls of main *)

(** A stable sort keeps an order that the list had: the outcome is in
    the order of [less] and, between ties, in the former order. *)
Lemma insertStable_thenBy {A : Type} (less : A -> A -> bool)
      (R : A -> A -> Prop) (x : A) (l : list A) :
  (forall x y, less x y = true -> less y x = false) ->
  (forall x y z, notAfter less x y -> notAfter less y z -> notAfter less x z) ->
  Forall (R x) l ->
  StronglySorted (thenBy less R) l ->
  StronglySorted (notAfter less) l ->
  StronglySorted (thenBy less R) (insertStable less x l).
Proof.
  intros Hasym Htrans HR Hs Hn. revert HR Hn.
  induction Hs as [|y l Hs IH Hy]; intros HR Hn; simpl.
  - repeat constructor.
  - apply Forall_cons_1 in HR as [HRy HRl].
    apply StronglySorted_inv in Hn as [Hn Hyl].
    destruct (less y x) eqn:Hyx.
    + constructor; [now apply IH|].
      rewrite <- insertStable_Permutation.
      constructor; [now left | exact Hy].
    + constructor; [now constructor|].
      constructor; [right; split; assumption|].
      rewrite List.Forall_forall in *. intros z Hz. right. split.
      * apply (Htrans x y z); [exact Hyx | now apply Hyl].
      * now apply HRl.
Qed.

Lemma sortStable_thenBy {A : Type} (less : A -> A -> bool)
      (R : A -> A -> Prop) (l : list A) :
  (forall x y, less x y = true -> less y x = false) ->
  (forall x y z, notAfter less x y -> notAfter less y z -> notAfter less x z) ->
  StronglySorted R l ->
  StronglySorted (thenBy less R) (sortStable less l).
Proof.
  intros Hasym Htrans. induction 1 as [|x l Hs IH Hx]; simpl; [constructor|].
  apply insertStable_thenBy; auto.
  - now rewrite <- sortStable_Permutation.
  - now apply sortStable_sorted.
Qed.

Lemma SJF_then_RR_sorted (ps : list Process) :
  StronglySorted byArrivalThenBurst
    (sortStable RR.less (sortStable SJF.less ps)).
Proof.
  eapply StronglySorted_weaken;
    [|apply (sortStable_thenBy RR.less (notAfter SJF.less));
      [exact RR_less_asym | exact RR_notAfter_trans
      |apply sortStable_sorted;
       [exact SJF_less_asym | exact SJF_notAfter_trans]]].
  intros p q [Hlt|[Hle Hb]]; unfold byArrivalThenBurst.
  - left. unfold RR.less in Hlt. lia.
  - unfold RR.less in Hle. unfold notAfter, SJF.less in Hb. lia.
Qed.

Lemma Prio_row_ids (fuel : nat) (ps : list Process) (r : Result) :
  SJFPrioritySchedule fuel ps = Some r ->
  map rID (out_rows (snd r)) = map ProcessID ps.
Proof.
  unfold SJFPrioritySchedule.
  destruct (Prio.loop fuel ps (Prio.init ps)) as [s|] eqn:Hloop;
    [|discriminate].
  intros [= <-]. simpl. apply Prio_loop_traced in Hloop.
  induction Hloop as [|op p ops qs [Hsame _] _ IH]; simpl; [reflexivity|].
  f_equal; [|exact IH]. now rewrite Hsame.
Qed.

(** X6. [main] hands one slice to the four schedulers in turn, and
    [SJFSchedule] sorts it by burst on the way: when all four reports are
    printed, the first is that of [FCFSSchedule] on the processes in the
    order of the file and the second that of [SJFSchedule], but the third
    and the fourth are what [SJFPrioritySchedule] and [RRSchedule] return
    on the processes in the order of their bursts. So the table of the
    priority report lists the processes by burst, and round robin takes
    processes that arrive together by burst, not in the order of the
    file: the slice ends sorted by arrival and, at equal arrivals, by
    burst. *)
Theorem main_schedules_sorted_slice
        (fuel : nat) (ps final : list Process) (reports : list Output) :
  Main.schedule fuel ps = Some (final, reports, Ok tt) ->
  exists prio rr,
    reports = [snd (FCFSSchedule ps); snd (SJFSchedule ps); prio; rr]
    /\ SJFPrioritySchedule fuel (sortStable SJF.less ps)
       = Some (sortStable SJF.less ps, prio)
    /\ RRSchedule fuel (sortStable SJF.less ps) = Some (final, rr)
    /\ map rID (out_rows prio) = map ProcessID (sortStable SJF.less ps)
    /\ final = sortStable RR.less (sortStable SJF.less ps)
    /\ Permutation ps final
    /\ StronglySorted byArrivalThenBurst final.
Proof.
  unfold Main.schedule. simpl.
  destruct (Main.render _) eqn:Hfcfs; try (intros [= <- <- [=]]).
  destruct (Main.render (SJF.finish _ _)) eqn:Hsjf; try (intros [= <- <- [=]]).
  set (sorted := sortStable SJF.less ps).
  destruct (SJFPrioritySchedule fuel sorted) as [[ps' prio]|] eqn:Hprio;
    [|discriminate].
  assert (Hps' : ps' = sorted)
    by exact (Prio_returns_input sorted (ps', prio) (ex_intro _ fuel Hprio)).
  subst ps'.
  destruct (Main.render prio) eqn:Hrp; try (intros [= <- <- [=]]).
  destruct (RRSchedule fuel sorted) as [[ps' rr]|] eqn:Hrr; [|discriminate].
  intros [= <- <- Hend].
  assert (Hfinal : ps' = sortStable RR.less sorted)
    by exact (RR_returns_sorted sorted (ps', rr) (ex_intro _ fuel Hrr)).
  exists prio, rr. repeat split; auto.
  - exact (Prio_row_ids fuel sorted _ Hprio).
  - subst ps'. unfold sorted.
    now rewrite <- !sortStable_Permutation.
  - subst ps'. apply SJF_then_RR_sorted.
Qed.

Lemma main_schedules_sorted_slice_witness :
  exists final reports,
    Main.schedule 20 [proc 1 0 5 0; proc 2 0 3 0]
    = Some (final, reports, Ok tt)
    /\ final = [proc 2 0 3 0; proc 1 0 5 0]
    /\ StronglySorted byArrivalThenBurst final.
Proof.
  destruct (Main.schedule 20 [proc 1 0 5 0; proc 2 0 3 0])
    as [[[final reports] ending]|] eqn:Hrun;
    [|vm_compute in Hrun; discriminate].
  assert (Hending : ending = Ok tt)
    by (vm_compute in Hrun; congruence).
  subst ending.
  exists final, reports. split; [reflexivity|].
  destruct (main_schedules_sorted_slice _ _ _ _ Hrun)
    as (prio & rr & _ & _ & _ & _ & _ & _ & H).
  split; [|exact H].
  vm_compute in Hrun. injection Hrun as <- _. reflexivity.
Defined.

(** ** The ids on the charts *)

Lemma FCFS_chart_ids (ps : list Process) :
  map PID (out_gantt (snd (FCFSSchedule ps))) = map ProcessID ps.
Proof.
  unfold FCFSSchedule, FCFS.finish, FCFS.loop. simpl.
  enough (H : forall a,
             map PID (FCFS.gantt (fold_left FCFS.step ps a))
             = map PID (FCFS.gantt a) ++ map ProcessID ps)
    by (rewrite H; reflexivity).
  induction ps as [|p ps IH]; intros a; simpl; [now rewrite app_nil_r|].
  rewrite IH. simpl. rewrite map_app, <- app_assoc. reflexivity.
Qed.

Lemma SJF_chart_ids (ps : list Process) :
  map PID (out_gantt (snd (SJFSchedule ps)))
  = map ProcessID (sortStable SJF.less ps).
Proof.
  unfold SJFSchedule, SJF.finish, SJF.loop. simpl.
  generalize (sortStable SJF.less ps) as l.
  enough (H : forall l a,
             map PID (SJF.gantt (fold_left SJF.step l a))
             = map PID (SJF.gantt a) ++ map ProcessID l)
    by (intros l; rewrite H; reflexivity).
  induction l as [|p l IH]; intros a; simpl; [now rewrite app_nil_r|].
  rewrite IH. unfold SJF.step.
  destruct (Int64.sub (SJF.currentTime a) (ArrivalTime p) <? 0); simpl;
    rewrite map_app, <- app_assoc; reflexivity.
Qed.

Lemma known_In (ps : list Process) (p : Process) : In p ps -> known ps p.
Proof. intros H. unfold known. now apply in_map. Qed.

Lemma knownIDs_snoc (ps : list Process) (g : list TimeSlice) (p : Process)
      (a b : Z) :
  knownIDs ps g -> known ps p ->
  knownIDs ps (g ++ [mkTimeSlice (ProcessID p) a b]).
Proof.
  intros Hg Hp. unfold knownIDs. apply Forall_app. split; [exact Hg|].
  constructor; [exact Hp | constructor].
Qed.

Lemma Prio_step_chart (ps : list Process) (s s' : Prio.State) :
  PrioInv.Step ps s s' -> ChartInv.Prio ps s -> ChartInv.Prio ps s'.
Proof.
  intros Hstep [Hg Hq Hc].
  assert (Hq1 : Forall (known ps)
                  (Prio.queue s ++ Prio.arrivals ps (Prio.currentTime s))).
  { apply Forall_app. split; [exact Hq|].
    apply List.Forall_forall. intros p Hp.
    apply arrivals_spec in Hp as [Hp _]. now apply known_In. }
  assert (Hsorted : forall p rest,
             sortStable Prio.less
               (Prio.queue s ++ Prio.arrivals ps (Prio.currentTime s))
             = p :: rest ->
             known ps p /\ Forall (known ps) rest).
  { intros p rest Hs.
    assert (H : Forall (known ps) (p :: rest)).
    { rewrite <- Hs. eapply Permutation_Forall; [|exact Hq1].
      apply sortStable_Permutation. }
    now apply Forall_cons_1 in H. }
  destruct Hstep as [Hr Hnil|p rest Hr Hs|Hr Hrem|Hr Hrem Hnil
                    |p rest Hr Hrem Hs];
    split; simpl; try assumption; try discriminate;
    try (constructor; fail);
    try (intros _; now apply (Hsorted p rest));
    try (now apply (Hsorted p rest));
    try (apply knownIDs_snoc; auto);
    intros _; auto.
Qed.

Lemma Prio_chart_ids (ps : list Process) (r : Result) :
  Prio_returns ps r -> knownIDs ps (out_gantt (snd r)).
Proof.
  intros [fuel H]. unfold SJFPrioritySchedule in H.
  destruct (Prio.loop fuel ps (Prio.init ps)) as [s|] eqn:Hloop;
    [|discriminate].
  injection H as <-. simpl.
  assert (Hinit : ChartInv.Prio ps (Prio.init ps))
    by (split; simpl; [constructor | constructor | discriminate]).
  apply (while_invariant (Prio.unfinished ps) (Prio.tick ps)
           (ChartInv.Prio ps)
           (fun s H _ => Prio_step_chart ps s _ (Prio_tick_step ps s) H)
           fuel (Prio.init ps) s Hinit Hloop).
Qed.

Lemma RR_iter_chart (ps : list Process) (m : gmap Z Process) (s : RR.State) :
  ChartInv.RR ps s -> ChartInv.RR ps (RR.iter m s).
Proof.
  intros [Hg Hq Hp]. unfold RR.iter.
  destruct (RR_moveArrived_spec (RR.clock s) (RR.processes s) (RR.queue s))
    as (moved & Hsplit & Hqueue & _ & _).
  destruct (RR.moveArrived (RR.clock s) (RR.processes s) (RR.queue s))
    as [pending queue]. simpl in Hsplit, Hqueue.
  rewrite Hsplit in Hp. apply Forall_app in Hp as [Hmoved Hpending].
  assert (Hqueue' : Forall (known ps) queue).
  { rewrite Hqueue. apply Forall_app. now split. }
  destruct queue as [|c queue]; [split; simpl; assumption|].
  apply Forall_cons_1 in Hqueue' as [Hc Hrest].
  destruct (RR.quantum <? BurstDuration c); split; simpl; try assumption.
  - now apply (knownIDs_snoc ps (RR.gantt s) c).
  - apply Forall_app. split; [exact Hrest|]. constructor; [exact Hc|constructor].
  - now apply (knownIDs_snoc ps (RR.gantt s) c).
Qed.

Lemma RR_chart_ids (ps : list Process) (r : Result) :
  RR_returns ps r -> knownIDs ps (out_gantt (snd r)).
Proof.
  intros [fuel H]. unfold RRSchedule in H.
  set (sorted := sortStable RR.less ps) in *.
  destruct (RR.loop fuel (RR.originals sorted) (RR.init sorted))
    as [s|] eqn:Hloop; [|discriminate].
  injection H as <-. simpl.
  assert (Hinit : ChartInv.RR ps (RR.init sorted)).
  { split; simpl; try constructor.
    eapply Permutation_Forall; [apply sortStable_Permutation|].
    apply List.Forall_forall. intros p. apply known_In. }
  apply (while_invariant RR.unfinished (RR.iter (RR.originals sorted))
           (ChartInv.RR ps)
           (fun s H _ => RR_iter_chart ps _ s H)
           fuel (RR.init sorted) s Hinit Hloop).
Qed.

(** ** How the reports end *)

Lemma outputGantt_ending (gantt : list TimeSlice) :
  snd (outputGantt gantt) = snd (Gantt.cells gantt).
Proof.
  unfold outputGantt. destruct (Gantt.cells gantt) as [text [[]| | |]];
    reflexivity.
Qed.

Lemma render_ok (ps : list Process) (o : Output) :
  shortIDs ps -> knownIDs ps (out_gantt o) -> Main.render o = Ok tt.
Proof.
  intros Hshort Hknown. unfold Main.render. rewrite outputGantt_ending.
  apply (proj1 (cells_ending _)).
  apply List.Forall_forall. intros sl Hsl.
  pose proof (proj1 (List.Forall_forall _ _) Hknown sl Hsl) as Hid.
  apply in_map_iff in Hid as (p & Hp & Hin).
  pose proof (proj1 (List.Forall_forall _ _) Hshort p Hin) as Hs.
  unfold longID in Hs. lia.
Qed.

Lemma render_panics (o : Output) :
  Exists longID (map PID (out_gantt o)) -> Main.render o = Panicked.
Proof.
  intros H. unfold Main.render. rewrite outputGantt_ending.
  apply (proj2 (cells_ending _)).
  apply List.Exists_exists in H as (id & Hin & Hlong).
  apply in_map_iff in Hin as (sl & <- & Hsl).
  apply List.Exists_exists. exists sl. split; [exact Hsl | exact Hlong].
Qed.

Lemma longID_dec (ps : list Process) :
  shortIDs ps \/ Exists longID (map ProcessID ps).
Proof.
  induction ps as [|p ps [IH|IH]]; [left; constructor| |].
  - destruct (Z_le_dec 1000000000 (ProcessID p));
      [right; apply Exists_cons; left; unfold longID; lia|].
    destruct (Z_le_dec (ProcessID p) (-100000000));
      [right; apply Exists_cons; left; unfold longID; lia|].
    left. constructor; [unfold longID; lia | exact IH].
  - right. simpl. apply Exists_cons. now right.
Qed.

Lemma shortIDs_not_long (ps : list Process) :
  shortIDs ps -> Exists longID (map ProcessID ps) -> False.
Proof.
  intros Hs Hl. apply List.Exists_exists in Hl as (id & Hin & Hlong).
  apply in_map_iff in Hin as (p & <- & Hp).
  exact (proj1 (List.Forall_forall _ _) Hs p Hp Hlong).
Qed.

Lemma knownIDs_same (ps : list Process) (g : list TimeSlice) (l : list Process) :
  map PID g = map ProcessID l -> Permutation ps l -> knownIDs ps g.
Proof.
  intros Hmap Hperm. unfold knownIDs. apply List.Forall_forall.
  intros sl Hsl.
  assert (H : In (PID sl) (map ProcessID l))
    by (rewrite <- Hmap; now apply in_map).
  eapply Permutation_in; [|exact H].
  apply Permutation_map. now symmetry.
Qed.

Lemma knownIDs_Permutation (ps ps' : list Process) (g : list TimeSlice) :
  Permutation ps' ps -> knownIDs ps' g -> knownIDs ps g.
Proof.
  intros Hperm. unfold knownIDs. apply List.Forall_impl.
  intros sl. apply Permutation_in. now apply Permutation_map.
Qed.

(** With ids that fit the cells every chart is printed: the four calls
    come down to the two loops. *)
Lemma schedule_short (fuel : nat) (ps : list Process) :
  shortIDs ps ->
  Main.schedule fuel ps
  = match SJFPrioritySchedule fuel (sortStable SJF.less ps) with
    | None => None
    | Some (_, prio) =>
        match RRSchedule fuel (sortStable SJF.less ps) with
        | None => None
        | Some (final, rr) =>
            Some (final,
                  [snd (FCFSSchedule ps); snd (SJFSchedule ps); prio; rr],
                  Ok tt)
        end
    end.
Proof.
  intros Hshort.
  pose proof (sortStable_Permutation SJF.less ps) as Hperm.
  assert (Hfcfs : Main.render (snd (FCFSSchedule ps)) = Ok tt)
    by (apply (render_ok ps); [exact Hshort|];
        eapply knownIDs_same; [apply FCFS_chart_ids | reflexivity]).
  assert (Hsjf : Main.render (snd (SJFSchedule ps)) = Ok tt)
    by (apply (render_ok ps); [exact Hshort|];
        eapply knownIDs_same; [apply SJF_chart_ids | exact Hperm]).
  unfold Main.schedule.
  change (FCFSSchedule ps) with (ps, snd (FCFSSchedule ps)).
  cbv beta iota. rewrite Hfcfs.
  change (SJFSchedule ps) with (sortStable SJF.less ps, snd (SJFSchedule ps)).
  cbv beta iota. rewrite Hsjf.
  set (sorted := sortStable SJF.less ps) in *.
  destruct (SJFPrioritySchedule fuel sorted) as [[ps' prio]|] eqn:Hprio;
    [|reflexivity].
  pose proof (Prio_returns_input sorted _ (ex_intro _ fuel Hprio)) as Hps'.
  simpl in Hps'. subst ps'.
  rewrite (render_ok ps prio Hshort)
    by (apply (knownIDs_Permutation ps sorted); [now symmetry|];
        exact (Prio_chart_ids sorted _ (ex_intro _ fuel Hprio))).
  destruct (RRSchedule fuel sorted) as [[final rr]|] eqn:Hrr; [|reflexivity].
  rewrite (render_ok ps rr Hshort)
    by (apply (knownIDs_Permutation ps sorted); [now symmetry|];
        exact (RR_chart_ids sorted _ (ex_intro _ fuel Hrr))).
  reflexivity.
Qed.

(** X7. The only crash of the four calls of [main] is the one of
    [outputGantt] on an id of ten bytes or more, and it comes with the
    first chart: the calls end in a panic exactly when a process of the
    input has such an id, and then [FCFSSchedule] is the only scheduler
    that has run, on the processes in the order of the file. No later
    chart can panic, as the charts name ids of the input only. *)
Theorem main_panics_on_first_chart
        (fuel : nat) (ps final : list Process) (reports : list Output) :
  Main.schedule fuel ps = Some (final, reports, Panicked)
  <-> Exists longID (map ProcessID ps)
      /\ final = ps /\ reports = [snd (FCFSSchedule ps)].
Proof.
  destruct (longID_dec ps) as [Hshort|Hlong].
  - rewrite (schedule_short fuel ps Hshort). split.
    + destruct (SJFPrioritySchedule _ _) as [[ps' prio]|]; [|discriminate].
      destruct (RRSchedule _ _) as [[ps'' rr]|]; discriminate.
    + intros [Hlong _]. destruct (shortIDs_not_long ps Hshort Hlong).
  - assert (Hrun : Main.schedule fuel ps
                   = Some (ps, [snd (FCFSSchedule ps)], Panicked)).
    { assert (Hfcfs : Main.render (snd (FCFSSchedule ps)) = Panicked)
        by (apply render_panics; now rewrite FCFS_chart_ids).
      unfold Main.schedule.
      change (FCFSSchedule ps) with (ps, snd (FCFSSchedule ps)).
      cbv beta iota. rewrite Hfcfs. reflexivity. }
    rewrite Hrun. split.
    + intros [= <- <-]. auto.
    + intros (_ & -> & ->). reflexivity.
Qed.

Lemma main_panics_on_first_chart_witness :
  Main.schedule 0 [proc 7 0 5 0; proc 1234567890 1 3 0]
  = Some ([proc 7 0 5 0; proc 1234567890 1 3 0],
          [snd (FCFSSchedule [proc 7 0 5 0; proc 1234567890 1 3 0])],
          Panicked).
Proof.
  apply main_panics_on_first_chart. split; [|split; reflexivity].
  apply Exists_cons. right. apply Exists_cons. left.
  unfold longID. simpl. lia.
Defined.

(** ** The whole program *)

Lemma Prio_fuel_horizon (ps : list Process) :
  valid ps -> small ps ->
  exists prio,
    SJFPrioritySchedule (Z.to_nat (horizon ps)) ps = Some (ps, prio).
Proof.
  intros Hv Hs.
  destruct (Prio_loop_total ps Hv Hs) as (s & Hloop & _ & _).
  exists (Prio.finish ps s). unfold SJFPrioritySchedule, Prio.loop in *.
  rewrite (while_more_fuel _ _ _ (Z.to_nat (horizon ps)) _ _ Hloop);
    [reflexivity|].
  pose proof (PrioInv.inv_potential _ _ (Prio_init_inv ps Hv)) as Hpot.
  simpl in Hpot. unfold PrioInv.measure. lia.
Qed.

Lemma RR_fuel_horizon (ps : list Process) :
  valid ps -> small ps ->
  exists rr,
    RRSchedule (Z.to_nat (horizon ps)) ps = Some (sortStable RR.less ps, rr).
Proof.
  intros Hv Hs. set (sorted := sortStable RR.less ps).
  destruct (RR_loop_total sorted (RR.originals sorted) (RR_sorted_valid ps Hv)
              (RR_sorted_small ps Hs)) as (s & Hloop & _ & _).
  exists (RR.finish (RR.originals sorted) s). unfold RRSchedule.
  fold sorted. unfold RR.loop in *.
  rewrite (while_more_fuel _ _ _ (Z.to_nat (horizon ps)) _ _ Hloop);
    [reflexivity|].
  unfold RRInv.measure, RRInv.waiting. simpl.
  pose proof (sortStable_Permutation RR.less ps) as Hperm. fold sorted in Hperm.
  rewrite <- (sumBurst_Permutation _ _ Hperm),
    <- (maxArrival_Permutation _ _ Hperm).
  pose proof (maxArrival_nonneg ps). unfold horizon. lia.
Qed.

Lemma schedule_total (ps : list Process) :
  valid ps -> small ps -> shortIDs ps ->
  exists prio rr,
    Main.schedule (Z.to_nat (horizon ps)) ps
    = Some (sortStable RR.less (sortStable SJF.less ps),
            [snd (FCFSSchedule ps); snd (SJFSchedule ps); prio; rr], Ok tt)
    /\ Prio_returns (sortStable SJF.less ps) (sortStable SJF.less ps, prio)
    /\ RR_returns (sortStable SJF.less ps)
         (sortStable RR.less (sortStable SJF.less ps), rr).
Proof.
  intros Hv Hs Hshort.
  pose proof (sortStable_Permutation SJF.less ps) as Hperm.
  pose proof (valid_Permutation _ _ Hperm Hv) as Hv'.
  assert (Hs' : small (sortStable SJF.less ps))
    by (unfold small; now rewrite <- (horizon_Permutation _ _ Hperm)).
  destruct (Prio_fuel_horizon _ Hv' Hs') as [prio Hprio].
  destruct (RR_fuel_horizon _ Hv' Hs') as [rr Hrr].
  rewrite <- (horizon_Permutation _ _ Hperm) in Hprio, Hrr.
  exists prio, rr. rewrite (schedule_short _ ps Hshort), Hprio, Hrr.
  split; [reflexivity|]. split; eexists; eassumption.
Qed.

(** X8. The program from the command line to the last report: given a
    file that opens and whose rows stand for valid processes, with ids
    that fit the cells of the chart and times far from the end of the
    [int64] range, [main] prints the four reports (first come first
    serve and shortest job first on the processes, then priority and
    round robin on the processes in the order of their bursts), each of
    the two loops ending within [horizon] iterations, and it ends by
    closing the file: normally, or with status 1 if the file does not
    close. *)
Theorem main_prints_four_reports
        {File : Type} (osOpen : string -> option File)
        (readAll : File -> option (list (list string)))
        (close : File -> bool)
        (prog path : string) (f : File)
        (rows : list (list string)) (ps : list Process) :
  osOpen path = Some f ->
  readAll f = Some rows ->
  Forall2 loadsAs rows ps ->
  valid ps -> small ps -> shortIDs ps ->
  exists prio rr,
    Main.main osOpen readAll close (Z.to_nat (horizon ps)) [prog; path]
    = Some ([snd (FCFSSchedule ps); snd (SJFSchedule ps); prio; rr],
            if close f then Ok tt else Exited 1)
    /\ Prio_returns (sortStable SJF.less ps) (sortStable SJF.less ps, prio)
    /\ RR_returns (sortStable SJF.less ps)
         (sortStable RR.less (sortStable SJF.less ps), rr).
Proof.
  intros Hopen Hread Hrows Hv Hs Hshort.
  destruct (schedule_total ps Hv Hs Hshort) as (prio & rr & Hrun & Hp & Hr).
  exists prio, rr. split; [|auto].
  unfold Main.main, Main.openProcessingFile. simpl.
  rewrite Hopen, Hread. simpl.
  rewrite (proj2 (loadRows_loadsAs rows ps) Hrows), Hrun. reflexivity.
Qed.

Lemma main_prints_four_reports_witness :
  exists prio rr,
    Main.main (fun _ => Some tt)
      (fun _ => Some [["1"; "5"; "0"; "2"]; ["2"; "3"; "0"; "1"]])
      (fun _ => true)
      (Z.to_nat (horizon [proc 1 0 5 2; proc 2 0 3 1]))
      ["scheduler"; "processes.csv"]
    = Some ([snd (FCFSSchedule [proc 1 0 5 2; proc 2 0 3 1]);
             snd (SJFSchedule [proc 1 0 5 2; proc 2 0 3 1]); prio; rr],
            Ok tt)
    /\ out_gantt rr = [mkTimeSlice 2 0 3; mkTimeSlice 1 3 7; mkTimeSlice 1 7 8].
Proof.
  assert (Hrows : Forall2 loadsAs
                    [["1"; "5"; "0"; "2"]; ["2"; "3"; "0"; "1"]]
                    [proc 1 0 5 2; proc 2 0 3 1])
    by (repeat constructor; simpl; unfold parsed; simpl; eauto).
  assert (Hv : valid [proc 1 0 5 2; proc 2 0 3 1])
    by (repeat constructor; simpl; lia).
  assert (Hs : small [proc 1 0 5 2; proc 2 0 3 1])
    by (vm_compute; discriminate).
  assert (Hshort : shortIDs [proc 1 0 5 2; proc 2 0 3 1])
    by (repeat constructor; unfold longID; simpl; lia).
  destruct (main_prints_four_reports (fun _ : string => Some tt)
              (fun _ => Some [["1"; "5"; "0"; "2"]; ["2"; "3"; "0"; "1"]])
              (fun _ => true) "scheduler" "processes.csv" tt _ _
              eq_refl eq_refl Hrows Hv Hs Hshort)
    as (prio & rr & Hmain & _ & Hrr).
  exists prio, rr. split; [exact Hmain|].
  destruct (RRSchedule 20 (sortStable SJF.less [proc 1 0 5 2; proc 2 0 3 1]))
    as [r|] eqn:Hrun; [|vm_compute in Hrun; discriminate].
  pose proof (RR_returns_unique _ _ _ Hrr (ex_intro _ 20%nat Hrun)) as Hsame.
  vm_compute in Hrun. injection Hrun as <-.
  apply (f_equal snd) in Hsame. cbn [snd] in Hsame. now rewrite Hsame.
Defined.

Lemma schedule_Ok_reports (fuel : nat) (ps final : list Process)
      (reports : list Output) :
  Main.schedule fuel ps = Some (final, reports, Ok tt) ->
  exists prio rr,
    reports = [snd (FCFSSchedule ps); snd (SJFSchedule ps); prio; rr].
Proof.
  unfold Main.schedule.
  change (FCFSSchedule ps) with (ps, snd (FCFSSchedule ps)). cbv beta iota.
  destruct (Main.render (snd (FCFSSchedule ps))); try discriminate.
  change (SJFSchedule ps) with (sortStable SJF.less ps, snd (SJFSchedule ps)).
  cbv beta iota.
  destruct (Main.render (snd (SJFSchedule ps))); try discriminate.
  destruct (SJFPrioritySchedule _ _) as [[ps' prio]|]; [|discriminate].
  destruct (Main.render prio); try discriminate.
  destruct (RRSchedule _ _) as [[ps'' rr]|]; [|discriminate].
  intros [= <- <- _]. eauto.
Qed.

Lemma deferred_Ok {File : Type} (close : File -> bool) (f : File)
      (ending : outcome unit) :
  Main.deferred close f ending = Ok tt -> ending = Ok tt /\ close f = true.
Proof.
  unfold Main.deferred.
  destruct ending as [[]| | |]; try discriminate;
    destruct (close f); try discriminate; auto.
Qed.

(** X9. [main] ends normally only after the four reports: if it returns
    without a panic and without [os.Exit], then it was given the name of
    the program and one path, the file opened, every row was loaded as a
    process, the four reports were printed, the first two being those of
    first come first serve and of shortest job first on the loaded
    processes, and the file was closed. *)
Theorem main_ends_normally_after_four_reports
        {File : Type} (osOpen : string -> option File)
        (readAll : File -> option (list (list string)))
        (close : File -> bool)
        (fuel : nat) (args : list string) (reports : list Output) :
  Main.main osOpen readAll close fuel args = Some (reports, Ok tt) ->
  exists prog path f rows ps prio rr,
    args = [prog; path]
    /\ osOpen path = Some f
    /\ readAll f = Some rows
    /\ Forall2 loadsAs rows ps
    /\ reports = [snd (FCFSSchedule ps); snd (SJFSchedule ps); prio; rr]
    /\ close f = true.
Proof.
  unfold Main.main, Main.openProcessingFile.
  destruct args as [|prog [|path [|extra args]]]; simpl; try discriminate.
  destruct (osOpen path) as [f|] eqn:Hopen; [|discriminate].
  destruct (readAll f) as [rows|] eqn:Hread; simpl; [|discriminate].
  destruct (loadRows rows) as [ps| | |] eqn:Hload; try discriminate.
  - destruct (Main.schedule fuel ps) as [[[final reports'] ending]|] eqn:Hrun;
      [|discriminate].
    intros [= <- Hend]. apply deferred_Ok in Hend as [-> Hclose].
    destruct (schedule_Ok_reports _ _ _ _ Hrun) as (prio & rr & Hreports).
    exists prog, path, f, rows, ps, prio, rr.
    repeat split; auto. now apply loadRows_loadsAs.
  - destruct (close f); discriminate.
Qed.

Lemma main_ends_normally_after_four_reports_witness :
  exists reports prog path f rows ps prio rr,
    Main.main (fun _ : string => Some tt)
      (fun _ => Some [["1"; "5"; "0"; "2"]; ["2"; "3"; "0"; "1"]])
      (fun _ => true) 20 ["scheduler"; "processes.csv"]
    = Some (reports, Ok tt)
    /\ ["scheduler"; "processes.csv"] = [prog; path]
    /\ Some tt = Some f
    /\ Some [["1"; "5"; "0"; "2"]; ["2"; "3"; "0"; "1"]] = Some rows
    /\ Forall2 loadsAs rows ps
    /\ reports = [snd (FCFSSchedule ps); snd (SJFSchedule ps); prio; rr].
Proof.
  destruct (Main.main (fun _ : string => Some tt)
              (fun _ => Some [["1"; "5"; "0"; "2"]; ["2"; "3"; "0"; "1"]])
              (fun _ => true) 20 ["scheduler"; "processes.csv"])
    as [[reports ending]|] eqn:Hmain; [|vm_compute in Hmain; discriminate].
  assert (Hending : ending = Ok tt) by (vm_compute in Hmain; congruence).
  subst ending.
  destruct (main_ends_normally_after_four_reports _ _ _ _ _ _ Hmain)
    as (prog & path & f & rows & ps & prio & rr & H1 & H2 & H3 & H4 & H5 & _).
  exists reports, prog, path, f, rows, ps, prio, rr.
  split; [reflexivity|]. split; [exact H1|]. split; [exact H2|].
  split; [exact H3|]. split; [exact H4 | exact H5].
Defined.

(** ** FCFSSchedule never idles *)

Lemma FCFS_loop_stops (l : list Process) (a : FCFS.Acc) :
  valid l ->
  0 <= FCFS.serviceTime a ->
  FCFS.serviceTime a + sumBurst l <= Int64.max_int ->
  map Stop (FCFS.gantt (FCFS.loop l a))
  = map Stop (FCFS.gantt a)
    ++ map Stop (BackToBack.gantt (FCFS.serviceTime a) l).
Proof.
  revert a. induction l as [|p l IH]; intros a Hv Hc Hmax.
  - simpl. now rewrite app_nil_r.
  - apply Forall_cons_1 in Hv as [[Hb Ha] Hv].
    pose proof (sumBurst_nonneg l Hv) as Hs.
    simpl in Hmax. unfold FCFS.loop in *. simpl fold_left.
    rewrite IH; [|exact Hv| |]; rewrite ?FCFS_step_serviceTime; unwrap;
      try lia.
    simpl. rewrite map_app, <- app_assoc. simpl. now unwrap.
Qed.

Lemma FCFS_step_late (a : FCFS.Acc) (p : Process) :
  validProcess p ->
  0 < ArrivalTime p ->
  0 <= FCFS.serviceTime a ->
  FCFS.serviceTime a + BurstDuration p + ArrivalTime p <= Int64.max_int ->
  let t := FCFS.serviceTime a in
  FCFS.serviceTime (FCFS.step a p) = t + BurstDuration p
  /\ FCFS.gantt (FCFS.step a p)
     = FCFS.gantt a ++ [mkTimeSlice (ProcessID p) t (t + BurstDuration p)]
  /\ FCFS.schedule (FCFS.step a p)
     = FCFS.schedule a ++
       [mkRow (ProcessID p) (Priority p) (BurstDuration p) (ArrivalTime p)
              (t - ArrivalTime p) (BurstDuration p + (t - ArrivalTime p))
              (t + BurstDuration p)].
Proof.
  intros [Hb _] Ha Hc Hmax. unfold FCFS.step. cbv zeta.
  destruct (0 <? ArrivalTime p) eqn:E; [|apply Z.ltb_ge in E; lia].
  simpl.
  rewrite (add_in_range (BurstDuration p) (ArrivalTime p)) by int64_lia.
  unwrap.
  replace (FCFS.serviceTime a - ArrivalTime p + ArrivalTime p)
    with (FCFS.serviceTime a) by lia.
  replace (BurstDuration p + ArrivalTime p
           + (FCFS.serviceTime a - ArrivalTime p))
    with (FCFS.serviceTime a + BurstDuration p) by lia.
  auto.
Qed.

Lemma FCFS_loop_late (l : list Process) (a : FCFS.Acc) :
  valid l ->
  Forall (fun p => 0 < ArrivalTime p) l ->
  0 <= FCFS.serviceTime a ->
  FCFS.serviceTime a + sumBurst l + maxArrival l <= Int64.max_int ->
  FCFS.gantt (FCFS.loop l a)
  = FCFS.gantt a ++ BackToBack.gantt (FCFS.serviceTime a) l
  /\ FCFS.schedule (FCFS.loop l a)
     = FCFS.schedule a ++ BackToBack.rows (FCFS.serviceTime a) l.
Proof.
  revert a. induction l as [|p l IH]; intros a Hv Hlate Hc Hmax.
  - simpl. now rewrite !app_nil_r.
  - apply Forall_cons_1 in Hv as [Hp Hv].
    apply Forall_cons_1 in Hlate as [Ha Hlate].
    pose proof Hp as [Hb _].
    pose proof (sumBurst_nonneg l Hv) as Hs.
    pose proof (maxArrival_nonneg l) as Hm.
    simpl in Hmax. unfold FCFS.loop in *. simpl fold_left.
    destruct (FCFS_step_late a p Hp Ha Hc ltac:(lia)) as (Ht & Hg & Hr).
    destruct (IH (FCFS.step a p) Hv Hlate) as [Hg' Hr'];
      rewrite ?Ht; try lia.
    rewrite Hg', Hr', Hg, Hr, Ht. simpl. now rewrite <- !app_assoc.
Qed.

(** X10. [FCFSSchedule] serves the processes in the order of the file,
    one after the other from time 0 and without a pause, whatever their
    arrivals. On a valid input away from the end of the integer range the
    intervals of the chart end at the running sums of the bursts; and if
    no process after the first arrives at time 0, the chart and the table
    are those of the run without a pause: each process starts where its
    predecessor ends and its wait is that start minus its arrival, which
    is negative when the process arrives later. *)
Theorem FCFS_never_idles (ps : list Process) :
  valid ps -> small ps ->
  let out := snd (FCFSSchedule ps) in
  map PID (out_gantt out) = map ProcessID ps
  /\ map Stop (out_gantt out) = map Stop (BackToBack.gantt 0 ps)
  /\ (Forall (fun p => 0 < ArrivalTime p) (tl ps) ->
      out_gantt out = BackToBack.gantt 0 ps
      /\ out_rows out = BackToBack.rows 0 ps).
Proof.
  intros Hv Hs out. split; [apply FCFS_chart_ids|].
  pose proof (maxArrival_nonneg ps) as Hm.
  pose proof (sumBurst_nonneg ps Hv) as Hb.
  split.
  - subst out. unfold FCFSSchedule, FCFS.finish. simpl.
    rewrite FCFS_loop_stops; simpl; try int64_lia; auto.
  - intros Hlate. subst out. unfold FCFSSchedule, FCFS.finish. simpl.
    destruct ps as [|p ps]; [split; reflexivity|].
    simpl in Hlate. apply Forall_cons_1 in Hv as [[Hpb Hpa] Hv].
    pose proof (maxArrival_nonneg ps) as Hm'.
    pose proof (sumBurst_nonneg ps Hv) as Hb'.
    assert (Hsum : sumBurst (p :: ps) = BurstDuration p + sumBurst ps)
      by reflexivity.
    assert (Hmax : maxArrival (p :: ps)
                   = Z.max (ArrivalTime p) (maxArrival ps)) by reflexivity.
    destruct (Z.eq_dec (ArrivalTime p) 0) as [E|E].
    + change (FCFS.loop (p :: ps) FCFS.init)
        with (FCFS.loop ps (FCFS.step FCFS.init p)).
      assert (Hstep : FCFS.step FCFS.init p
                      = FCFS.mkAcc (BurstDuration p) 0 (BurstDuration p)
                          (BurstDuration p) 0
                          [mkRow (ProcessID p) (Priority p) (BurstDuration p)
                                 0 0 (BurstDuration p) (BurstDuration p)]
                          [mkTimeSlice (ProcessID p) 0 (BurstDuration p)]).
      { unfold FCFS.step. rewrite E. simpl.
        rewrite !(add_in_range (BurstDuration p) 0) by int64_lia.
        rewrite !Z.add_0_r. unwrap. rewrite ?Z.add_0_r. reflexivity. }
      destruct (FCFS_loop_late ps (FCFS.step FCFS.init p) Hv Hlate)
        as [Hg Hr]; [rewrite Hstep; simpl; lia
                    |rewrite Hstep; simpl; int64_lia|].
      rewrite Hg, Hr, Hstep. simpl. rewrite E.
      rewrite !Z.sub_0_r, !Z.add_0_r. split; reflexivity.
    + apply (FCFS_loop_late (p :: ps) FCFS.init);
        [constructor; [split; lia | exact Hv]
        |constructor; [lia | exact Hlate]
        |simpl; lia
        |cbn [FCFS.serviceTime FCFS.init]; int64_lia].
Qed.

Lemma FCFS_never_idles_witness :
  valid [proc 1 0 2 0; proc 2 9 3 0]
  /\ small [proc 1 0 2 0; proc 2 9 3 0]
  /\ out_gantt (snd (FCFSSchedule [proc 1 0 2 0; proc 2 9 3 0]))
     = [mkTimeSlice 1 0 2; mkTimeSlice 2 2 5]
  /\ out_rows (snd (FCFSSchedule [proc 1 0 2 0; proc 2 9 3 0]))
     = [mkRow 1 0 2 0 0 2 2; mkRow 2 0 3 9 (-7) (-4) 5].
Proof.
  assert (Hv : valid [proc 1 0 2 0; proc 2 9 3 0])
    by (repeat constructor; simpl; lia).
  assert (Hs : small [proc 1 0 2 0; proc 2 9 3 0])
    by (vm_compute; discriminate).
  split; [exact Hv|]. split; [exact Hs|].
  apply (FCFS_never_idles _ Hv Hs).
  repeat constructor; simpl; lia.
Defined.

(** ** The charts as timelines *)

Lemma StronglySorted_snoc {A : Type} (R : A -> A -> Prop) (l : list A)
      (x : A) :
  StronglySorted R l -> Forall (fun a => R a x) l ->
  StronglySorted R (l ++ [x]).
Proof.
  induction 1 as [|a l Hs IH Ha]; intros Hx; simpl.
  - repeat constructor.
  - apply Forall_cons_1 in Hx as [Hax Hx].
    constructor; [now apply IH|].
    apply Forall_app. split; [exact Ha|]. now constructor.
Qed.

Lemma afterArrival_Permutation (ps ps' : list Process) (g : list TimeSlice) :
  Permutation ps' ps -> afterArrival ps' g -> afterArrival ps g.
Proof.
  intros Hperm. unfold afterArrival. apply List.Forall_impl.
  intros sl (p & Hin & Hid & Ha). exists p. split; [|auto].
  eapply Permutation_in; eauto.
Qed.

Lemma sjf_gantt_timeline (t : Z) (l : list Process) :
  valid l ->
  timeline (Contract.sjf_gantt t l)
  /\ Forall (fun sl => t <= Start sl) (Contract.sjf_gantt t l)
  /\ afterArrival l (Contract.sjf_gantt t l).
Proof.
  intros Hv. revert t.
  induction Hv as [|p l [Hb Ha] Hv IH]; intros t; simpl.
  - repeat constructor.
  - destruct (IH (Z.max t (ArrivalTime p) + BurstDuration p))
      as (Hs & Hfrom & Harr).
    split; [|split].
    + constructor; [exact Hs|].
      eapply Forall_impl; [exact Hfrom|]. simpl. intros; lia.
    + constructor; [simpl; lia|].
      eapply Forall_impl; [exact Hfrom|]. simpl. intros; lia.
    + constructor.
      * exists p. simpl. repeat split; auto; lia.
      * eapply List.Forall_impl; [|exact Harr].
        intros sl (q & Hin & Hid & Hq). exists q. simpl. auto.
Qed.

Lemma SJF_timeline (ps : list Process) :
  valid ps -> small ps ->
  timeline (out_gantt (snd (SJFSchedule ps)))
  /\ afterArrival ps (out_gantt (snd (SJFSchedule ps))).
Proof.
  intros Hv Hs. simpl.
  pose proof (sortStable_Permutation SJF.less ps) as Hperm.
  pose proof (maxArrival_nonneg ps) as Hm.
  pose proof (valid_Permutation _ _ Hperm Hv) as Hv'.
  assert (Hsmall := Hs). unfold small, horizon in Hsmall.
  rewrite (sumBurst_Permutation _ _ Hperm),
    (maxArrival_Permutation _ _ Hperm) in *.
  destruct (SJF_loop_small (sortStable SJF.less ps) SJF.init) as [Hg _].
  - exact Hv'.
  - simpl. lia.
  - simpl. int64_lia.
  - simpl in Hg. rewrite Hg.
    destruct (sjf_gantt_timeline 0 _ Hv') as (Ht & _ & Ha).
    split; [exact Ht|].
    apply (afterArrival_Permutation ps (sortStable SJF.less ps));
      [now symmetry | exact Ha].
Qed.

Lemma RR_iter_timeline (input : list Process) (m : gmap Z Process)
      (s : RR.State) :
  small input ->
  RRInv.Inv input s -> RR.unfinished s = true ->
  Timeline.RR input s -> Timeline.RR input (RR.iter m s).
Proof.
  intros Hsmall [Hc Hv Hb Hcomp Hcnt Hsl Hw] Hun [Hsort Hpast Harr Hq Hp].
  unfold small, horizon in Hsmall.
  unfold RR.iter.
  destruct (RR_moveArrived_spec (RR.clock s) (RR.processes s) (RR.queue s))
    as (moved & Hpm & Hqm & Hm & Hnext).
  destruct (RR.moveArrived _ _ _) as [pending queue]. simpl in Hpm, Hqm, Hnext.
  unfold RRInv.waiting in *.
  assert (Hsame : RR.queue s ++ RR.processes s = queue ++ pending).
  { rewrite Hpm at 1. rewrite Hqm. now rewrite app_assoc. }
  rewrite Hsame in *. rewrite Hpm in Hp.
  apply Forall_app in Hp as [Hmoved Hpending].
  assert (Hq' : Forall (Timeline.arrived input (RR.clock s)) queue).
  { rewrite Hqm. apply Forall_app. split; [exact Hq|].
    apply List.Forall_forall. intros p Hin.
    pose proof (proj1 (List.Forall_forall _ _) Hmoved p Hin).
    pose proof (proj1 (List.Forall_forall _ _) Hm p Hin) as Ha.
    simpl in Ha. exists p. auto. }
  assert (HM : maxArrival pending <= maxArrival (RR.processes s)).
  { rewrite Hpm, maxArrival_app. lia. }
  pose proof (maxArrival_nonneg pending) as HM0.
  pose proof (sumBurst_nonneg _ Hv) as HW0.
  assert (Hlater : forall c c', c <= c' ->
            forall q, Timeline.arrived input c q ->
                      Timeline.arrived input c' q).
  { intros c c' Hle q (p & Hin & Hid & Ha). exists p.
    repeat split; auto; lia. }
  destruct queue as [|c queue].
  - destruct pending as [|p pending].
    + exfalso. unfold RR.unfinished in Hun.
      destruct moved; [|destruct (RR.queue s); discriminate].
      simpl in Hpm. rewrite Hpm in Hun. rewrite app_nil_r in Hqm.
      rewrite <- Hqm in Hun. discriminate.
    + simpl in *. split; simpl; unwrap; try int64_lia; auto.
      eapply Forall_impl; [exact Hpast|]. simpl. intros; lia.
  - apply Forall_cons_1 in Hv as [[Hcb Hca] Hv].
    pose proof (sumBurst_nonneg _ Hv) as HW1.
    simpl in Hb, HW0. rewrite sumBurst_app in *.
    apply Forall_cons_1 in Hq' as [(p0 & Hin0 & Hid0 & Ha0) Hq'].
    unfold RR.quantum in *.
    destruct (4 <? BurstDuration c) eqn:E;
      [apply Z.ltb_lt in E | apply Z.ltb_ge in E].
    + split; simpl; unwrap; auto.
      * apply StronglySorted_snoc; [exact Hsort|].
        eapply Forall_impl; [exact Hpast|]. simpl. intros; lia.
      * apply Forall_app. split.
        -- eapply Forall_impl; [exact Hpast|]. simpl. intros; lia.
        -- repeat constructor. simpl. lia.
      * apply Forall_app. split; [exact Harr|].
        repeat constructor. exists p0. simpl. auto.
      * apply Forall_app. split.
        -- eapply List.Forall_impl; [|exact Hq'].
           apply Hlater. lia.
        -- repeat constructor. exists p0. simpl.
           repeat split; auto; lia.
    + split; simpl; unwrap; auto.
      * apply StronglySorted_snoc; [exact Hsort|].
        eapply Forall_impl; [exact Hpast|]. simpl. intros; lia.
      * apply Forall_app. split.
        -- eapply Forall_impl; [exact Hpast|]. simpl. intros; lia.
        -- repeat constructor. simpl. lia.
      * apply Forall_app. split; [exact Harr|].
        repeat constructor. exists p0. simpl. auto.
      * eapply List.Forall_impl; [|exact Hq'].
        apply Hlater. lia.
Qed.

Lemma RR_timeline (ps : list Process) :
  valid ps -> small ps ->
  exists r,
    RR_returns ps r
    /\ timeline (out_gantt (snd r))
    /\ afterArrival ps (out_gantt (snd r)).
Proof.
  intros Hv Hs.
  set (sorted := sortStable RR.less ps).
  set (m := RR.originals sorted).
  pose proof (RR_sorted_valid ps Hv) as Hv'.
  pose proof (RR_sorted_small ps Hs) as Hs'.
  fold sorted in Hv', Hs'.
  destruct (RR_loop_total sorted m Hv' Hs') as (s & Hloop & Hinv & _).
  assert (Hinit : Timeline.RR sorted (RR.init sorted)).
  { split; simpl; try constructor.
    apply List.Forall_forall. auto. }
  assert (Htim : Timeline.RR sorted s).
  { apply (while_invariant RR.unfinished (RR.iter m)
             (fun s => RRInv.Inv sorted s /\ Timeline.RR sorted s)
             (fun s H Hc =>
                conj (proj1 (RR_iter_inv sorted m s Hs' (proj1 H) Hc))
                     (RR_iter_timeline sorted m s Hs' (proj1 H) Hc (proj2 H)))
             _ (RR.init sorted) s
             (conj (RR_init_inv sorted Hv') Hinit) Hloop). }
  exists (sorted, RR.finish m s). split; [|split].
  - exists (RRInv.measure (RR.init sorted)). unfold RRSchedule.
    fold sorted. fold m. now rewrite Hloop.
  - exact (Timeline.rr_sorted _ _ Htim).
  - apply (afterArrival_Permutation ps sorted);
      [symmetry; apply sortStable_Permutation
      |exact (Timeline.rr_arrival _ _ Htim)].
Qed.

Lemma Prio_step_timeline (ps : list Process) (s s' : Prio.State) :
  valid ps -> small ps ->
  PrioInv.Inv ps s -> Prio.unfinished ps s = true ->
  PrioInv.Step ps s s' ->
  Timeline.Prio s -> Timeline.Prio s'.
Proof.
  intros Hv Hsmall Hinv Hun Hstep [Hsort Hnext].
  pose proof (Prio_potential_pos ps s Hv Hinv Hun) as Hpot.
  destruct Hinv as [Ht Hmem Hrem Hsta Hque Hbound Hcomp Hled Hsl Hpast].
  unfold PrioInv.running in *.
  destruct s as [t done isRunning cur rem queue gantt originals].
  simpl in *.
  assert (Hadd : Int64.add t 1 = t + 1) by (apply add_in_range; int64_lia).
  assert (Hcur : isRunning = true ->
                 0 < BurstDuration cur <= sumBurst ps).
  { intros ->. apply Forall_cons_1 in Hmem as [Hin _].
    pose proof (proj1 (List.Forall_forall _ _) Hv cur Hin) as [Hb _].
    pose proof (burst_le_sum ps cur Hv Hin). lia. }
  pose proof (maxArrival_nonneg ps) as HM.
  destruct Hstep as [Hr Hq1 | p rest Hr Hsort' | Hr Hnz | Hr Hz Hq1
                    | p rest Hr Hz Hsort'];
    simpl in *; rewrite Hadd; split; simpl; try exact Hsort;
    try (intros; discriminate).
  - (* start *)
    intros _. eapply Forall_impl; [exact Hpast|]. simpl. intros; lia.
  - (* run *)
    intros _. specialize (Hrem Hr). specialize (Hcur Hr).
    rewrite sub_in_range by int64_lia.
    eapply Forall_impl; [exact (Hnext Hr)|]. simpl. intros; lia.
  - (* finish *)
    specialize (Hcur Hr). rewrite sub_in_range by int64_lia.
    apply StronglySorted_snoc; [exact Hsort|].
    eapply Forall_impl; [exact (Hnext Hr)|]. simpl. intros; lia.
  - (* finish, then start *)
    specialize (Hcur Hr). rewrite sub_in_range by int64_lia.
    apply StronglySorted_snoc; [exact Hsort|].
    eapply Forall_impl; [exact (Hnext Hr)|]. simpl. intros; lia.
  - intros _. specialize (Hcur Hr). rewrite sub_in_range by int64_lia.
    apply Forall_app. split.
    + eapply Forall_impl; [exact Hpast|]. simpl. intros; lia.
    + repeat constructor. simpl. lia.
Qed.

Lemma Prio_timeline (ps : list Process) :
  valid ps -> small ps ->
  exists r,
    Prio_returns ps r
    /\ StronglySorted (fun a b => Stop a < Start b) (out_gantt (snd r))
    /\ Forall
         (fun sl =>
            exists p,
              In p ps /\ ProcessID p = PID sl
              /\ ArrivalTime p < Start sl
              /\ Stop sl = Start sl + BurstDuration p)
         (out_gantt (snd r)).
Proof.
  intros Hv Hs.
  destruct (Prio_loop_total ps Hv Hs) as (s & Hloop & Hinv & _).
  assert (Hinit : Timeline.Prio (Prio.init ps))
    by (split; simpl; [constructor | discriminate]).
  assert (Htim : Timeline.Prio s).
  { apply (while_invariant (Prio.unfinished ps) (Prio.tick ps)
             (fun s => PrioInv.Inv ps s /\ Timeline.Prio s)
             (fun s H Hc =>
                conj (proj1 (Prio_tick_inv ps s Hv Hs (proj1 H) Hc))
                     (Prio_step_timeline ps s _ Hv Hs (proj1 H) Hc
                        (Prio_tick_step ps s) (proj2 H)))
             _ (Prio.init ps) s
             (conj (Prio_init_inv ps Hv) Hinit) Hloop). }
  exists (ps, Prio.finish ps s). split; [|split].
  - exists (PrioInv.measure ps (Prio.init ps)).
    unfold SJFPrioritySchedule. now rewrite Hloop.
  - exact (Timeline.prio_sorted _ Htim).
  - simpl. eapply List.Forall_impl; [|exact (PrioInv.inv_slices _ _ Hinv)].
    intros sl (p & Hin & Hid & Hstart & Harr). exists p.
    repeat split; auto; lia.
Qed.

(** X13. On a valid input away from the end of the integer range, the
    charts of [SJFSchedule], [SJFPrioritySchedule] and [RRSchedule] are
    timelines: the intervals come in the order of time and do not
    overlap, an interval ending before the next one starts. On the chart
    of [SJFPrioritySchedule] at least one tick lies between two
    intervals. *)
Theorem charts_are_timelines_outside_FCFS (ps : list Process) :
  valid ps -> small ps ->
  timeline (out_gantt (snd (SJFSchedule ps)))
  /\ (exists r, Prio_returns ps r
                /\ StronglySorted (fun a b => Stop a + 1 <= Start b)
                     (out_gantt (snd r)))
  /\ (exists r, RR_returns ps r /\ timeline (out_gantt (snd r))).
Proof.
  intros Hv Hs. split; [|split].
  - apply (SJF_timeline ps Hv Hs).
  - destruct (Prio_timeline ps Hv Hs) as (r & Hr & Hsort & _).
    exists r. split; [exact Hr|].
    eapply StronglySorted_weaken; [|exact Hsort]. simpl. intros; lia.
  - destruct (RR_timeline ps Hv Hs) as (r & Hr & Hsort & _). eauto.
Qed.

Lemma charts_are_timelines_outside_FCFS_witness :
  timeline (out_gantt (snd (SJFSchedule scenario)))
  /\ (exists r, Prio_returns scenario r
                /\ StronglySorted (fun a b => Stop a + 1 <= Start b)
                     (out_gantt (snd r)))
  /\ (exists r, RR_returns scenario r /\ timeline (out_gantt (snd r))).
Proof.
  exact (charts_are_timelines_outside_FCFS scenario scenario_valid
           scenario_small).
Defined.

(** X14. On a valid input away from the end of the integer range, no
    interval on the charts of [SJFSchedule], [SJFPrioritySchedule] and
    [RRSchedule] starts before a process of its id has arrived; on the
    chart of [SJFPrioritySchedule] every interval starts after the
    arrival, not at it, and has the length of the burst. *)
Theorem no_run_before_arrival_outside_FCFS (ps : list Process) :
  valid ps -> small ps ->
  afterArrival ps (out_gantt (snd (SJFSchedule ps)))
  /\ (exists r, Prio_returns ps r
                /\ Forall
                     (fun sl =>
                        exists p,
                          In p ps /\ ProcessID p = PID sl
                          /\ ArrivalTime p < Start sl
                          /\ Stop sl = Start sl + BurstDuration p)
                     (out_gantt (snd r)))
  /\ (exists r, RR_returns ps r /\ afterArrival ps (out_gantt (snd r))).
Proof.
  intros Hv Hs. split; [|split].
  - apply (SJF_timeline ps Hv Hs).
  - destruct (Prio_timeline ps Hv Hs) as (r & Hr & _ & Harr). eauto.
  - destruct (RR_timeline ps Hv Hs) as (r & Hr & _ & Harr). eauto.
Qed.

Lemma no_run_before_arrival_outside_FCFS_witness :
  afterArrival scenario (out_gantt (snd (SJFSchedule scenario)))
  /\ (exists r, Prio_returns scenario r
                /\ Forall
                     (fun sl =>
                        exists p,
                          In p scenario /\ ProcessID p = PID sl
                          /\ ArrivalTime p < Start sl
                          /\ Stop sl = Start sl + BurstDuration p)
                     (out_gantt (snd r)))
  /\ (exists r, RR_returns scenario r
                /\ afterArrival scenario (out_gantt (snd r))).
Proof.
  exact (no_run_before_arrival_outside_FCFS scenario scenario_valid
           scenario_small).
Defined.

(** ** The throughput *)

Section WhileLast.
Context {St : Type} (cond : St -> bool) (body : St -> St).
Variable Inv : St -> Prop.
Hypothesis Inv_body : forall s, Inv s -> cond s = true -> Inv (body s).

(** What the loop returns is the initial state, or the outcome of a last
    iteration. *)
Lemma while_last (f : nat) (s0 s' : St) :
  Inv s0 -> while cond body f s0 = Some s' ->
  (s' = s0 /\ cond s0 = false)
  \/ exists s, Inv s /\ cond s = true /\ s' = body s /\ cond s' = false.
Proof.
  revert s0. induction f as [|f IH]; intros s0 H0 H; simpl in H;
    destruct (cond s0) eqn:Hc; try discriminate.
  - injection H as <-. auto.
  - right.
    destruct (IH (body s0) (Inv_body s0 H0 Hc) H) as [[-> Hc']|Hlast];
      [|exact Hlast].
    exists s0. auto.
  - injection H as <-. auto.
Qed.
End WhileLast.

Lemma last_snoc {A : Type} (l : list A) (x d : A) :
  List.last (l ++ [x]) d = x.
Proof.
  induction l as [|a l IH]; [reflexivity|].
  simpl. destruct (l ++ [x]) eqn:E; [|exact IH].
  destruct l; discriminate.
Qed.

Lemma SJF_loop_clock (l : list Process) (a : SJF.Acc) :
  valid l ->
  0 <= SJF.currentTime a ->
  Z.max (SJF.currentTime a) (maxArrival l) + sumBurst l <= Int64.max_int ->
  l <> [] ->
  SJF.currentTime (SJF.loop l a)
  = List.last (map Stop (SJF.gantt (SJF.loop l a))) 0.
Proof.
  revert a. induction l as [|p l IH]; intros a Hv Hc Hmax Hne; [easy|].
  apply Forall_cons_1 in Hv as [Hp Hv].
  pose proof Hp as [Hb Ha].
  pose proof (sumBurst_nonneg l Hv) as Hs.
  pose proof (maxArrival_nonneg l) as Hm.
  simpl in Hmax. unfold SJF.loop in *. simpl fold_left.
  assert (Hstep := SJF_step_small a p Hp Hc ltac:(int64_lia)).
  cbv zeta in Hstep.
  destruct l as [|q l].
  - cbn [fold_left]. rewrite Hstep. cbn [SJF.currentTime SJF.gantt].
    rewrite map_app. cbn [map Stop]. now rewrite last_snoc.
  - apply IH; [exact Hv| | |discriminate]; rewrite Hstep;
      cbn [SJF.currentTime]; int64_lia.
Qed.

Lemma Prio_last_tick (ps : list Process) (s : Prio.State) :
  valid ps -> small ps ->
  PrioInv.Inv ps s ->
  Prio.unfinished ps s = true ->
  Prio.unfinished ps (Prio.tick ps s) = false ->
  Prio.currentTime (Prio.tick ps s)
  = List.last (map Stop (Prio.gantt (Prio.tick ps s))) 0 + 1.
Proof.
  intros Hv Hsmall Hinv Hun Hdone.
  pose proof (Prio_potential_pos ps s Hv Hinv Hun) as Hpot.
  pose proof (PrioInv.inv_time _ _ Hinv) as Ht.
  pose proof (PrioInv.inv_potential _ _ Hinv) as Hbound.
  assert (Hadd : Int64.add (Prio.currentTime s) 1 = Prio.currentTime s + 1)
    by (apply add_in_range; int64_lia).
  unfold Prio.unfinished in *.
  destruct (Prio_tick_step ps s)
    as [Hr Hq1 | p rest Hr Hsort | Hr Hnz | Hr Hz Hq1 | p rest Hr Hz Hsort];
    simpl in *; try congruence;
    rewrite Hadd, map_app; simpl map; now rewrite last_snoc.
Qed.

Lemma RR_last_iter (input : list Process) (m : gmap Z Process)
      (s : RR.State) :
  small input ->
  RRInv.Inv input s ->
  RR.unfinished s = true ->
  RR.unfinished (RR.iter m s) = false ->
  RR.clock (RR.iter m s)
  = List.last (map Stop (RR.gantt (RR.iter m s))) 0.
Proof.
  intros Hsmall [Hc Hv Hb Hcomp Hcnt Hsl Hw] Hun.
  unfold RR.iter, RR.unfinished in *.
  destruct (RR_moveArrived_spec (RR.clock s) (RR.processes s) (RR.queue s))
    as (moved & Hp & Hq & Hm & Hnext).
  destruct (RR.moveArrived _ _ _) as [pending queue]. simpl in Hp, Hq, Hnext.
  destruct queue as [|c queue].
  - destruct pending as [|p pending]; [|simpl; discriminate].
    exfalso. destruct moved; [|destruct (RR.queue s); discriminate].
    simpl in Hp. rewrite Hp in Hun. rewrite app_nil_r in Hq.
    rewrite <- Hq in Hun. discriminate.
  - destruct (RR.quantum <? BurstDuration c); simpl.
    + intros H. apply orb_false_elim in H as [_ H].
      rewrite length_app in H. simpl in H.
      apply Nat.ltb_ge in H. lia.
    + intros _. rewrite map_app. simpl map. now rewrite last_snoc.
Qed.

(** X15. What the throughput is counted over, on a valid input that is
    not empty and away from the end of the integer range. [SJFSchedule]
    and [RRSchedule] divide the number of processes by the time at which
    the last interval of the chart ends; [SJFPrioritySchedule] divides it
    by one tick more, the time of its clock when the loop ends. *)
Theorem throughput_denominators (ps : list Process) :
  valid ps -> small ps -> ps <> [] ->
  let n := Z.of_nat (length ps) in
  let lastStop := fun o => List.last (map Stop (out_gantt o)) 0 in
  out_aveThroughput (snd (SJFSchedule ps))
  = fdiv n (lastStop (snd (SJFSchedule ps)))
  /\ (exists r, Prio_returns ps r
                /\ out_aveThroughput (snd r) = fdiv n (lastStop (snd r) + 1))
  /\ (exists r, RR_returns ps r
                /\ out_aveThroughput (snd r) = fdiv n (lastStop (snd r))).
Proof.
  intros Hv Hs Hne n lastStop. split; [|split].
  - pose proof (sortStable_Permutation SJF.less ps) as Hperm.
    pose proof (maxArrival_nonneg ps) as Hm.
    assert (Hsmall := Hs). unfold small, horizon in Hsmall.
    rewrite (sumBurst_Permutation _ _ Hperm),
      (maxArrival_Permutation _ _ Hperm) in Hsmall.
    rewrite (maxArrival_Permutation _ _ Hperm) in Hm.
    unfold lastStop, n. simpl.
    rewrite sortStable_length. f_equal.
    apply SJF_loop_clock.
    + eapply valid_Permutation; eauto.
    + simpl. lia.
    + simpl. int64_lia.
    + intros E. apply sortStable_nil_inv in E. contradiction.
  - destruct (Prio_loop_total ps Hv Hs) as (s & Hloop & Hinv & _).
    exists (ps, Prio.finish ps s). split.
    + exists (PrioInv.measure ps (Prio.init ps)).
      unfold SJFPrioritySchedule. now rewrite Hloop.
    + unfold lastStop, n. simpl. f_equal.
      destruct (while_last (Prio.unfinished ps) (Prio.tick ps)
                  (PrioInv.Inv ps)
                  (fun s H Hc => proj1 (Prio_tick_inv ps s Hv Hs H Hc))
                  _ _ _ (Prio_init_inv ps Hv) Hloop)
        as [[_ Hc]|(s0 & Hinv0 & Hc0 & -> & Hc')].
      * destruct ps; [contradiction | discriminate].
      * now apply Prio_last_tick.
  - set (sorted := sortStable RR.less ps).
    set (m := RR.originals sorted).
    pose proof (RR_sorted_valid ps Hv) as Hv'.
    pose proof (RR_sorted_small ps Hs) as Hs'.
    fold sorted in Hv', Hs'.
    destruct (RR_loop_total sorted m Hv' Hs')
      as (s & Hloop & Hinv & Hp & Hq).
    exists (sorted, RR.finish m s). split.
    + exists (RRInv.measure (RR.init sorted)). unfold RRSchedule.
      fold sorted. fold m. now rewrite Hloop.
    + unfold lastStop, n. simpl.
      pose proof (RRInv.inv_completed _ _ Hinv) as Hcomp.
      pose proof (RRInv.inv_count _ _ Hinv) as Hcnt.
      unfold RRInv.waiting in Hcnt. rewrite Hp, Hq in Hcnt. simpl in Hcnt.
      rewrite Hcomp. replace (length (RR.schedule s)) with (length ps)
        by (unfold sorted in Hcnt; rewrite sortStable_length in Hcnt; lia).
      f_equal.
      destruct (while_last RR.unfinished (RR.iter m) (RRInv.Inv sorted)
                  (fun s H Hc => proj1 (RR_iter_inv sorted m s Hs' H Hc))
                  _ _ _ (RR_init_inv sorted Hv') Hloop)
        as [[_ Hc]|(s0 & Hinv0 & Hc0 & -> & Hc')].
      * exfalso. unfold RR.unfinished in Hc. simpl in Hc.
        destruct sorted eqn:E; [|discriminate].
        apply sortStable_nil_inv in E. contradiction.
      * now apply (RR_last_iter sorted).
Qed.

Lemma throughput_denominators_witness :
  out_aveThroughput (snd (SJFSchedule scenario))
  = fdiv 3 (List.last (map Stop (out_gantt (snd (SJFSchedule scenario)))) 0)
  /\ (exists r, Prio_returns scenario r
                /\ out_aveThroughput (snd r)
                   = fdiv 3 (List.last (map Stop (out_gantt (snd r))) 0 + 1))
  /\ (exists r, RR_returns scenario r
                /\ out_aveThroughput (snd r)
                   = fdiv 3 (List.last (map Stop (out_gantt (snd r))) 0)).
Proof.
  apply (throughput_denominators scenario scenario_valid scenario_small).
  discriminate.
Defined.

(** ** Inputs that the loader lets through *)

Lemma arrivedBefore_next (ps : list Process) (t : Z) :
  0 <= t ->
  (length (arrivedBefore ps (t + 1))
   = length (arrivedBefore ps t) + length (Prio.arrivals ps t))%nat.
Proof.
  intros Ht. unfold arrivedBefore, Prio.arrivals.
  induction ps as [|p ps IH]; [reflexivity|]. simpl.
  destruct (0 <=? ArrivalTime p) eqn:E0,
    (ArrivalTime p <? t + 1) eqn:E1,
    (ArrivalTime p <? t) eqn:E2,
    (ArrivalTime p =? t) eqn:E3; simpl; lia.
Qed.

Lemma arrivedBefore_0 (ps : list Process) : arrivedBefore ps 0 = [].
Proof.
  unfold arrivedBefore. induction ps as [|p ps IH]; [reflexivity|]. simpl.
  destruct (0 <=? ArrivalTime p) eqn:E0, (ArrivalTime p <? 0) eqn:E1;
    simpl; auto; lia.
Qed.

Lemma arrivedBefore_misses (ps : list Process) (p : Process) (t : Z) :
  In p ps -> ArrivalTime p < 0 ->
  (length (arrivedBefore ps t) < length ps)%nat.
Proof.
  intros Hin Hneg. unfold arrivedBefore.
  induction ps as [|q ps IH]; [destruct Hin|]. simpl.
  pose proof (filter_length_le
                (fun p => (0 <=? ArrivalTime p) && (ArrivalTime p <? t)) ps).
  destruct Hin as [->|Hin].
  - destruct (0 <=? ArrivalTime p) eqn:E; [lia|]. simpl. lia.
  - specialize (IH Hin).
    destruct ((0 <=? ArrivalTime q) && (ArrivalTime q <? t)); simpl; lia.
Qed.

Lemma Prio_step_census (ps : list Process) (s s' : Prio.State) :
  Prio.currentTime s + 1 <= Int64.max_int ->
  PrioInv.Step ps s s' ->
  Census.Prio ps s ->
  Census.Prio ps s' /\ Prio.currentTime s' = Prio.currentTime s + 1.
Proof.
  intros Hmax Hstep [Ht Hcount].
  assert (Hadd : Int64.add (Prio.currentTime s) 1 = Prio.currentTime s + 1)
    by (apply add_in_range; int64_lia).
  pose proof (arrivedBefore_next ps _ Ht) as Hnext.
  pose proof (length_app (Prio.queue s)
                (Prio.arrivals ps (Prio.currentTime s))) as Happ.
  pose proof (sortStable_length Prio.less
                (Prio.queue s ++ Prio.arrivals ps (Prio.currentTime s)))
    as Hlen.
  unfold PrioInv.running in *.
  destruct Hstep as [Hr Hq1 | p rest Hr Hsort | Hr Hnz | Hr Hz Hq1
                    | p rest Hr Hz Hsort];
    (split; [split|]); simpl; rewrite ?Hadd; try lia;
    rewrite Hnext; rewrite Hr in Hcount; simpl in Hcount;
    rewrite ?Hq1, ?Hsort in *; simpl in *; lia.
Qed.

Lemma Prio_loop_hangs (ps : list Process) (p : Process) (fuel : nat)
      (s : Prio.State) :
  In p ps -> ArrivalTime p < 0 ->
  Census.Prio ps s ->
  Prio.currentTime s + Z.of_nat fuel <= Int64.max_int ->
  Prio.loop fuel ps s = None.
Proof.
  intros Hin Hneg. unfold Prio.loop.
  revert s. induction fuel as [|fuel IH]; intros s Hs Hmax;
    pose proof (arrivedBefore_misses ps p (Prio.currentTime s) Hin Hneg)
      as Hmiss;
    pose proof (Census.prio_count _ _ Hs) as Hcount;
    assert (Hun : Prio.unfinished ps s = true)
      by (unfold Prio.unfinished; apply Nat.ltb_lt; lia);
    simpl; rewrite Hun; [reflexivity|].
  destruct (Prio_step_census ps s _ ltac:(lia) (Prio_tick_step ps s) Hs)
    as [Hs' Ht'].
  apply IH; [exact Hs'|]. rewrite Ht'. lia.
Qed.

(** X16. [loadProcesses] lets a negative arrival through, and
    [SJFPrioritySchedule] does not return on it: the process never joins
    the queue, as the clock starts at 0 and the arrivals are taken at the
    tick that equals them, so the count of completed processes stays
    below the number of processes for as long as the clock does not wrap
    around, whatever the other processes are. The four calls of [main] on
    such an input, with ids that fit the chart, stay in this third
    call. *)
Theorem Prio_hangs_on_negative_arrival
        (ps : list Process) (p : Process) (fuel : nat) :
  In p ps -> ArrivalTime p < 0 ->
  Z.of_nat fuel <= Int64.max_int ->
  SJFPrioritySchedule fuel ps = None
  /\ (shortIDs ps -> Main.schedule fuel ps = None).
Proof.
  intros Hin Hneg Hfuel.
  assert (Hhang : forall l, In p l -> SJFPrioritySchedule fuel l = None).
  { intros l Hl. unfold SJFPrioritySchedule.
    rewrite (Prio_loop_hangs l p fuel (Prio.init l) Hl Hneg);
      [reflexivity| |simpl; lia].
    split; simpl; [lia | now rewrite arrivedBefore_0]. }
  split; [now apply Hhang|].
  intros Hshort. rewrite (schedule_short fuel ps Hshort), Hhang;
    [reflexivity|].
  eapply Permutation_in; [apply sortStable_Permutation | exact Hin].
Qed.

Lemma Prio_hangs_on_negative_arrival_witness :
  SJFPrioritySchedule 1000 [proc 1 0 5 0; proc 2 (-1) 3 0] = None
  /\ Main.schedule 1000 [proc 1 0 5 0; proc 2 (-1) 3 0] = None.
Proof.
  destruct (Prio_hangs_on_negative_arrival
              [proc 1 0 5 0; proc 2 (-1) 3 0] (proc 2 (-1) 3 0) 1000)
    as [Hprio Hmain].
  - simpl. auto.
  - simpl. lia.
  - vm_compute. discriminate.
  - split; [exact Hprio|]. apply Hmain.
    repeat constructor; unfold longID; simpl; lia.
Defined.

(** ** SJFPrioritySchedule: the choice of the next process *)

(** The head of a stable sort is the first of the least elements. *)
Lemma sortStable_head_split {A : Type} (less : A -> A -> bool)
      (l : list A) (x : A) (rest : list A) :
  (forall x y, less x y = true -> less y x = false) ->
  (forall x y z, notAfter less x y -> notAfter less y z -> notAfter less x z) ->
  sortStable less l = x :: rest ->
  exists pre post,
    l = pre ++ x :: post
    /\ Forall (fun y => less x y = true) pre
    /\ Forall (notAfter less x) post.
Proof.
  intros Hasym Htrans. revert x rest.
  induction l as [|a l IH]; intros x rest Hsort; [discriminate|].
  simpl in Hsort. destruct (sortStable less l) as [|y r] eqn:Hl.
  - apply sortStable_nil_inv in Hl. subst l. simpl in Hsort.
    injection Hsort as <- <-. exists [], []. repeat split; constructor.
  - destruct (IH y r eq_refl) as (pre & post & Hsplit & Hpre & Hpost).
    simpl in Hsort. destruct (less y a) eqn:Hya.
    + injection Hsort as <- <-. exists (a :: pre), post.
      rewrite Hsplit. repeat split; auto.
    + injection Hsort as <- <-. exists [], l. split; [reflexivity|].
      split; [constructor|].
      rewrite Hsplit. apply Forall_app. split; [|constructor].
      * eapply Forall_impl; [exact Hpre|]. intros z Hz.
        apply (Htrans a y z); [exact Hya | now apply Hasym].
      * exact Hya.
      * eapply Forall_impl; [exact Hpost|]. intros z Hz.
        now apply (Htrans a y z).
Qed.

(** X17. The policy of [SJFPrioritySchedule], read off one iteration.
    It does not preempt: while the running process has time left it
    stays, and the arrivals of the tick only join the queue. When nothing
    runs, or the running process has no time left, and a process is
    queued or arrives, the iteration starts the process of the least
    burst, among those of that burst the one of the least priority
    number, and among those the one that has been queued first; the rest
    of the queue is kept. *)
Theorem Prio_tick_policy (ps : list Process) (s : Prio.State) :
  let ready := Prio.queue s ++ Prio.arrivals ps (Prio.currentTime s) in
  let s' := Prio.tick ps s in
  (Prio.isRunning s = true -> Prio.remainingTime s <> 0 ->
   Prio.isRunning s' = true
   /\ Prio.currentProcess s' = Prio.currentProcess s
   /\ Prio.queue s' = ready)
  /\ (Prio.isRunning s = false \/ Prio.remainingTime s = 0 ->
      ready <> [] ->
      Prio.isRunning s' = true
      /\ Prio.remainingTime s' = BurstDuration (Prio.currentProcess s')
      /\ exists earlier later,
           ready = earlier ++ Prio.currentProcess s' :: later
           /\ Permutation (Prio.queue s') (earlier ++ later)
           /\ Forall
                (fun r =>
                   BurstDuration (Prio.currentProcess s') < BurstDuration r
                   \/ (BurstDuration (Prio.currentProcess s')
                       = BurstDuration r
                       /\ Priority (Prio.currentProcess s') < Priority r))
                earlier
           /\ Forall
                (fun r =>
                   BurstDuration (Prio.currentProcess s') < BurstDuration r
                   \/ (BurstDuration (Prio.currentProcess s')
                       = BurstDuration r
                       /\ Priority (Prio.currentProcess s') <= Priority r))
                later).
Proof.
  intros ready s'.
  assert (Hchoice : forall p rest,
            sortStable Prio.less ready = p :: rest ->
            exists earlier later,
              ready = earlier ++ p :: later
              /\ Permutation rest (earlier ++ later)
              /\ Forall
                   (fun r =>
                      BurstDuration p < BurstDuration r
                      \/ (BurstDuration p = BurstDuration r
                          /\ Priority p < Priority r)) earlier
              /\ Forall
                   (fun r =>
                      BurstDuration p < BurstDuration r
                      \/ (BurstDuration p = BurstDuration r
                          /\ Priority p <= Priority r)) later).
  { intros p rest Hsort.
    destruct (sortStable_head_split Prio.less ready p rest Prio_less_asym
                Prio_notAfter_trans Hsort)
      as (earlier & later & Hsplit & Hpre & Hpost).
    exists earlier, later. split; [exact Hsplit|]. split; [|split].
    - apply (Permutation_cons_inv (a := p)).
      rewrite <- Hsort, <- sortStable_Permutation, Hsplit.
      symmetry. apply Permutation_middle.
    - eapply Forall_impl; [exact Hpre|]. intros r. apply Prio_less_spec.
    - eapply Forall_impl; [exact Hpost|]. intros r.
      apply Prio_notAfter_spec. }
  subst s' ready.
  destruct (Prio_tick_step ps s)
    as [Hr Hq1 | p rest Hr Hsort | Hr Hnz | Hr Hz Hq1 | p rest Hr Hz Hsort];
    simpl; (split; [intros Hrun Hrem | intros Hfree Hne]);
    try congruence; try (destruct Hfree; congruence); auto.
Qed.

Lemma Prio_tick_policy_witness :
  let s := Prio.mkState 3 0 false zeroProcess 0
             [proc 1 0 5 2; proc 2 1 3 4] [] [] in
  let s' := Prio.tick [proc 3 3 3 1] s in
  Prio.currentProcess s' = proc 3 3 3 1
  /\ exists earlier later,
       [proc 1 0 5 2; proc 2 1 3 4; proc 3 3 3 1]
       = earlier ++ Prio.currentProcess s' :: later
       /\ Permutation (Prio.queue s') (earlier ++ later).
Proof.
  intros s s'. split; [reflexivity|].
  destruct (proj2 (Prio_tick_policy [proc 3 3 3 1] s))
    as (_ & _ & earlier & later & Hsplit & Hperm & _).
  - now left.
  - discriminate.
  - exists earlier, later. split; [exact Hsplit | exact Hperm].
Defined.

(** ** RRSchedule: the table *)

Lemma RR_iter_table (input : list Process) (m : gmap Z Process)
      (s : RR.State) :
  small input ->
  RRInv.Inv input s -> RR.unfinished s = true ->
  Table.RR input s -> Table.RR input (RR.iter m s).
Proof.
  intros Hsmall [Hc Hv Hb Hcomp Hcnt Hsl Hw] Hun [Hids Hord Hpast Hdrawn].
  unfold small, horizon in Hsmall.
  unfold RR.iter.
  destruct (RR_moveArrived_spec (RR.clock s) (RR.processes s) (RR.queue s))
    as (moved & Hpm & Hqm & Hm & Hnext).
  destruct (RR.moveArrived _ _ _) as [pending queue]. simpl in Hpm, Hqm, Hnext.
  unfold RRInv.waiting in *.
  assert (Hsame : RR.queue s ++ RR.processes s = queue ++ pending).
  { rewrite Hpm at 1. rewrite Hqm. now rewrite app_assoc. }
  rewrite Hsame in *.
  assert (HM : maxArrival pending <= maxArrival (RR.processes s)).
  { rewrite Hpm, maxArrival_app. lia. }
  pose proof (maxArrival_nonneg pending) as HM0.
  pose proof (sumBurst_nonneg _ Hv) as HW0.
  assert (Hkeep : forall g',
            Forall
              (fun c =>
                 exists sl,
                   In sl (RR.gantt s ++ g') /\ PID sl = ProcessID c
                   /\ Stop sl = Exit c)
              (RR.schedule s)).
  { intros g'. eapply List.Forall_impl; [|exact Hdrawn].
    intros c (sl & Hin & Hid & Hstop). exists sl.
    split; [apply in_or_app; now left | auto]. }
  destruct queue as [|c queue].
  - destruct pending as [|p pending].
    + exfalso. unfold RR.unfinished in Hun.
      destruct moved; [|destruct (RR.queue s); discriminate].
      simpl in Hpm. rewrite Hpm in Hun. rewrite app_nil_r in Hqm.
      rewrite <- Hqm in Hun. discriminate.
    + simpl in *. split; simpl; unwrap; try int64_lia; auto.
      eapply Forall_impl; [exact Hpast|]. simpl. intros; lia.
  - apply Forall_cons_1 in Hv as [[Hcb Hca] Hv].
    pose proof (sumBurst_nonneg _ Hv) as HW1.
    simpl in Hb, HW0. rewrite sumBurst_app in *.
    unfold RR.quantum in *.
    destruct (4 <? BurstDuration c) eqn:E;
      [apply Z.ltb_lt in E | apply Z.ltb_ge in E].
    + split; simpl; unwrap; auto.
      * rewrite <- Hids, !map_app. simpl.
        apply Permutation_app_head.
        rewrite <- app_assoc. simpl.
        symmetry. apply Permutation_middle.
      * eapply Forall_impl; [exact Hpast|]. simpl. intros; lia.
    + split; simpl; unwrap; auto.
      * rewrite <- Hids, !map_app. simpl.
        rewrite <- !app_assoc. reflexivity.
      * apply StronglySorted_snoc; [exact Hord|].
        eapply Forall_impl; [exact Hpast|]. simpl. intros; lia.
      * apply Forall_app. split.
        -- eapply Forall_impl; [exact Hpast|]. simpl. intros; lia.
        -- repeat constructor. simpl. lia.
      * apply Forall_app. split; [apply Hkeep|].
        repeat constructor. simpl.
        eexists. split; [apply in_or_app; right; now left|].
        simpl. now unwrap.
Qed.

(** X18. The table of [RRSchedule] lists the processes in the order in
    which they complete, not in the order of the file nor of the
    arrivals: on a valid input away from the end of the integer range
    there is one line per process, the exits go up from each line to the
    next, and the exit of a line is the end of an interval that the chart
    has for its id. *)
Theorem RR_table_in_completion_order (ps : list Process) :
  valid ps -> small ps ->
  exists r,
    RR_returns ps r
    /\ Permutation (map rID (out_rows (snd r))) (map ProcessID ps)
    /\ StronglySorted (fun a b => rExit a < rExit b) (out_rows (snd r))
    /\ Forall
         (fun row =>
            exists sl,
              In sl (out_gantt (snd r))
              /\ PID sl = rID row /\ Stop sl = rExit row)
         (out_rows (snd r)).
Proof.
  intros Hv Hs.
  set (sorted := sortStable RR.less ps).
  set (m := RR.originals sorted).
  pose proof (RR_sorted_valid ps Hv) as Hv'.
  pose proof (RR_sorted_small ps Hs) as Hs'.
  fold sorted in Hv', Hs'.
  destruct (RR_loop_total sorted m Hv' Hs') as (s & Hloop & Hinv & Hp & Hq).
  assert (Hinit : Table.RR sorted (RR.init sorted))
    by (split; simpl; [reflexivity | constructor | constructor | constructor]).
  assert (Htab : Table.RR sorted s).
  { apply (while_invariant RR.unfinished (RR.iter m)
             (fun s => RRInv.Inv sorted s /\ Table.RR sorted s)
             (fun s H Hc =>
                conj (proj1 (RR_iter_inv sorted m s Hs' (proj1 H) Hc))
                     (RR_iter_table sorted m s Hs' (proj1 H) Hc (proj2 H)))
             _ (RR.init sorted) s
             (conj (RR_init_inv sorted Hv') Hinit) Hloop). }
  destruct Htab as [Hids Hord Hpast Hdrawn].
  rewrite Hp, Hq, !app_nil_r in Hids.
  exists (sorted, RR.finish m s). split; [|split; [|split]].
  - exists (RRInv.measure (RR.init sorted)). unfold RRSchedule.
    fold sorted. fold m. now rewrite Hloop.
  - simpl. rewrite map_map. simpl. rewrite Hids.
    apply Permutation_map. symmetry. apply sortStable_Permutation.
  - simpl. clear -Hord. induction Hord as [|c l Hl IH Hc]; simpl;
      constructor; [exact IH|].
    apply Forall_map. exact Hc.
  - simpl. apply Forall_map. exact Hdrawn.
Qed.

Lemma RR_table_in_completion_order_witness :
  exists r,
    RR_returns scenario r
    /\ Permutation (map rID (out_rows (snd r))) (map ProcessID scenario)
    /\ StronglySorted (fun a b => rExit a < rExit b) (out_rows (snd r)).
Proof.
  destruct (RR_table_in_completion_order scenario scenario_valid
              scenario_small) as (r & Hr & Hperm & Hord & _).
  exists r. auto.
Defined.

(** ** One interval for each process *)

Lemma totalSlices_isJob (job : Z * Z) (g : list TimeSlice) :
  totalSlices (isJob job) g = Z.of_nat (count_occ job_eq_dec (runs g) job).
Proof.
  induction g as [|sl g IH]; [reflexivity|].
  simpl totalSlices. simpl runs. simpl count_occ. rewrite IH.
  unfold isJob. destruct job as [a b]. simpl.
  destruct (job_eq_dec (PID sl, Stop sl - Start sl) (a, b)) as [E|E].
  - injection E as -> ->. rewrite !Z.eqb_refl. simpl. lia.
  - destruct (PID sl =? a) eqn:E1, (Stop sl - Start sl =? b) eqn:E2;
      simpl; try lia.
    apply Z.eqb_eq in E1, E2. subst. contradiction.
Qed.

Lemma total_isJob (job : Z * Z) (ps : list Process) :
  total (PrioInv.weigh (isJob job)) ps
  = Z.of_nat (count_occ job_eq_dec (jobs ps) job).
Proof.
  induction ps as [|p ps IH]; [reflexivity|].
  simpl total. simpl jobs. simpl count_occ. rewrite IH.
  unfold PrioInv.weigh at 1. unfold isJob. destruct job as [a b]. simpl.
  destruct (job_eq_dec (ProcessID p, BurstDuration p) (a, b)) as [E|E].
  - injection E as -> ->. rewrite !Z.eqb_refl. simpl. lia.
  - destruct (ProcessID p =? a) eqn:E1, (BurstDuration p =? b) eqn:E2;
      simpl; try lia.
    apply Z.eqb_eq in E1, E2. subst. contradiction.
Qed.

Lemma sjf_gantt_runs (t : Z) (l : list Process) :
  runs (Contract.sjf_gantt t l) = jobs l.
Proof.
  revert t. induction l as [|p l IH]; intros t; [reflexivity|].
  simpl. rewrite IH. do 2 f_equal. lia.
Qed.

(** X19. [SJFSchedule] and [SJFPrioritySchedule] run every process to its
    end in one piece: on a valid input away from the end of the integer
    range, the chart has exactly one interval for each process of the
    input, of the id of the process and the length of its burst, also
    when ids repeat. For [SJFSchedule] the intervals come in the order of
    the slice that it has sorted. *)
Theorem one_interval_per_process (ps : list Process) :
  valid ps -> small ps ->
  runs (out_gantt (snd (SJFSchedule ps))) = jobs (sortStable SJF.less ps)
  /\ exists r,
       Prio_returns ps r
       /\ Permutation (runs (out_gantt (snd r))) (jobs ps).
Proof.
  intros Hv Hs. split.
  - pose proof (sortStable_Permutation SJF.less ps) as Hperm.
    pose proof (maxArrival_nonneg ps) as Hm.
    assert (Hsmall := Hs). unfold small, horizon in Hsmall.
    rewrite (sumBurst_Permutation _ _ Hperm),
      (maxArrival_Permutation _ _ Hperm) in *.
    destruct (SJF_loop_small (sortStable SJF.less ps) SJF.init) as [Hg _].
    + eapply valid_Permutation; eauto.
    + simpl. lia.
    + simpl. int64_lia.
    + simpl in Hg. simpl. rewrite Hg. apply sjf_gantt_runs.
  - destruct (Prio_total ps Hv Hs) as (s & Hret & Hinv & Hdone).
    exists (ps, Prio.finish ps s). split; [exact Hret|]. simpl.
    apply (Permutation_count_occ job_eq_dec). intros job.
    pose proof (PrioInv.inv_ledger _ _ Hinv (isJob job)) as Hledger.
    rewrite Hdone in Hledger. simpl in Hledger.
    rewrite total_isJob, totalSlices_isJob in Hledger. lia.
Qed.

Lemma one_interval_per_process_witness :
  runs (out_gantt (snd (SJFSchedule scenario))) = [(2, 3); (1, 5); (3, 8)]
  /\ exists r,
       Prio_returns scenario r
       /\ Permutation (runs (out_gantt (snd r))) (jobs scenario).
Proof.
  exact (one_interval_per_process scenario scenario_valid scenario_small).
Defined.

(** ** RRSchedule: the number of slices *)

Lemma slicesOf_more (b : Z) : slicesOf (b - RR.quantum) = slicesOf b - 1.
Proof.
  unfold slicesOf, RR.quantum.
  replace (b - 4 + (4 - 1)) with (b + (4 - 1) + (-1) * 4) by lia.
  rewrite Z.div_add by lia. lia.
Qed.

Lemma slicesOf_last (b : Z) : 0 < b <= RR.quantum -> slicesOf b = 1.
Proof.
  unfold slicesOf, RR.quantum. intros H.
  symmetry. apply (Z.div_unique _ _ 1 (b - 1)); lia.
Qed.

Lemma slicesFor_absent (pid : Z) (l : list Process) :
  ~ In pid (map ProcessID l) -> total (slicesFor pid) l = 0.
Proof.
  induction l as [|p l IH]; simpl; [reflexivity|].
  intros Hnot. unfold slicesFor at 1. destruct (ProcessID p =? pid) eqn:E.
  - apply Z.eqb_eq in E. tauto.
  - rewrite IH; [lia | tauto].
Qed.

Lemma slicesFor_unique (ps : list Process) (p : Process) :
  uniqueIDs ps -> In p ps ->
  total (slicesFor (ProcessID p)) ps = slicesOf (BurstDuration p).
Proof.
  unfold uniqueIDs. induction ps as [|q ps IH]; simpl; [tauto|].
  intros Hnd Hin. apply NoDup_cons in Hnd as [Hq Hnd].
  rewrite list_elem_of_In in Hq. unfold slicesFor at 1.
  destruct Hin as [->|Hin].
  - rewrite Z.eqb_refl, slicesFor_absent by exact Hq. lia.
  - destruct (ProcessID q =? ProcessID p) eqn:E.
    + apply Z.eqb_eq in E. exfalso. apply Hq. rewrite E.
      now apply in_map.
    + rewrite IH by assumption. lia.
Qed.

Lemma RR_iter_slices (input : list Process) (m : gmap Z Process)
      (s : RR.State) :
  small input ->
  RRInv.Inv input s ->
  Slices.RR input s -> Slices.RR input (RR.iter m s).
Proof.
  intros Hsmall [Hc Hv Hb Hcomp Hcnt Hsl Hw] Hslices pid.
  specialize (Hslices pid).
  unfold small, horizon in Hsmall.
  unfold RR.iter.
  destruct (RR_moveArrived_spec (RR.clock s) (RR.processes s) (RR.queue s))
    as (moved & Hpm & Hqm & Hm & Hnext).
  destruct (RR.moveArrived _ _ _) as [pending queue]. simpl in Hpm, Hqm, Hnext.
  unfold RRInv.waiting in *.
  assert (Hsame : RR.queue s ++ RR.processes s = queue ++ pending).
  { rewrite Hpm at 1. rewrite Hqm. now rewrite app_assoc. }
  rewrite Hsame in *.
  pose proof (sumBurst_nonneg _ Hv) as HW0.
  destruct queue as [|c queue]; [exact Hslices|].
  apply Forall_cons_1 in Hv as [[Hcb Hca] Hv].
  pose proof (sumBurst_nonneg _ Hv) as HW1.
  simpl in Hb, HW0, Hslices. rewrite sumBurst_app in *.
  pose proof (maxArrival_nonneg pending) as HM0.
  rewrite total_app in Hslices.
  destruct (RR.quantum <? BurstDuration c) eqn:E;
    [apply Z.ltb_lt in E | apply Z.ltb_ge in E]; simpl;
    rewrite totalSlices_app, !total_app; simpl;
    unfold slicesFor at 1 in Hslices; unfold sliceOn at 2; simpl.
  - unfold slicesFor at 2. simpl.
    rewrite sub_in_range by (unfold RR.quantum in *; int64_lia).
    rewrite slicesOf_more.
    destruct (ProcessID c =? pid); lia.
  - rewrite (slicesOf_last (BurstDuration c)) in Hslices by lia.
    destruct (ProcessID c =? pid); lia.
Qed.

(** X20. The number of slices of [RRSchedule]: on a valid input away
    from the end of the integer range, the chart has for every id as many
    intervals as the bursts of the processes of that id ask for, a burst
    [b] asking for [b / 4] slices rounded up; with unique ids, the
    process of burst [b] is served in exactly that many slices. *)
Theorem RR_slice_count (ps : list Process) :
  valid ps -> small ps ->
  exists r,
    RR_returns ps r
    /\ (forall pid,
          totalSlices (sliceOn pid) (out_gantt (snd r))
          = total (slicesFor pid) ps)
    /\ (uniqueIDs ps ->
        forall p, In p ps ->
          totalSlices (sliceOn (ProcessID p)) (out_gantt (snd r))
          = (BurstDuration p + 3) / 4).
Proof.
  intros Hv Hs.
  set (sorted := sortStable RR.less ps).
  set (m := RR.originals sorted).
  pose proof (RR_sorted_valid ps Hv) as Hv'.
  pose proof (RR_sorted_small ps Hs) as Hs'.
  fold sorted in Hv', Hs'.
  destruct (RR_loop_total sorted m Hv' Hs') as (s & Hloop & Hinv & Hp & Hq).
  assert (Hinit : Slices.RR sorted (RR.init sorted))
    by (intros pid; reflexivity).
  assert (Hsl : Slices.RR sorted s).
  { apply (while_invariant RR.unfinished (RR.iter m)
             (fun s => RRInv.Inv sorted s /\ Slices.RR sorted s)
             (fun s H Hc =>
                conj (proj1 (RR_iter_inv sorted m s Hs' (proj1 H) Hc))
                     (RR_iter_slices sorted m s Hs' (proj1 H) (proj2 H)))
             _ (RR.init sorted) s
             (conj (RR_init_inv sorted Hv') Hinit) Hloop). }
  assert (Hcount : forall pid,
            totalSlices (sliceOn pid) (RR.gantt s)
            = total (slicesFor pid) ps).
  { intros pid. specialize (Hsl pid). rewrite Hp, Hq in Hsl. simpl in Hsl.
    rewrite (total_Permutation _ _ _ (sortStable_Permutation RR.less ps)).
    fold sorted. lia. }
  exists (sorted, RR.finish m s). split; [|split].
  - exists (RRInv.measure (RR.init sorted)). unfold RRSchedule.
    fold sorted. fold m. now rewrite Hloop.
  - exact Hcount.
  - intros Hu p Hin. simpl. rewrite Hcount.
    now apply slicesFor_unique.
Qed.

Lemma RR_slice_count_witness :
  exists r,
    RR_returns scenario r
    /\ totalSlices (sliceOn 1) (out_gantt (snd r)) = 2
    /\ totalSlices (sliceOn 2) (out_gantt (snd r)) = 1
    /\ totalSlices (sliceOn 3) (out_gantt (snd r)) = 2.
Proof.
  destruct (RR_slice_count scenario scenario_valid scenario_small)
    as (r & Hr & _ & Hcount).
  exists r. split; [exact Hr|].
  pose proof (Hcount scenario_unique) as H.
  split; [|split].
  - apply (H P1). simpl. auto.
  - apply (H P2). simpl. auto.
  - apply (H P3). simpl. auto.
Defined.
